(** * terrafig: dependency graph construction and DOT rendering

    A shallow embedding of the Go sources ([resource.go], [graph.go] and
    the files that hold the types, the module resolver, the path helpers
    and [main]) and the properties of the traversal, the reference
    extractor, the module resolver and the DOT serializer.

    Go maps are [gmap]s; every [range] over a map goes through an
    enumeration function that is only known to be a permutation of the
    map's entries, since Go leaves the iteration order unspecified.
    The file system and the HCL front end are parameters of the
    development. *)

From Stdlib Require Import ZArith Ascii String List Lia.
From stdpp Require Import base option list strings gmap fin_maps.

Local Open Scope string_scope.
Local Open Scope Z_scope.
Local Open Scope list_scope.

(** ** Strings: the functions of Go's [strings] package the code uses *)

Module Strings.

(** [strings.HasPrefix(s, prefix)]. *)
Definition HasPrefix (s p : string) : bool := String.prefix p s.

(** [strings.TrimPrefix(s, prefix)]. *)
Definition TrimPrefix (s p : string) : string :=
  if String.prefix p s
  then String.substring (String.length p) (String.length s - String.length p) s
  else s.

(** [Cut s sep]: the text before and after the first [sep] in [s]. *)
Fixpoint Cut (s : string) (sep : ascii) : option (string * string) :=
  match s with
  | EmptyString => None
  | String c rest =>
      if Ascii.eqb c sep then Some (EmptyString, rest)
      else match Cut rest sep with
           | Some (a, b) => Some (String c a, b)
           | None => None
           end
  end.

(** [strings.SplitN(s, sep, 2)] for a one-character separator: at most two
    pieces, the second one unsplit. *)
Definition SplitN2 (s : string) (sep : ascii) : list string :=
  match Cut s sep with
  | Some (a, b) => [a; b]
  | None => [s]
  end.

(** [strings.Split(s, sep)] for a one-character separator. *)
Fixpoint Split (s : string) (sep : ascii) : list string :=
  match s with
  | EmptyString => [EmptyString]
  | String c rest =>
      if Ascii.eqb c sep then EmptyString :: Split rest sep
      else match Split rest sep with
           | piece :: pieces => String c piece :: pieces
           | [] => [String c EmptyString]
           end
  end.

(** [strings.Join(parts, sep)]. *)
Definition Join (parts : list string) (sep : string) : string :=
  String.concat sep parts.

(** [strings.HasSuffix(s, suffix)]. *)
Definition HasSuffix (s suf : string) : bool :=
  String.prefix (String.rev suf) (String.rev s).

(** [strings.ContainsRune(s, c)]; not called by the program, used to
    describe identifiers. *)
Fixpoint Contains (s : string) (c : ascii) : bool :=
  match s with
  | EmptyString => false
  | String d rest => Ascii.eqb d c || Contains rest c
  end.

End Strings.

Import Strings.

Definition dot : ascii := "."%char.
Definition slash : ascii := "/"%char.

(** ** Data model ([types.go]) *)

Record Reference := mkReference { ref_ID : string; ref_Path : string }.

Record Node := mkNode {
  ID : string;
  Type_ : string;
  Name : string;
  Path : string;
  References : gmap string (list Reference);
  Depth : Z
}.

Definition emptyNode : Node := mkNode "" "" "" "" ∅ 0.

Definition setDepth (n : Node) (d : Z) : Node :=
  mkNode (ID n) (Type_ n) (Name n) (Path n) (References n) d.

Record Graph := mkGraph { Nodes : gmap string Node; MaxDepth : Z }.

#[global] Instance Reference_eq_dec : EqDecision Reference.
Proof. solve_decision. Defined.

(** Go's [int] is 64 bits wide on the platforms the tool is built for. *)
Definition max_int : Z := 2 ^ 63 - 1.
Definition min_int : Z := - 2 ^ 63.

Definition wrap_int (z : Z) : Z := (z + 2 ^ 63) mod 2 ^ 64 - 2 ^ 63.

(** [depth + 1] on a Go [int]. *)
Definition succ_int (d : Z) : Z := wrap_int (d + 1).

(** ** Results: a Go call returns, panics, or (in the model only) runs out
    of the fuel that bounds the recursion. *)

Inductive res (A : Type) : Type :=
| Ok (a : A)
| Panic
| OutOfFuel.
Arguments Ok {A} a.
Arguments Panic {A}.
Arguments OutOfFuel {A}.

#[global] Instance res_bind : MBind res := λ A B k r,
  match r with
  | Ok a => k a
  | Panic => Panic
  | OutOfFuel => OutOfFuel
  end.

#[global] Instance res_ret : MRet res := λ A a, Ok a.

(** [for _, x := range l { st = body(x, st) }] over a slice, stopping at
    the first panic. *)
Fixpoint forEach {A S} (body : A → S → res S) (l : list A) (st : S) : res S :=
  match l with
  | [] => Ok st
  | x :: rest => st' ← body x st; forEach body rest st'
  end.

(** ** The HCL front end (library [hashicorp/hcl/v2], outside the program)

    What the program reads off the parsed syntax: variable traversals of
    attribute expressions, the static value of an expression, block types
    and labels. *)

(** A [cty.Value] as far as the program looks at it: its type's friendly
    name and, for strings, the text. *)
Inductive ctyValue :=
| CtyString (s : string)
| CtyNumber (z : Z)
| CtyBool (b : bool)
| CtyNull.

(** [val.AsString()]: panics unless the value is a string. *)
Definition AsString (v : ctyValue) : res string :=
  match v with
  | CtyString s => Ok s
  | _ => Panic
  end.

Definition isStringTyped (v : ctyValue) : bool :=
  match v with CtyString _ => true | _ => false end.

(** One step of an [hcl.Traversal]. *)
Inductive Traverser :=
| TraverseRoot (name : string)
| TraverseAttr (name : string)
| TraverseIndex (key : ctyValue)
| TraverseSplat.

Definition Traversal := list Traverser.

(** An attribute: [attr.Expr.Variables()] and [attr.Expr.Value(nil)]
    ([None] when the evaluation reports errors). *)
Record Attribute := mkAttribute {
  attr_Variables : list Traversal;
  attr_Value : option ctyValue
}.

(** A block: [block.Type], [block.Labels] and [block.Body.JustAttributes()]
    (a Go map). *)
Record Block := mkBlock {
  blk_Type : string;
  blk_Labels : list string;
  blk_Attributes : gmap string Attribute
}.

(** A parsed file body: the names of its top-level attributes and its
    top-level blocks in source order. *)
Record Body := mkBody {
  body_Attributes : list string;
  body_Blocks : list Block
}.

(** A [hcl.BodySchema] with blocks only: block type and number of labels. *)
Definition BodySchema := list (string * nat).

Definition inSchema (schema : BodySchema) (b : Block) : bool :=
  existsb (fun '(ty, n) => String.eqb ty (blk_Type b) && Nat.eqb n (length (blk_Labels b)))
          schema.

(** [f.Body.Content(schema)]: the blocks of the body; diagnostics with
    errors ([None]) when the body holds an attribute or a block the schema
    does not declare, or a block with the wrong number of labels. *)
Definition Content (schema : BodySchema) (body : Body) : option (list Block) :=
  match body_Attributes body with
  | [] => if forallb (inSchema schema) (body_Blocks body)
          then Some (body_Blocks body) else None
  | _ :: _ => None
  end.

(** ** The world the program runs in *)

Record World := mkWorld {
  (** [range m] over a Go map: some enumeration of its entries *)
  range : ∀ A, gmap string A → list (string * A);
  (** [filepath.Walk(basePath, ...)]: the paths visited, in order, or an
      error *)
  Walk : string → option (list string);
  (** [parser.ParseHCLFile(file)]: [None] when the diagnostics hold errors *)
  ParseHCLFile : string → option Body;
  (** [os.Stat(path)] returns no error *)
  Stat : string → bool;
  (** [filepath.Join], [filepath.IsAbs], [filepath.Clean] *)
  filepath_Join : string → string → string;
  filepath_IsAbs : string → bool;
  filepath_Clean : string → string
}.
Arguments range _ {A} _.

(** Go fixes no order for [range] over a map, but every entry is visited
    exactly once. *)
Definition range_complete (W : World) : Prop :=
  ∀ A (m : gmap string A), range W m ≡ₚ map_to_list m.

(** ** The reference extractor ([resource.go]) *)

Definition traverserPart (t : Traverser) : list string :=
  match t with
  | TraverseRoot name => [name]
  | TraverseAttr name => [name]
  | TraverseIndex key =>
      match key with
      | CtyString s => [s]
      | _ => []
      end
  | TraverseSplat => []
  end.

Definition traversalToReference (traversal : Traversal) : string :=
  Join (concat (map traverserPart traversal)) ".".

Definition appendUniqueReference (slice : list Reference) (element : Reference)
  : list Reference :=
  if existsb (fun existing => String.eqb (ref_ID existing) (ref_ID element)) slice
  then slice
  else slice ++ [element].

(** The [switch prefix] of [extractReferences]. *)
Definition category (prefix : string) : string :=
  if String.eqb prefix "var" then "variable"
  else if String.eqb prefix "module" then "module"
  else if String.eqb prefix "data" then "data"
  else "resource".

(** [refs[k]] on a Go map of slices: the nil slice for a missing key. *)
Definition getRefs (refs : gmap string (list Reference)) (k : string)
  : list Reference := default [] (refs !! k).

(** The body of the inner loop of [extractReferences], for one variable. *)
Definition addVariable (filePath : string) (v : Traversal)
    (refs : gmap string (list Reference)) : gmap string (list Reference) :=
  let ref := traversalToReference v in
  if String.eqb ref "" then refs
  else match SplitN2 ref dot with
       | prefix :: _ :: _ =>
           let reference := mkReference ref filePath in
           let c := category prefix in
           <[c := appendUniqueReference (getRefs refs c) reference]> refs
       | _ => refs
       end.

Definition addAttribute (filePath : string) (entry : string * Attribute)
    (refs : gmap string (list Reference)) : gmap string (list Reference) :=
  fold_left (fun acc v => addVariable filePath v acc) (attr_Variables entry.2) refs.

Definition extractReferences (W : World) (block : Block) (filePath : string)
  : gmap string (list Reference) :=
  fold_left (fun acc entry => addAttribute filePath entry acc)
            (range W (blk_Attributes block)) ∅.

(** ** The declaration locator ([resource.go]) *)

(** [block.Labels[i]]: an index out of range panics. *)
Definition label (block : Block) (i : nat) : res string :=
  match blk_Labels block !! i with
  | Some l => Ok l
  | None => Panic
  end.

(** [block.Labels[len(block.Labels)-1]]. *)
Definition lastLabel (block : Block) : res string :=
  match blk_Labels block with
  | [] => Panic
  | l :: ls => Ok (List.last ls l)
  end.

Definition getBlockID (block : Block) : res string :=
  if String.eqb (blk_Type block) "resource" then
    l0 ← label block 0; l1 ← label block 1; Ok (l0 +:+ "." +:+ l1)
  else if String.eqb (blk_Type block) "module" then
    l0 ← label block 0; Ok ("module." +:+ l0)
  else if String.eqb (blk_Type block) "data" then
    l0 ← label block 0; l1 ← label block 1; Ok ("data." +:+ l0 +:+ "." +:+ l1)
  else if String.eqb (blk_Type block) "output" then
    l0 ← label block 0; Ok ("output." +:+ l0)
  else Ok "".

Fixpoint findNodeInBlocks (W : World) (blocks : list Block) (nodeID file : string)
  : res (option Node) :=
  match blocks with
  | [] => Ok None
  | block :: rest =>
      currentID ← getBlockID block;
      if String.eqb currentID nodeID then
        let refs := extractReferences W block file in
        name ← lastLabel block;
        Ok (Some (mkNode currentID (blk_Type block) name file refs 0))
      else findNodeInBlocks W rest nodeID file
  end.

(** [findTerraformFiles] (path helpers): the visited paths whose last
    element ends in [.tf]; the empty list when the walk fails. A path
    ends in [.tf] exactly when its last element does. *)
Definition findTerraformFiles (W : World) (basePath : string) : list string :=
  match Walk W basePath with
  | Some paths => filter (fun p => Is_true (HasSuffix p ".tf")) paths
  | None => []
  end.

Definition resolvePath (W : World) (basePath relativePath : string) : string :=
  if filepath_IsAbs W relativePath then relativePath
  else filepath_Clean W (filepath_Join W basePath relativePath).

(** The schema [findResourceNode] asks for. *)
Definition resourceSchema : BodySchema :=
  [("resource", 2); ("module", 1); ("data", 2); ("variable", 1);
   ("output", 1); ("provider", 1); ("terraform", 0); ("locals", 0)]%nat.

Fixpoint findResourceNodeIn (W : World) (files : list string) (nodeID : string)
  : res (option Node) :=
  match files with
  | [] => Ok None
  | file :: rest =>
      match ParseHCLFile W file with
      | None => findResourceNodeIn W rest nodeID
      | Some body =>
          match Content resourceSchema body with
          | None => findResourceNodeIn W rest nodeID
          | Some blocks =>
              r ← findNodeInBlocks W blocks nodeID file;
              match r with
              | Some node => Ok (Some node)
              | None => findResourceNodeIn W rest nodeID
              end
          end
      end
  end.

(** [findResourceNode]: [Ok None] is the result [Node{}, false]. *)
Definition findResourceNode (W : World) (basePath nodeID : string)
  : res (option Node) :=
  findResourceNodeIn W (findTerraformFiles W basePath) nodeID.

(** ** The module resolver *)

Definition moduleSchema : BodySchema := [("module", 1%nat)].

(** The loop over the blocks of one file in [findModuleNode]; [Ok (Some _)]
    is the [return] from inside the loop. *)
Fixpoint findModuleInBlocks (W : World) (blocks : list Block)
    (basePath moduleID moduleName file : string) : res (option (string * Node)) :=
  match blocks with
  | [] => Ok None
  | block :: rest =>
      let next := findModuleInBlocks W rest basePath moduleID moduleName file in
      if String.eqb (blk_Type block) "module" then
        l0 ← label block 0;
        if String.eqb l0 moduleName then
          match blk_Attributes block !! "source" with
          | Some sourceAttr =>
              match attr_Value sourceAttr with
              | Some sourceVal =>
                  sourcePath ← AsString sourceVal;
                  if HasPrefix sourcePath "." then
                    let absolutePath := filepath_Join W basePath sourcePath in
                    if Stat W absolutePath then
                      let refs := extractReferences W block file in
                      Ok (Some (absolutePath,
                                mkNode moduleID "module" moduleName file refs 0))
                    else next
                  else next
              | None => next
              end
          | None => next
          end
        else next
      else next
  end.

Fixpoint findModuleNodeIn (W : World) (files : list string)
    (basePath moduleID moduleName : string) : res (string * Node) :=
  match files with
  | [] => Ok ("", emptyNode)
  | file :: rest =>
      match ParseHCLFile W file with
      | None => findModuleNodeIn W rest basePath moduleID moduleName
      | Some body =>
          match Content moduleSchema body with
          | None => findModuleNodeIn W rest basePath moduleID moduleName
          | Some blocks =>
              r ← findModuleInBlocks W blocks basePath moduleID moduleName file;
              match r with
              | Some found => Ok found
              | None => findModuleNodeIn W rest basePath moduleID moduleName
              end
          end
      end
  end.

Definition findModuleNode (W : World) (basePath moduleID : string)
  : res (string * Node) :=
  let moduleName := TrimPrefix moduleID "module." in
  let moduleName :=
    match SplitN2 moduleName dot with
    | part0 :: _ => part0
    | [] => moduleName
    end in
  findModuleNodeIn W (findTerraformFiles W basePath) basePath moduleID moduleName.

(** ** The graph traverser ([graph.go] and the module expansion) *)

(** History kept beside the program state, for stating properties: every
    assignment [graph.Nodes[key] = node] with the depth of the node, and
    every call of [traverseModuleDirectory]. *)
Inductive Event :=
| EvStore (key : string) (depth : Z)
| EvModuleDirectory (moduleBasePath moduleID : string) (depth : Z).

(** What a traversal run reads and writes: the graph, the
    [processedNodes] map (it only ever holds [true], so a set) and the
    history. *)
Record State := mkState {
  graph : Graph;
  processedNodes : gset string;
  history : list Event
}.

(** [graph.Nodes[key] = node]. *)
Definition store (key : string) (node : Node) (st : State) : State :=
  mkState (mkGraph (<[key := node]> (Nodes (graph st))) (MaxDepth (graph st)))
          (processedNodes st)
          (history st ++ [EvStore key (Depth node)]).

(** [processedNodes[nodeID] = true]. *)
Definition markProcessed (nodeID : string) (st : State) : State :=
  mkState (graph st) ({[nodeID]} ∪ processedNodes st) (history st).

Definition logModuleDirectory (moduleBasePath moduleID : string) (depth : Z)
    (st : State) : State :=
  mkState (graph st) (processedNodes st)
          (history st ++ [EvModuleDirectory moduleBasePath moduleID depth]).

(** [!strings.HasPrefix(ref.ID, "var.") && !strings.HasPrefix(ref.ID, "local.")] *)
Definition expandable (id : string) : bool :=
  negb (HasPrefix id "var.") && negb (HasPrefix id "local.").

(** The type of [traverseNode] once the fuel is fixed:
    base path, identifier, depth. *)
Definition Traverse := string → string → Z → State → res State.

Section Traversal.
Context (W : World).

(** The body of the inner loop of [processModuleReferences]. *)
Definition processModuleReference (rec : Traverse) (moduleID : string)
    (depth : Z) (moduleBasePath : string) (ref : Reference) (st : State)
  : res State :=
  if expandable (ref_ID ref) then
    let moduleRef := moduleID +:+ "/" +:+ ref_ID ref in
    if bool_decide (moduleRef ∈ processedNodes st) then Ok st
    else rec moduleBasePath moduleRef (succ_int depth) st
  else Ok st.

Definition processModuleReferences (rec : Traverse)
    (refs : gmap string (list Reference)) (moduleID : string) (depth : Z)
    (moduleBasePath : string) : State → res State :=
  forEach (fun (entry : string * list Reference) =>
    forEach (processModuleReference rec moduleID depth moduleBasePath) entry.2)
  (range W refs).

Definition processModuleBlocks (rec : Traverse) (blocks : list Block)
    (file moduleID : string) (depth : Z) (moduleBasePath : string)
  : State → res State :=
  forEach (fun (block : Block) st =>
    currentID ← getBlockID block;
    if String.eqb currentID "" then Ok st
    else
      let refs := extractReferences W block file in
      name ← lastLabel block;
      let moduleResourceNode :=
        mkNode (moduleID +:+ "/" +:+ currentID) (blk_Type block) name file refs
               (succ_int depth) in
      processModuleReferences rec refs moduleID depth moduleBasePath
        (store (ID moduleResourceNode) moduleResourceNode st))
  blocks.

(** The schema [traverseModuleDirectory] asks for. *)
Definition moduleDirectorySchema : BodySchema :=
  [("resource", 2); ("data", 2); ("module", 1); ("output", 1)]%nat.

Definition traverseModuleDirectory (rec : Traverse)
    (moduleBasePath moduleID : string) (depth : Z) (st : State) : res State :=
  let st := logModuleDirectory moduleBasePath moduleID depth st in
  match findTerraformFiles W moduleBasePath with
  | [] => Ok st
  | files =>
      forEach (fun (file : string) st =>
        match ParseHCLFile W file with
        | None => Ok st
        | Some body =>
            match Content moduleDirectorySchema body with
            | None => Ok st
            | Some blocks =>
                processModuleBlocks rec blocks file moduleID depth moduleBasePath st
            end
        end) files st
  end.

(** [strings.Split(nodeID, ".")[1]] and the [SplitN] that follows it. *)
Definition moduleNameOf (nodeID : string) : res string :=
  match Split nodeID dot !! 1%nat with
  | None => Panic
  | Some moduleName =>
      match SplitN2 moduleName dot with
      | part0 :: _ :: _ => Ok part0
      | _ => Ok moduleName
      end
  end.

(** The body of the inner loop at the end of [traverseNode]. *)
Definition traverseReference (rec : Traverse) (basePath : string) (depth : Z)
    (ref : Reference) (st : State) : res State :=
  if expandable (ref_ID ref)
  then rec basePath (ref_ID ref) (succ_int depth) st
  else Ok st.

(** The loop over [node.References] at the end of [traverseNode]. *)
Definition traverseReferences (rec : Traverse) (basePath : string)
    (refs : gmap string (list Reference)) (depth : Z) : State → res State :=
  forEach (fun (entry : string * list Reference) =>
    forEach (traverseReference rec basePath depth) entry.2)
  (range W refs).

(** The module branch of [traverseNode], taken when the identifier starts
    with [module.]. *)
Definition traverseModule (rec : Traverse) (basePath nodeID : string)
    (depth : Z) (st : State) : res State :=
  moduleName ← moduleNameOf nodeID;
  found ← findModuleNode W basePath ("module." +:+ moduleName);
  let '(modulePath, moduleNode) := found in
  if String.eqb modulePath "" then Ok st
  else
    let st := store nodeID (setDepth moduleNode depth) st in
    let moduleSourcePath := resolvePath W basePath modulePath in
    traverseModuleDirectory rec moduleSourcePath ("module." +:+ moduleName) depth st.

(** The rest of [traverseNode], from the call of [findResourceNode] on. *)
Definition traverseResource (rec : Traverse) (basePath nodeID : string)
    (depth : Z) (st : State) : res State :=
  found ← findResourceNode W basePath nodeID;
  match found with
  | None => Ok st
  | Some node =>
      let node := setDepth node depth in
      traverseReferences rec basePath (References node) depth
        (store nodeID node st)
  end.

Fixpoint traverseNode (fuel : nat) (basePath nodeID : string) (depth : Z)
    (st : State) : res State :=
  if bool_decide (depth > MaxDepth (graph st))
     || bool_decide (nodeID ∈ processedNodes st)
  then Ok st
  else
    match fuel with
    | O => OutOfFuel
    | S fuel' =>
        let st := markProcessed nodeID st in
        st ← (if HasPrefix nodeID "module."
              then traverseModule (traverseNode fuel') basePath nodeID depth st
              else Ok st);
        traverseResource (traverseNode fuel') basePath nodeID depth st
    end.

(** Fuel is spent only past the guard; every recursive call is one level
    deeper and none passes the guard beyond [MaxDepth], so this much fuel
    is enough (see [traverseNode_fuel]). *)
Definition fuelFor (maxDepth depth : Z) : nat := S (Z.to_nat (maxDepth - depth)).

(** [buildDependencyGraph]: a fresh [processedNodes], the traversal from
    depth 0. *)
Definition buildDependencyGraph (g : Graph) (basePath targetID : string)
  : res State :=
  traverseNode (fuelFor (MaxDepth g) 0) basePath targetID 0 (mkState g ∅ []).

End Traversal.

(** ** The DOT serializer ([graph.go]) *)

Definition quote : string := String "034"%char EmptyString.
Definition newline : string := String "010"%char EmptyString.

(** The [colors] map of [writeNodes]. *)
Definition colors : gmap string string :=
  {[ "variable" := "#FFB6C1"; "module" := "#98FB98"; "data" := "#87CEEB";
     "resource" := "#DDA0DD"; "output" := "#FFA07A" ]}.

(** [color := colors[category]; if color == "" { color = "#DCDCDC" }] *)
Definition colorOf (category : string) : string :=
  let color := default "" (colors !! category) in
  if String.eqb color "" then "#DCDCDC" else color.

(** The line of a depth-0 node. *)
Definition rootLine (id : string) (node : Node) : string :=
  "  " +:+ quote +:+ id +:+ quote +:+ " [label=" +:+ quote +:+ id +:+ "\n("
  +:+ Path node +:+ ")" +:+ quote +:+ ", color=red];" +:+ newline.

(** The line of a referenced node. *)
Definition referenceLine (color : string) (ref : Reference) : string :=
  "  " +:+ quote +:+ ref_ID ref +:+ quote +:+ " [label=" +:+ quote +:+ ref_ID ref
  +:+ "\n(" +:+ ref_Path ref +:+ ")" +:+ quote +:+ ", fillcolor=" +:+ quote
  +:+ color +:+ quote +:+ ", style=" +:+ quote +:+ "filled,rounded" +:+ quote
  +:+ "];" +:+ newline.

(** The line of an edge from a reference to its node. *)
Definition edgeLine (ref : Reference) (node : Node) : string :=
  "  " +:+ quote +:+ ref_ID ref +:+ quote +:+ " -> " +:+ quote +:+ ID node
  +:+ quote +:+ " [style=solid];" +:+ newline.

Section Serializer.
Context (W : World).

(** The serializers return the pieces written to the builder, in order;
    each takes the enumeration its [range graph.Nodes] runs over. *)

Definition writeNodeStyles : list string :=
  ["  // Node styles" +:+ newline;
   "  node [shape=box, style=rounded];" +:+ newline +:+ newline].

Definition writeRootNodes (nodes : list (string * Node)) : list string :=
  flat_map (fun '(id, node) =>
    if bool_decide (Depth node = 0) then [rootLine id node] else []) nodes.

Definition writeReferencedOf (node : Node) : list string :=
  flat_map (fun '(category, refs) =>
    map (referenceLine (colorOf category)) refs) (range W (References node)).

Definition writeReferencedNodes (nodes : list (string * Node)) : list string :=
  flat_map (fun '(_, node) =>
    if bool_decide (Depth node = 0) then writeReferencedOf node else []) nodes.

Definition writeNodesOn (nodes1 nodes2 : list (string * Node)) : list string :=
  writeRootNodes nodes1
  ++ [newline +:+ "  // Referenced nodes" +:+ newline]
  ++ writeReferencedNodes nodes2.

Definition writeEdgesOf (node : Node) : list string :=
  flat_map (fun '(_, refs) => map (fun ref => edgeLine ref node) refs)
           (range W (References node)).

Definition writeDependenciesOn (nodes : list (string * Node)) : list string :=
  [newline +:+ "  // Dependencies" +:+ newline]
  ++ flat_map (fun '(_, node) =>
       if bool_decide (Depth node = 0) then writeEdgesOf node else []) nodes.

Definition generateDOTOn (nodes1 nodes2 nodes3 : list (string * Node))
  : list string :=
  ["digraph terraform {" +:+ newline;
   "  rankdir = LR;" +:+ newline;
   "  compound = true;" +:+ newline +:+ newline]
  ++ writeNodeStyles
  ++ writeNodesOn nodes1 nodes2
  ++ writeDependenciesOn nodes3
  ++ ["}" +:+ newline].

Definition writeNodes (g : Graph) : list string :=
  writeNodesOn (range W (Nodes g)) (range W (Nodes g)).

Definition writeDependencies (g : Graph) : list string :=
  writeDependenciesOn (range W (Nodes g)).

(** [generateDOT]: the pieces written, and the text they make up. *)
Definition generateDOTPieces (g : Graph) : list string :=
  generateDOTOn (range W (Nodes g)) (range W (Nodes g)) (range W (Nodes g)).

Definition generateDOT (g : Graph) : string :=
  String.concat "" (generateDOTPieces g).

End Serializer.

(** ** Concrete worlds *)

Module Examples.

(** A world given by tables: the [.tf] walk of each directory, the parsed
    body of each file, the paths that exist, and [filepath.Join] at the
    arguments used. Paths are absolute and clean, so [filepath.IsAbs] is
    the test for a leading slash and [filepath.Clean] changes nothing. Maps
    are enumerated in the order of [map_to_list]. *)
Definition tableWorld (dirs : list (string * list string))
    (files : list (string * Body)) (existing : list string)
    (joins : list (string * string * string)) : World :=
  mkWorld (fun A m => map_to_list m)
          (fun basePath => list_to_map (M := gmap string (list string)) dirs !! basePath)
          (fun file => list_to_map (M := gmap string Body) files !! file)
          (fun path => bool_decide (path ∈ existing))
          (fun a b =>
             default (a +:+ "/" +:+ b)
               (list_to_map (M := gmap (string * string) string) joins !! (a, b)))
          (fun path => HasPrefix path "/")
          (fun path => path).

(** [root.attr1.attr2...] as a traversal. *)
Definition path (root : string) (attrs : list string) : Traversal :=
  TraverseRoot root :: map TraverseAttr attrs.

(** An attribute whose expression mentions the given variables and has no
    static value. *)
Definition uses (vars : list Traversal) : Attribute := mkAttribute vars None.

(** An attribute whose expression is a literal. *)
Definition literal (v : ctyValue) : Attribute := mkAttribute [] (Some v).

(** A graph with a node of depth 0 and a node of depth 1. *)
Definition nodeA : Node :=
  mkNode "aws_a.a" "resource" "a" "/p/main.tf"
         {[ "resource" := [mkReference "aws_b.b" "/p/main.tf"] ]} 0.
Definition nodeB : Node :=
  mkNode "aws_b.b" "resource" "b" "/p/main.tf"
         {[ "resource" := [mkReference "aws_a.a" "/p/main.tf"];
            "variable" := [mkReference "var.x" "/p/main.tf"] ]} 1.
Definition twoLevelGraph : Graph :=
  mkGraph {[ "aws_a.a" := nodeA; "aws_b.b" := nodeB ]} 3.

(** Two resources that reference each other. *)
Definition cycleBody : Body :=
  mkBody []
    [ mkBlock "resource" ["aws_a"; "a"] {[ "peer" := uses [path "aws_b" ["b"]] ]};
      mkBlock "resource" ["aws_b"; "b"] {[ "peer" := uses [path "aws_a" ["a"]] ]} ].

(** What the locator returns for the two resources. *)
Definition cycleNodeA : Node :=
  mkNode "aws_a.a" "resource" "a" "/p/main.tf"
         {[ "resource" := [mkReference "aws_b.b" "/p/main.tf"] ]} 0.
Definition cycleNodeB : Node :=
  mkNode "aws_b.b" "resource" "b" "/p/main.tf"
         {[ "resource" := [mkReference "aws_a.a" "/p/main.tf"] ]} 0.

Definition cycleWorld : World :=
  tableWorld [("/p", ["/p/main.tf"])] [("/p/main.tf", cycleBody)] ["/p"] [].

(** A configuration with a module call: [/p/main.tf] declares [aws_a.a],
    which mentions [module.net.id] and [aws_b.b], and [aws_b.b], which
    mentions [module.net.arn] and [module.net]; [/p/mods.tf] holds the
    call of module [net] with the given [source]; the module directory
    [/p/net] declares [aws_subnet.s], which mentions [var.cidr]. *)
Definition mainBody : Body :=
  mkBody []
    [ mkBlock "resource" ["aws_a"; "a"]
        {[ "subnet" := uses [path "module" ["net"; "id"]];
           "peer" := uses [path "aws_b" ["b"]] ]};
      mkBlock "resource" ["aws_b"; "b"]
        {[ "arn" := uses [path "module" ["net"; "arn"]; path "module" ["net"]] ]} ].

Definition modsBody (source : ctyValue) : Body :=
  mkBody [] [ mkBlock "module" ["net"] {[ "source" := literal source ]} ].

Definition netBody : Body :=
  mkBody []
    [ mkBlock "resource" ["aws_subnet"; "s"]
        {[ "cidr_block" := uses [path "var" ["cidr"]] ]} ].

Definition moduleWorldWith (source : ctyValue) : World :=
  tableWorld
    [("/p", ["/p/main.tf"; "/p/mods.tf"; "/p/net/main.tf"]);
     ("/p/net", ["/p/net/main.tf"])]
    [("/p/main.tf", mainBody); ("/p/mods.tf", modsBody source);
     ("/p/net/main.tf", netBody)]
    ["/p"; "/p/net"]
    [("/p", "./net", "/p/net")].

(** The module source is the relative path [./net]. *)
Definition moduleWorld : World := moduleWorldWith (CtyString "./net").


(** What the resolver returns for [module.net] in [moduleWorld]. *)
Definition netModuleNode : Node :=
  mkNode "module.net" "module" "net" "/p/mods.tf" ∅ 0.


(** A block that mentions [aws_b.b] three times, once with an attribute
    suffix, among other variables. *)
Definition repeatingBlock : Block :=
  mkBlock "resource" ["aws_a"; "a"]
    {[ "deps" := uses [path "aws_b" ["b"]; path "var" ["x"];
                       path "aws_b" ["b"; "id"]; path "aws_b" ["b"];
                       path "count" []; path "aws_c" ["c"]] ]}.

(** [aws_instance.foo.id] *)
Definition fooId : Traversal := path "aws_instance" ["foo"; "id"].

End Examples.


(** ** What the specification says of the extractor, in its own words *)

(** A dotted path cut down to its first two dot-separated segments. *)
Definition truncateTwo (ref : string) : string :=
  Join (take 2 (Split ref dot)) ".".

(** The category and the reference a variable stands for: none when the
    dotted path has fewer than two segments. *)
Definition classify (filePath : string) (v : Traversal)
  : option (string * Reference) :=
  let ref := traversalToReference v in
  match Split ref dot with
  | prefix :: _ :: _ => Some (category prefix, mkReference ref filePath)
  | _ => None
  end.

(** The variables of a block in the order the extractor meets them. *)
Definition variablesOf (W : World) (block : Block) : list Traversal :=
  flat_map (fun entry : string * Attribute => attr_Variables entry.2)
           (range W (blk_Attributes block)).

(** The references of one category in the order they are met, duplicates
    included. *)
Definition seenIn (filePath category : string) (vars : list Traversal)
  : list Reference :=
  omap (fun v => match classify filePath v with
                 | Some (c, r) => if String.eqb c category then Some r else None
                 | None => None
                 end) vars.

(** First-seen order without duplicates: an entry is kept unless an
    earlier one (or one of [seen]) has its identifier. *)
Fixpoint firstSeen (seen : list string) (l : list Reference) : list Reference :=
  match l with
  | [] => []
  | r :: rest =>
      if bool_decide (ref_ID r ∈ seen) then firstSeen seen rest
      else r :: firstSeen (ref_ID r :: seen) rest
  end.

(** An entry of [graph.Nodes] whose node has depth 0. *)
Definition atDepthZero (entry : string * Node) : Prop := Depth entry.2 = 0.

#[global] Instance atDepthZero_dec entry : Decision (atDepthZero entry).
Proof. unfold atDepthZero. apply _. Defined.

(** The shape of the keys under which [processModuleBlocks] registers the
    declarations of a module: [module.<name>/<identifier>]. *)
Definition namespaced (key : string) : bool :=
  HasPrefix key "module." && Contains key slash.

(** The depth of the first assignment to [graph.Nodes[key]] in a history. *)
Fixpoint firstStore (key : string) (h : list Event) : option Z :=
  match h with
  | [] => None
  | EvStore k d :: rest => if String.eqb k key then Some d else firstStore key rest
  | _ :: rest => firstStore key rest
  end.


(** The depth of the last assignment to [graph.Nodes[key]] in a history. *)
Fixpoint lastStore (key : string) (h : list Event) : option Z :=
  match h with
  | [] => None
  | e :: rest =>
      match lastStore key rest with
      | Some d => Some d
      | None =>
          match e with
          | EvStore k d => if String.eqb k key then Some d else None
          | _ => None
          end
      end
  end.

(** * Properties *)

(** ** Strings *)

Section StringFacts.


Lemma Cut_None s sep : Cut s sep = None ↔ Contains s sep = false.
Proof.
  induction s as [|c s IH]; simpl; [done|].
  destruct (Ascii.eqb c sep); simpl; [done|].
  destruct (Cut s sep) as [[a b]|]; split; intros H; try done.
  - destruct IH as [_ IH]. by specialize (IH H).
  - by apply IH.
Qed.

Lemma Split_Cut s sep :
  Split s sep = match Cut s sep with
                | Some (a, b) => a :: Split b sep
                | None => [s]
                end.
Proof.
  induction s as [|c s IH]; simpl; [done|].
  destruct (Ascii.eqb c sep); [done|].
  rewrite IH. by destruct (Cut s sep) as [[a b]|].
Qed.

Lemma Split_nonempty s sep : Split s sep ≠ [].
Proof. rewrite Split_Cut. by destruct (Cut s sep) as [[a b]|]. Qed.

Lemma Split_two s sep :
  (2 ≤ length (Split s sep))%nat ↔ ∃ a b, Cut s sep = Some (a, b).
Proof.
  rewrite Split_Cut. destruct (Cut s sep) as [[a b]|]; simpl.
  - split; [eauto|]. intros _. pose proof (Split_nonempty b sep).
    destruct (Split b sep); [done|simpl; lia].
  - split; [lia|]. by intros (?&?&?).
Qed.

Lemma Contains_app a b c :
  Contains (a +:+ b) c = Contains a c || Contains b c.
Proof.
  induction a as [|d a IH]; simpl; [done|]. rewrite IH. by rewrite orb_assoc.
Qed.

Lemma prefix_app p s : String.prefix p (p +:+ s) = true.
Proof.
  induction p as [|c p IH]; simpl; [by destruct s|].
  destruct (ascii_dec c c); [apply IH|congruence].
Qed.

Lemma prefix_app_inv p s : String.prefix p s = true → ∃ t, s = p +:+ t.
Proof.
  revert s. induction p as [|c p IH]; intros s H; [by exists s|].
  destruct s as [|d s]; simpl in H; [done|].
  destruct (ascii_dec c d); [|done]. subst.
  destruct (IH s H) as [t ->]. by exists t.
Qed.

End StringFacts.

(** ** The reference extractor *)

Section Extractor.

(** The loop body of [extractReferences], read through [classify]. *)
Lemma addVariable_classify filePath v refs :
  addVariable filePath v refs =
  match classify filePath v with
  | Some (c, r) => <[c := appendUniqueReference (getRefs refs c) r]> refs
  | None => refs
  end.
Proof.
  unfold addVariable, classify, SplitN2.
  destruct (String.eqb_spec (traversalToReference v) "") as [E|E].
  { by rewrite E. }
  rewrite Split_Cut.
  destruct (Cut (traversalToReference v) dot) as [[a b]|]; [|done].
  pose proof (Split_nonempty b dot). by destruct (Split b dot).
Qed.

Lemma appendUniqueReference_existing slice element :
  (∃ existing, existing ∈ slice ∧ ref_ID existing = ref_ID element) →
  appendUniqueReference slice element = slice.
Proof.
  intros (e & Hin & Hid). unfold appendUniqueReference.
  assert (existsb (λ existing, String.eqb (ref_ID existing) (ref_ID element)) slice
          = true) as ->; [|done].
  apply existsb_exists. exists e. split; [by apply list_elem_of_In|].
  by apply String.eqb_eq.
Qed.

Lemma appendUniqueReference_elem slice element :
  ∃ r, r ∈ appendUniqueReference slice element ∧ ref_ID r = ref_ID element.
Proof.
  unfold appendUniqueReference. destruct (existsb _ slice) eqn:E.
  - apply existsb_exists in E as (e & Hin & Hid).
    exists e. split; [by apply list_elem_of_In|by apply String.eqb_eq].
  - exists element. split; [|done]. apply elem_of_app. right. by left.
Qed.

Lemma firstSeen_ids seen l r :
  r ∈ firstSeen seen l → r ∈ l ∧ ref_ID r ∉ seen.
Proof.
  revert seen. induction l as [|x l IH]; simpl; intros seen H.
  { by apply elem_of_nil in H. }
  case_bool_decide as E.
  - destruct (IH _ H). split; [by right|done].
  - apply elem_of_cons in H as [->|H]; [split; [by left|done]|].
    destruct (IH _ H) as [? Hn]. split; [by right|].
    intros ?. apply Hn. by right.
Qed.

Lemma firstSeen_NoDup seen l : NoDup (ref_ID <$> firstSeen seen l).
Proof.
  revert seen. induction l as [|x l IH]; simpl; intros seen; [constructor|].
  case_bool_decide; [apply IH|]. simpl. constructor; [|apply IH].
  intros (r & Hid & Hin)%list_elem_of_fmap.
  apply firstSeen_ids in Hin as [_ Hn]. apply Hn. rewrite <- Hid. by left.
Qed.

(** Meeting one more reference is [appendUniqueReference]. *)
Lemma firstSeen_snoc seen l r :
  firstSeen seen (l ++ [r]) =
  if bool_decide (ref_ID r ∈ seen) then firstSeen seen l
  else appendUniqueReference (firstSeen seen l) r.
Proof.
  revert seen. induction l as [|x l IH]; simpl; intros seen.
  { by case_bool_decide. }
  case_bool_decide as Ex; [apply IH|].
  rewrite IH. clear IH.
  destruct (decide (ref_ID x = ref_ID r)) as [Heq|Hne].
  - rewrite bool_decide_eq_true_2 by (rewrite Heq; by left).
    rewrite bool_decide_eq_false_2 by (by rewrite <- Heq).
    symmetry. apply appendUniqueReference_existing. exists x. split; [by left|done].
  - case_bool_decide as E1; case_bool_decide as E2.
    + done.
    + apply elem_of_cons in E1 as [?|?]; [by destruct Hne|done].
    + destruct E1. by right.
    + unfold appendUniqueReference. simpl.
      destruct (String.eqb_spec (ref_ID x) (ref_ID r)); [done|]. simpl.
      by destruct (existsb _ _).
Qed.

Lemma seenIn_snoc filePath c vars v :
  seenIn filePath c (vars ++ [v]) =
  seenIn filePath c vars ++
  match classify filePath v with
  | Some (c', r) => if String.eqb c' c then [r] else []
  | None => []
  end.
Proof.
  unfold seenIn. rewrite omap_app. f_equal. simpl.
  destruct (classify filePath v) as [[c' r]|]; [|done]. by destruct (String.eqb c' c).
Qed.

(** The state of the extractor after any number of variables: every
    category holds the first-seen references met so far. *)
Lemma fold_addVariable_firstSeen filePath vars c :
  getRefs (fold_left (λ acc v, addVariable filePath v acc) vars ∅) c =
  firstSeen [] (seenIn filePath c vars).
Proof.
  induction vars as [|v vars IH] using rev_ind; [done|].
  rewrite fold_left_app. simpl. rewrite seenIn_snoc, addVariable_classify.
  destruct (classify filePath v) as [[c' r]|].
  - destruct (String.eqb_spec c' c) as [->|Hne].
    + unfold getRefs at 1. rewrite lookup_insert_eq. simpl.
      rewrite firstSeen_snoc, IH. by rewrite bool_decide_eq_false_2 by apply not_elem_of_nil.
    + unfold getRefs at 1. rewrite lookup_insert_ne by done.
      rewrite app_nil_r. apply IH.
  - rewrite app_nil_r. apply IH.
Qed.

Lemma extractReferences_fold W block filePath :
  extractReferences W block filePath =
  fold_left (λ acc v, addVariable filePath v acc) (variablesOf W block) ∅.
Proof.
  unfold extractReferences, variablesOf.
  generalize (∅ : gmap string (list Reference)).
  induction (range W (blk_Attributes block)) as [|e l IH]; intros m; [done|].
  simpl. rewrite fold_left_app. apply IH.
Qed.

End Extractor.

(** C5, as the claim states it, fails: for the variable
    [aws_instance.foo.id] the extractor records the identifier
    [aws_instance.foo.id], and no reference with the truncated identifier
    [aws_instance.foo] in any category. *)
Lemma C5_no_truncation_counterexample :
  truncateTwo (traversalToReference Examples.fooId) = "aws_instance.foo" ∧
  addVariable "/p/main.tf" Examples.fooId ∅
  = {[ "resource" := [mkReference "aws_instance.foo.id" "/p/main.tf"] ]} ∧
  ¬ ∃ c r, r ∈ getRefs (addVariable "/p/main.tf" Examples.fooId ∅) c
           ∧ ref_ID r = truncateTwo (traversalToReference Examples.fooId).
Proof.
  split; [reflexivity|].
  assert (addVariable "/p/main.tf" Examples.fooId ∅
          = {[ "resource" := [mkReference "aws_instance.foo.id" "/p/main.tf"] ]}) as E.
  { vm_compute. reflexivity. }
  split; [exact E|]. rewrite E. intros (c & r & Hin & Hid).
  unfold getRefs in Hin.
  destruct (decide (c = "resource")) as [->|Hne].
  - rewrite lookup_singleton_eq in Hin. simpl in Hin.
    apply list_elem_of_singleton in Hin. subst r. vm_compute in Hid. discriminate.
  - rewrite lookup_singleton_ne in Hin by done. simpl in Hin.
    by apply elem_of_nil in Hin.
Qed.

(** C5 (amended): a variable whose dotted path has two or more segments
    is recorded under the category of its first segment with the whole
    dotted path as identifier, nothing cut off; a path with fewer than two
    segments leaves the references unchanged. *)
Theorem C5_full_path_recorded (filePath : string) (v : Traversal)
    (refs : gmap string (list Reference)) :
  let ref := traversalToReference v in
  let c := category (hd "" (Split ref dot)) in
  ((2 ≤ length (Split ref dot))%nat →
     addVariable filePath v refs
     = <[c := appendUniqueReference (getRefs refs c) (mkReference ref filePath)]> refs
     ∧ ∃ r, r ∈ getRefs (addVariable filePath v refs) c ∧ ref_ID r = ref)
  ∧ ((length (Split ref dot) < 2)%nat → addVariable filePath v refs = refs).
Proof.
  intros ref c. rewrite addVariable_classify. unfold classify. fold ref.
  subst c. destruct (Split ref dot) as [|p [|q l]] eqn:E; simpl.
  - split; [lia|done].
  - split; [lia|done].
  - split; [|lia]. intros _. split; [done|].
    unfold getRefs at 1. rewrite lookup_insert_eq. simpl.
    apply (appendUniqueReference_elem _ (mkReference ref filePath)).
Qed.

Lemma C5_full_path_recorded_witness :
  (2 ≤ length (Split (traversalToReference Examples.fooId) dot))%nat ∧
  ∃ r, r ∈ getRefs (addVariable "/p/main.tf" Examples.fooId ∅) "resource"
       ∧ ref_ID r = "aws_instance.foo.id".
Proof.
  split; [vm_compute; lia|].
  apply (C5_full_path_recorded "/p/main.tf" Examples.fooId ∅). vm_compute. lia.
Defined.

(** C6: in every category of the references the extractor returns for a
    block, no two references share an identifier, and the sequence is the
    first-seen order of the references met in that category; a reference
    whose identifier is already present leaves the sequence, with the
    entry it holds, as it is. *)
Theorem C6_references_unique_first_seen (W : World) (block : Block)
    (filePath c : string) (l : list Reference) :
  extractReferences W block filePath !! c = Some l →
  NoDup (ref_ID <$> l)
  ∧ l = firstSeen [] (seenIn filePath c (variablesOf W block))
  ∧ ∀ existing later, existing ∈ l → ref_ID existing = ref_ID later →
      appendUniqueReference l later = l.
Proof.
  intros H.
  assert (l = firstSeen [] (seenIn filePath c (variablesOf W block))) as E.
  { rewrite <- fold_addVariable_firstSeen, <- extractReferences_fold.
    unfold getRefs. by rewrite H. }
  split; [rewrite E; apply firstSeen_NoDup|]. split; [done|].
  intros existing later Hin Hid. apply appendUniqueReference_existing. eauto.
Qed.

Lemma C6_references_unique_first_seen_witness :
  let W := Examples.cycleWorld in
  let l := [mkReference "aws_b.b" "/p/main.tf"; mkReference "aws_b.b.id" "/p/main.tf";
            mkReference "aws_c.c" "/p/main.tf"] in
  extractReferences W Examples.repeatingBlock "/p/main.tf" !! "resource" = Some l
  ∧ NoDup (ref_ID <$> l).
Proof.
  intros W l.
  assert (extractReferences W Examples.repeatingBlock "/p/main.tf" !! "resource"
          = Some l) as H by (vm_compute; reflexivity).
  split; [exact H|].
  exact (proj1 (C6_references_unique_first_seen W _ _ _ _ H)).
Defined.

(** ** The serializer *)

Section SerializerFacts.
Context (W : World).

Lemma range_elem {A} (m : gmap string A) k x :
  range_complete W → (k, x) ∈ range W m ↔ m !! k = Some x.
Proof. intros Hr. rewrite (Hr A m). apply elem_of_map_to_list. Qed.

Lemma flat_map_depth_zero {B} (f : string → Node → list B) nodes :
  flat_map (λ '(id, node), if bool_decide (Depth node = 0) then f id node else [])
           nodes
  = flat_map (λ '(id, node), if bool_decide (Depth node = 0) then f id node else [])
             (filter atDepthZero nodes).
Proof.
  induction nodes as [|[id node] nodes IH]; [done|]. simpl.
  rewrite filter_cons. unfold atDepthZero at 1. simpl.
  destruct (decide (Depth node = 0)) as [E|E].
  - simpl. rewrite bool_decide_eq_true_2 by done. by rewrite IH.
  - rewrite bool_decide_eq_false_2 by done. simpl. apply IH.
Qed.

Lemma generateDOTOn_depth_zero nodes1 nodes2 nodes3 :
  generateDOTOn W nodes1 nodes2 nodes3
  = generateDOTOn W (filter atDepthZero nodes1) (filter atDepthZero nodes2)
                  (filter atDepthZero nodes3).
Proof.
  unfold generateDOTOn, writeNodesOn, writeDependenciesOn,
    writeRootNodes, writeReferencedNodes.
  rewrite (flat_map_depth_zero (λ id node, [rootLine id node]) nodes1).
  rewrite (flat_map_depth_zero (λ _ node, writeReferencedOf W node) nodes2).
  rewrite (flat_map_depth_zero (λ _ node, writeEdgesOf W node) nodes3).
  reflexivity.
Qed.

(** The pieces that do not depend on the graph. *)
Definition fixedPieces : list string :=
  ["digraph terraform {" +:+ newline; "  rankdir = LR;" +:+ newline;
   "  compound = true;" +:+ newline +:+ newline]
  ++ writeNodeStyles
  ++ [newline +:+ "  // Referenced nodes" +:+ newline;
      newline +:+ "  // Dependencies" +:+ newline; "}" +:+ newline].

Lemma elem_of_flat_map {A B} (f : A → list B) (l : list A) (y : B) :
  y ∈ flat_map f l ↔ ∃ x, x ∈ l ∧ y ∈ f x.
Proof.
  rewrite list_elem_of_In, in_flat_map.
  split; intros (x & Hx & Hy); exists x; by rewrite ?list_elem_of_In in *.
Qed.

Lemma elem_of_writeRootNodes nodes piece :
  piece ∈ writeRootNodes nodes ↔
  ∃ id node, (id, node) ∈ nodes ∧ Depth node = 0 ∧ piece = rootLine id node.
Proof.
  unfold writeRootNodes. rewrite elem_of_flat_map. split.
  - intros ([id node] & Hin & Hp). case_bool_decide; [|by apply elem_of_nil in Hp].
    apply list_elem_of_singleton in Hp. eauto.
  - intros (id & node & Hin & Hd & ->). exists (id, node). split; [done|].
    rewrite bool_decide_eq_true_2 by done. by left.
Qed.

Lemma elem_of_writeReferencedOf node piece :
  piece ∈ writeReferencedOf W node ↔
  ∃ c refs ref, (c, refs) ∈ range W (References node) ∧ ref ∈ refs
                ∧ piece = referenceLine (colorOf c) ref.
Proof.
  unfold writeReferencedOf. rewrite elem_of_flat_map. split.
  - intros ([c refs] & Hin & Hp).
    apply list_elem_of_In, in_map_iff in Hp as (ref & <- & Hr).
    apply list_elem_of_In in Hr. eauto 6.
  - intros (c & refs & ref & Hin & Hr & ->). exists (c, refs). split; [done|].
    apply list_elem_of_In, in_map_iff. exists ref. split; [done|].
    by apply list_elem_of_In.
Qed.

Lemma elem_of_writeEdgesOf node piece :
  piece ∈ writeEdgesOf W node ↔
  ∃ c refs ref, (c, refs) ∈ range W (References node) ∧ ref ∈ refs
                ∧ piece = edgeLine ref node.
Proof.
  unfold writeEdgesOf. rewrite elem_of_flat_map. split.
  - intros ([c refs] & Hin & Hp).
    apply list_elem_of_In, in_map_iff in Hp as (ref & <- & Hr).
    apply list_elem_of_In in Hr. eauto 6.
  - intros (c & refs & ref & Hin & Hr & ->). exists (c, refs). split; [done|].
    apply list_elem_of_In, in_map_iff. exists ref. split; [done|].
    by apply list_elem_of_In.
Qed.

(** A piece of the output comes from a node [node] stored under [id]. *)
Definition pieceOf (id : string) (node : Node) (piece : string) : Prop :=
  piece = rootLine id node
  ∨ ∃ c refs ref, References node !! c = Some refs ∧ ref ∈ refs
      ∧ (piece = referenceLine (colorOf c) ref ∨ piece = edgeLine ref node).

Lemma elem_of_generateDOTOn nodes1 nodes2 nodes3 piece :
  piece ∈ generateDOTOn W nodes1 nodes2 nodes3 ↔
  piece ∈ fixedPieces
  ∨ (∃ id node, (id, node) ∈ nodes1 ∧ Depth node = 0 ∧ piece = rootLine id node)
  ∨ (∃ id node, (id, node) ∈ nodes2 ∧ Depth node = 0
                ∧ piece ∈ writeReferencedOf W node)
  ∨ (∃ id node, (id, node) ∈ nodes3 ∧ Depth node = 0 ∧ piece ∈ writeEdgesOf W node).
Proof.
  unfold generateDOTOn, writeNodesOn, writeDependenciesOn, writeReferencedNodes,
    fixedPieces.
  rewrite !elem_of_app, elem_of_writeRootNodes, !elem_of_flat_map.
  rewrite !elem_of_cons, !elem_of_nil.
  assert (∀ (f : Node → list string) (nodes : list (string * Node)),
    (∃ x : string * Node, x ∈ nodes ∧
       piece ∈ (let '(_, node) := x in
                if bool_decide (Depth node = 0) then f node else []))
    ↔ (∃ id node, (id, node) ∈ nodes ∧ Depth node = 0 ∧ piece ∈ f node)) as E.
  { intros f nodes. split.
    - intros ([id node] & Hin & Hp).
      case_bool_decide; [|by apply elem_of_nil in Hp]. eauto.
    - intros (id & node & Hin & Hd & Hp). exists (id, node). split; [done|].
      by rewrite bool_decide_eq_true_2. }
  rewrite (E (writeReferencedOf W)), (E (writeEdgesOf W)). clear E.
  tauto.
Qed.

End SerializerFacts.

(** C8: the serializer's output is the one it produces from the entries of
    depth 0 alone; apart from the fixed lines, every piece written is the
    line of a depth-0 node, or the node line or the edge line of one of
    its references. A node of any other depth adds nothing. *)
Theorem C8_only_depth_zero_rendered (W : World) (g : Graph) :
  range_complete W →
  let roots := filter atDepthZero (range W (Nodes g)) in
  generateDOTPieces W g = generateDOTOn W roots roots roots
  ∧ generateDOT W g = String.concat "" (generateDOTOn W roots roots roots)
  ∧ ∀ piece, piece ∈ generateDOTPieces W g →
      piece ∈ fixedPieces
      ∨ ∃ id node, Nodes g !! id = Some node ∧ Depth node = 0
                   ∧ pieceOf id node piece.
Proof.
  intros Hr roots.
  assert (generateDOTPieces W g = generateDOTOn W roots roots roots) as E.
  { unfold generateDOTPieces. apply generateDOTOn_depth_zero. }
  split; [exact E|]. split; [unfold generateDOT; by rewrite E|].
  intros piece Hp. unfold generateDOTPieces in Hp.
  apply elem_of_generateDOTOn in Hp as [H|[H|[H|H]]]; [by left|right..];
    destruct H as (id & node & Hin & Hd & Hp); apply (range_elem W) in Hin; try done;
    exists id, node; (split; [done|]); (split; [done|]).
  - by left.
  - right. apply elem_of_writeReferencedOf in Hp as (c & refs & ref & Hc & Hin' & ->).
    apply (range_elem W) in Hc; [|done]. exists c, refs, ref. auto.
  - right. apply elem_of_writeEdgesOf in Hp as (c & refs & ref & Hc & Hin' & ->).
    apply (range_elem W) in Hc; [|done]. exists c, refs, ref. auto.
Qed.

Lemma tableWorld_range_complete dirs files existing joins :
  range_complete (Examples.tableWorld dirs files existing joins).
Proof. intros A m. reflexivity. Qed.

Lemma C8_only_depth_zero_rendered_witness :
  range_complete Examples.cycleWorld
  ∧ generateDOTPieces Examples.cycleWorld Examples.twoLevelGraph
    = generateDOTOn Examples.cycleWorld [("aws_a.a", Examples.nodeA)]
        [("aws_a.a", Examples.nodeA)] [("aws_a.a", Examples.nodeA)].
Proof.
  split; [apply tableWorld_range_complete|].
  destruct (C8_only_depth_zero_rendered Examples.cycleWorld Examples.twoLevelGraph
              (tableWorld_range_complete _ _ _ _)) as [E _].
  rewrite E. vm_compute. reflexivity.
Defined.

(** ** The traverser: what a call may change *)

Lemma succ_int_ge d : d < max_int → d + 1 ≤ succ_int d.
Proof.
  unfold succ_int, wrap_int, max_int. intros H.
  destruct (Z_lt_le_dec (d + 1) (- 2 ^ 63)) as [Hlt|Hge].
  - pose proof (Z.mod_pos_bound (d + 1 + 2 ^ 63) (2 ^ 64) ltac:(lia)). lia.
  - rewrite Z.mod_small by lia. lia.
Qed.

Lemma namespaced_key moduleID currentID :
  HasPrefix moduleID "module." = true →
  namespaced (moduleID +:+ "/" +:+ currentID) = true.
Proof.
  intros H. unfold namespaced, HasPrefix in *.
  apply prefix_app_inv in H as [t ->].
  apply andb_true_intro. split.
  - change (String.prefix "module." ("module." +:+ (t +:+ ("/" +:+ currentID))) = true).
    apply prefix_app.
  - rewrite (Contains_app ("module." +:+ t)). apply orb_true_intro. by right.
Qed.

Lemma module_key_not_local moduleID rest :
  HasPrefix moduleID "module." = true →
  HasPrefix (moduleID +:+ rest) "local." = false.
Proof.
  intros H. unfold HasPrefix in *. apply prefix_app_inv in H as [t ->].
  change (String.prefix "local." (String "m" ("odule." +:+ (t +:+ rest))) = false).
  simpl. by destruct (ascii_dec "l" "m").
Qed.

Lemma expandable_not_local id : expandable id = true → HasPrefix id "local." = false.
Proof.
  unfold expandable. intros [_ H]%andb_prop. by apply negb_true_iff in H.
Qed.

Section TraversalFacts.
Context (W : World).

(** [Changes F st new st']: from [st] to [st'] the history grew by [new],
    nothing was removed, every node that differs was stored, and the
    stores under keys that are not namespaced went to identifiers outside
    [F] that are processed by now and still hold a node of the stored
    depth. *)
Record Changes (F : gset string) (st : State) (new : list Event) (st' : State)
  : Prop := mkChanges {
  ch_maxDepth : MaxDepth (graph st') = MaxDepth (graph st);
  ch_processed : processedNodes st ⊆ processedNodes st';
  ch_history : history st' = history st ++ new;
  ch_mono : ∀ k, is_Some (Nodes (graph st) !! k) → is_Some (Nodes (graph st') !! k);
  ch_new : ∀ k n, Nodes (graph st') !! k = Some n →
    Nodes (graph st) !! k = Some n ∨ EvStore k (Depth n) ∈ new;
  ch_frozen : ∀ k, k ∈ F → namespaced k = false →
    Nodes (graph st') !! k = Nodes (graph st) !! k;
  ch_own : ∀ k d, EvStore k d ∈ new → namespaced k = false →
    (k ∉ F) ∧ k ∈ processedNodes st'
    ∧ ∃ n, Nodes (graph st') !! k = Some n ∧ Depth n = d;
  ch_dirs : ∀ p m d, EvModuleDirectory p m d ∈ new →
    ∃ bp path mnode, findModuleNode W bp m = Ok (path, mnode)
                     ∧ path ≠ "" ∧ p = resolvePath W bp path;
  ch_last : ∀ k,
    match lastStore k new with
    | Some d => ∃ n, Nodes (graph st') !! k = Some n ∧ Depth n = d
    | None => Nodes (graph st') !! k = Nodes (graph st) !! k
    end
}.

Lemma lastStore_app k h1 h2 :
  lastStore k (h1 ++ h2) =
  match lastStore k h2 with Some d => Some d | None => lastStore k h1 end.
Proof.
  induction h1 as [|e h1 IH]; simpl; [by destruct (lastStore k h2)|].
  rewrite IH. by destruct (lastStore k h2).
Qed.

Lemma Changes_refl F st : Changes F st [] st.
Proof.
  split; try done; try (intros; by left).
  - by rewrite app_nil_r.
  - intros k d H. by apply elem_of_nil in H.
  - intros p m d H. by apply elem_of_nil in H.
Qed.

Lemma Changes_weaken F F' st new st' :
  F' ⊆ F → Changes F st new st' → Changes F' st new st'.
Proof.
  intros Hsub [? ? ? ? ? Hf Ho ? ?]. split; try done.
  - intros k Hk. apply Hf. by apply Hsub.
  - intros k d Hk Hn. destruct (Ho k d Hk Hn) as (Hk' & ? & ?).
    split; [|done]. intros ?. apply Hk'. by apply Hsub.
Qed.

(** Two steps in a row, when the second keeps the depth of what the first
    stored. *)
Lemma Changes_trans F a n1 b n2 c :
  Changes F a n1 b → Changes F b n2 c →
  (∀ k d, EvStore k d ∈ n1 → namespaced k = false →
     ∀ n, Nodes (graph b) !! k = Some n →
       ∃ n', Nodes (graph c) !! k = Some n' ∧ Depth n' = Depth n) →
  Changes F a (n1 ++ n2) c.
Proof.
  intros [M1 P1 H1 Mo1 N1 F1 O1 D1 L1] [M2 P2 H2 Mo2 N2 F2 O2 D2 L2] Hst. split.
  - congruence.
  - by transitivity (processedNodes b).
  - by rewrite H2, H1, app_assoc.
  - intros k Hk. by apply Mo2, Mo1.
  - intros k n Hk. destruct (N2 k n Hk) as [Hb|He].
    + destruct (N1 k n Hb) as [?|?]; [by left|right]. apply elem_of_app. by left.
    + right. apply elem_of_app. by right.
  - intros k Hk Hn. by rewrite F2, F1.
  - intros k d [He|He]%elem_of_app Hn.
    + destruct (O1 k d He Hn) as (HF & Hp & n & Hb & Hd).
      split; [done|]. split; [by apply P2|].
      destruct (Hst k d He Hn n Hb) as (n' & Hc & Hd'). exists n'. split; [done|congruence].
    + destruct (O2 k d He Hn) as (HF & Hp & Hx). done.
  - intros p m d [He|He]%elem_of_app; eauto.
  - intros k. rewrite lastStore_app. specialize (L1 k). specialize (L2 k).
    destruct (lastStore k n2); [done|]. rewrite L2.
    by destruct (lastStore k n1).
Qed.

(** Two steps in a row, when the second freezes what is processed
    after the first. *)
Lemma Changes_seq F a n1 b n2 c :
  Changes F a n1 b → Changes (processedNodes b) b n2 c → F ⊆ processedNodes a →
  Changes F a (n1 ++ n2) c.
Proof.
  intros H1 H2 HF. eapply Changes_trans; [exact H1| |].
  - eapply Changes_weaken; [|exact H2].
    transitivity (processedNodes a); [done|]. apply (ch_processed _ _ _ _ H1).
  - intros k d He Hn n Hb.
    destruct (ch_own _ _ _ _ H1 k d He Hn) as (_ & Hp & _).
    exists n. split; [|done]. by rewrite (ch_frozen _ _ _ _ H2 k Hp Hn).
Qed.

(** The stores of a loop at [lo]: none under a [local.] key, none above
    depth [lo] (when [MaxDepth] is below the largest [int]). *)
Definition Deep (lo : Z) (st : State) (new : list Event) : Prop :=
  ∀ k d, EvStore k d ∈ new →
    HasPrefix k "local." = false ∧ (MaxDepth (graph st) < max_int → lo ≤ d).

Definition Loop (lo : Z) (st : State) (new : list Event) (st' : State) : Prop :=
  Changes (processedNodes st) st new st' ∧ Deep lo st new.

(** What a call of [traverseNode] on [id] at depth [d] may change. *)
Definition Call (id : string) (d : Z) (st : State) (new : list Event)
    (st' : State) : Prop :=
  Changes (processedNodes st) st new st'
  ∧ ∀ k d', EvStore k d' ∈ new →
      (k = id ∧ d' = d)
      ∨ (HasPrefix k "local." = false
         ∧ (MaxDepth (graph st) < max_int → d + 1 ≤ d')).

Definition CallSpec (rec : Traverse) : Prop :=
  ∀ basePath id d st st', rec basePath id d st = Ok st' → ∃ new, Call id d st new st'.

Lemma Loop_refl lo st : Loop lo st [] st.
Proof. split; [apply Changes_refl|]. intros k d H. by apply elem_of_nil in H. Qed.

Lemma Loop_trans lo a n1 b n2 c :
  Loop lo a n1 b → Loop lo b n2 c → Loop lo a (n1 ++ n2) c.
Proof.
  intros [H1 D1] [H2 D2]. split; [by eapply Changes_seq|].
  intros k d [He|He]%elem_of_app; [by apply D1|].
  destruct (D2 k d He) as [? Hd]. split; [done|].
  rewrite (ch_maxDepth _ _ _ _ H1) in Hd. done.
Qed.

Lemma Call_Loop lo id d st new st' :
  Call id d st new st' → HasPrefix id "local." = false → lo ≤ d →
  Loop lo st new st'.
Proof.
  intros [H Hd] Hl Hlo. split; [done|]. intros k d' He.
  destruct (Hd k d' He) as [[-> ->]|[? Hx]]; [done|].
  split; [done|]. intros Hm. specialize (Hx Hm). lia.
Qed.

Lemma forEach_Loop {A} lo (body : A → State → res State) l st st' :
  (∀ x s s', x ∈ l → body x s = Ok s' → ∃ new, Loop lo s new s') →
  forEach body l st = Ok st' → ∃ new, Loop lo st new st'.
Proof.
  revert st. induction l as [|x l IH]; simpl; intros st Hb H.
  { injection H as <-. exists []. apply Loop_refl. }
  destruct (body x st) as [s| |] eqn:E; simpl in H; try done.
  destruct (Hb x st s ltac:(by left) E) as (n1 & H1).
  destruct (IH s) as (n2 & H2); [|done|].
  { intros y s1 s2 Hy. apply Hb. by right. }
  exists (n1 ++ n2). by eapply Loop_trans.
Qed.

Lemma Changes_mark F st id : Changes F st [] (markProcessed id st).
Proof.
  split; simpl; try done; try (intros; by left).
  - apply union_subseteq_r.
  - by rewrite app_nil_r.
  - intros k d H. by apply elem_of_nil in H.
  - intros p m d H. by apply elem_of_nil in H.
Qed.

Lemma Changes_log F st p m d :
  (∃ bp path mnode, findModuleNode W bp m = Ok (path, mnode)
                    ∧ path ≠ "" ∧ p = resolvePath W bp path) →
  Changes F st [EvModuleDirectory p m d] (logModuleDirectory p m d st).
Proof.
  intros Hm. split; simpl; try done; try (intros; by left).
  - intros k d' H. apply list_elem_of_singleton in H. done.
  - intros p' m' d' H. apply list_elem_of_singleton in H. by simplify_eq.
Qed.

Lemma Changes_store F st k n :
  (namespaced k = false → (k ∉ F) ∧ k ∈ processedNodes st) →
  Changes F st [EvStore k (Depth n)] (store k n st).
Proof.
  intros Hk. split; simpl; try done.
  - intros k' [x Hx]. destruct (decide (k = k')) as [->|Hne].
    + rewrite lookup_insert_eq. eauto.
    + rewrite lookup_insert_ne by done. eauto.
  - intros k' n' H. destruct (decide (k = k')) as [->|Hne].
    + rewrite lookup_insert_eq in H. injection H as <-. right. by left.
    + rewrite lookup_insert_ne in H by done. by left.
  - intros k' HF Hn. destruct (decide (k = k')) as [->|Hne].
    + by destruct (Hk Hn).
    + by rewrite lookup_insert_ne.
  - intros k' d H Hn. apply list_elem_of_singleton in H. injection H as -> ->.
    destruct (Hk Hn). split; [done|]. split; [done|].
    exists n. by rewrite lookup_insert_eq.
  - intros p m d H. apply list_elem_of_singleton in H. done.
  - intros k'. destruct (String.eqb_spec k k') as [->|Hne].
    + exists n. by rewrite lookup_insert_eq.
    + by rewrite lookup_insert_ne.
Qed.

Section WithRec.
Context (rec : Traverse) (Hrec : CallSpec rec).

Lemma processModuleReference_Loop moduleID d moduleBasePath ref st st' :
  HasPrefix moduleID "module." = true →
  processModuleReference rec moduleID d moduleBasePath ref st = Ok st' →
  ∃ new, Loop (succ_int d) st new st'.
Proof.
  intros Hm. unfold processModuleReference.
  destruct (expandable (ref_ID ref)); [|intros [= <-]; eexists; apply Loop_refl].
  case_bool_decide as Hp; [intros [= <-]; eexists; apply Loop_refl|].
  intros H. destruct (Hrec _ _ _ _ _ H) as (new & Hc). exists new.
  eapply Call_Loop; [exact Hc| |lia]. by apply module_key_not_local.
Qed.

Lemma processModuleReference_list_Loop moduleID d moduleBasePath refs st st' :
  HasPrefix moduleID "module." = true →
  forEach (processModuleReference rec moduleID d moduleBasePath) refs st = Ok st' →
  ∃ new, Loop (succ_int d) st new st'.
Proof.
  intros Hm. apply forEach_Loop.
  intros ref s1 s2 _. by apply processModuleReference_Loop.
Qed.

Lemma processModuleReferences_Loop refs moduleID d moduleBasePath st st' :
  HasPrefix moduleID "module." = true →
  processModuleReferences W rec refs moduleID d moduleBasePath st = Ok st' →
  ∃ new, Loop (succ_int d) st new st'.
Proof.
  intros Hm. unfold processModuleReferences. apply forEach_Loop.
  intros entry s s' _. by apply processModuleReference_list_Loop.
Qed.

Lemma processModuleBlocks_Loop blocks file moduleID d moduleBasePath st st' :
  HasPrefix moduleID "module." = true →
  processModuleBlocks W rec blocks file moduleID d moduleBasePath st = Ok st' →
  ∃ new, Loop (succ_int d) st new st'.
Proof.
  intros Hm. unfold processModuleBlocks. apply forEach_Loop.
  intros block s s' _.
  destruct (getBlockID block) as [currentID| |]; simpl; try done.
  destruct (String.eqb currentID ""); [intros [= <-]; eexists; apply Loop_refl|].
  destruct (lastLabel block) as [name| |]; simpl; try done.
  intros H. apply processModuleReferences_Loop in H as (n2 & H2); [|done].
  eexists. eapply Loop_trans; [|exact H2]. split.
  - apply (Changes_store _ _ _ (mkNode _ _ _ _ _ _)).
    intros Hn. by rewrite namespaced_key in Hn.
  - intros k d' He. apply list_elem_of_singleton in He. injection He as -> ->.
    split; [by apply module_key_not_local|]. simpl. lia.
Qed.

Lemma traverseModuleDirectory_Loop moduleBasePath moduleID d st st' :
  HasPrefix moduleID "module." = true →
  (∃ bp path mnode, findModuleNode W bp moduleID = Ok (path, mnode)
                    ∧ path ≠ "" ∧ moduleBasePath = resolvePath W bp path) →
  traverseModuleDirectory W rec moduleBasePath moduleID d st = Ok st' →
  ∃ new, Loop (succ_int d) st (EvModuleDirectory moduleBasePath moduleID d :: new) st'.
Proof.
  intros Hm Hres. unfold traverseModuleDirectory. intros H.
  assert (∃ new, Loop (succ_int d) (logModuleDirectory moduleBasePath moduleID d st)
                      new st') as (new & Hl).
  { destruct (findTerraformFiles W moduleBasePath) as [|file files].
    { injection H as <-. eexists. apply Loop_refl. }
    revert H. apply forEach_Loop. intros f s s' _.
    destruct (ParseHCLFile W f) as [body|]; [|intros [= <-]; eexists; apply Loop_refl].
    destruct (Content moduleDirectorySchema body) as [blocks|];
      [|intros [= <-]; eexists; apply Loop_refl].
    by apply processModuleBlocks_Loop. }
  exists new. change (EvModuleDirectory moduleBasePath moduleID d :: new)
    with ([EvModuleDirectory moduleBasePath moduleID d] ++ new).
  eapply Loop_trans; [|exact Hl]. split; [by apply Changes_log|].
  intros k d' He. apply list_elem_of_singleton in He. done.
Qed.

Lemma traverseReference_Loop basePath d ref st st' :
  traverseReference rec basePath d ref st = Ok st' →
  ∃ new, Loop (succ_int d) st new st'.
Proof.
  unfold traverseReference.
  destruct (expandable (ref_ID ref)) eqn:E; [|intros [= <-]; eexists; apply Loop_refl].
  intros H. destruct (Hrec _ _ _ _ _ H) as (new & Hc). exists new.
  eapply Call_Loop; [exact Hc| |lia]. by apply expandable_not_local.
Qed.

Lemma traverseReference_list_Loop basePath d refs st st' :
  forEach (traverseReference rec basePath d) refs st = Ok st' →
  ∃ new, Loop (succ_int d) st new st'.
Proof. apply forEach_Loop. intros ref s1 s2 _. apply traverseReference_Loop. Qed.

Lemma traverseReferences_Loop basePath refs d st st' :
  traverseReferences W rec basePath refs d st = Ok st' →
  ∃ new, Loop (succ_int d) st new st'.
Proof.
  unfold traverseReferences. apply forEach_Loop.
  intros entry s s' _. apply traverseReference_list_Loop.
Qed.

End WithRec.

(** The stores of a call on [id] at depth [d], seen from inside the call:
    the call's own, or deeper ones that leave [id] alone. *)
Definition OwnOrDeeper (id : string) (d : Z) (st : State) (new : list Event) : Prop :=
  ∀ k d', EvStore k d' ∈ new →
    (k = id ∧ d' = d)
    ∨ (HasPrefix k "local." = false
       ∧ (MaxDepth (graph st) < max_int → succ_int d ≤ d')
       ∧ (namespaced k = false → k ≠ id)).

Lemma Loop_OwnOrDeeper id d st new st' :
  Loop (succ_int d) st new st' → id ∈ processedNodes st → OwnOrDeeper id d st new.
Proof.
  intros [Hc Hd] Hid k d' He. right. destruct (Hd k d' He) as [? ?].
  split; [done|]. split; [done|]. intros Hn ->.
  by destruct (ch_own _ _ _ _ Hc _ _ He Hn) as (? & _).
Qed.

Lemma OwnOrDeeper_app id d st n1 n2 :
  OwnOrDeeper id d st n1 → OwnOrDeeper id d st n2 → OwnOrDeeper id d st (n1 ++ n2).
Proof. intros H1 H2 k d' [He|He]%elem_of_app; eauto. Qed.

Lemma OwnOrDeeper_own id d st : OwnOrDeeper id d st [EvStore id d].
Proof. intros k d' He. apply list_elem_of_singleton in He. injection He as -> ->. by left. Qed.

Lemma OwnOrDeeper_nil id d st : OwnOrDeeper id d st [].
Proof. intros k d' He. by apply elem_of_nil in He. Qed.

Lemma moduleID_prefix moduleName : HasPrefix ("module." +:+ moduleName) "module." = true.
Proof. apply prefix_app. Qed.

Section CallBody.
Context (rec : Traverse) (Hrec : CallSpec rec).

Lemma traverseModule_Changes F basePath id d s1 s2 :
  id ∉ F → F ⊆ processedNodes s1 → id ∈ processedNodes s1 →
  traverseModule W rec basePath id d s1 = Ok s2 →
  ∃ new, Changes F s1 new s2 ∧ OwnOrDeeper id d s1 new.
Proof.
  intros HF Hsub Hid. unfold traverseModule.
  destruct (moduleNameOf id) as [moduleName| |]; simpl; try done.
  destruct (findModuleNode W basePath ("module." +:+ moduleName))
    as [[modulePath moduleNode]| |] eqn:Efind; simpl; try done.
  destruct (String.eqb_spec modulePath "") as [->|Hne].
  { intros [= <-]. exists []. split; [apply Changes_refl|apply OwnOrDeeper_nil]. }
  intros H. apply traverseModuleDirectory_Loop in H as (new & Hl);
    [|done|apply moduleID_prefix|by eauto 6].
  eexists ([EvStore id d] ++ _). split.
  - eapply Changes_seq; [|apply Hl|done].
    apply (Changes_store F s1 id (setDepth moduleNode d)). done.
  - apply OwnOrDeeper_app; [apply OwnOrDeeper_own|].
    by apply (Loop_OwnOrDeeper id d) in Hl.
Qed.

Lemma traverseResource_Changes F basePath id d s2 s' :
  id ∉ F → F ⊆ processedNodes s2 → id ∈ processedNodes s2 →
  traverseResource W rec basePath id d s2 = Ok s' →
  ∃ new, Changes F s2 new s' ∧ OwnOrDeeper id d s2 new
    ∧ ∀ k n, k ∈ processedNodes s2 → namespaced k = false →
        Nodes (graph s2) !! k = Some n → (k = id → Depth n = d) →
        ∃ n', Nodes (graph s') !! k = Some n' ∧ Depth n' = Depth n.
Proof.
  intros HF Hsub Hid. unfold traverseResource.
  destruct (findResourceNode W basePath id) as [[node|]| |]; simpl; try done.
  2:{ intros [= <-]. exists []. split; [apply Changes_refl|].
      split; [apply OwnOrDeeper_nil|]. eauto. }
  intros H. apply traverseReferences_Loop in H as (new & Hl); [|done].
  eexists ([EvStore id d] ++ _). split; [|split].
  - eapply Changes_seq; [|apply Hl|done].
    apply (Changes_store F s2 id (setDepth node d)). done.
  - apply OwnOrDeeper_app; [apply OwnOrDeeper_own|].
    by apply (Loop_OwnOrDeeper id d) in Hl.
  - intros k n Hk Hn Hlook Hd. destruct Hl as [Hc _].
    rewrite (ch_frozen _ _ _ _ Hc k Hk Hn). simpl.
    destruct (decide (id = k)) as [->|Hne].
    + rewrite lookup_insert_eq. eexists. split; [done|]. simpl. by rewrite Hd.
    + rewrite lookup_insert_ne by done. eauto.
Qed.

End CallBody.

(** Every call of [traverseNode] that returns changed the state as [Call]
    describes. *)
Lemma traverseNode_Call fuel : CallSpec (traverseNode W fuel).
Proof.
  induction fuel as [|fuel IH]; intros basePath id d st st'; simpl.
  - destruct (_ || _); [|done]. intros [= <-]. exists []. split; [apply Changes_refl|].
    intros k d' He. by apply elem_of_nil in He.
  - destruct (bool_decide (d > MaxDepth (graph st))) eqn:Eg; simpl.
    { intros [= <-]. exists []. split; [apply Changes_refl|].
      intros k d' He. by apply elem_of_nil in He. }
    destruct (bool_decide (id ∈ processedNodes st)) eqn:Ep; simpl.
    { intros [= <-]. exists []. split; [apply Changes_refl|].
      intros k d' He. by apply elem_of_nil in He. }
    apply bool_decide_eq_false in Eg, Ep.
    set (s1 := markProcessed id st).
    assert (id ∈ processedNodes s1) as Hid1 by (apply elem_of_union; left; by apply elem_of_singleton).
    assert (processedNodes st ⊆ processedNodes s1) as Hsub1 by apply union_subseteq_r.
    destruct (if HasPrefix id "module."
              then traverseModule W (traverseNode W fuel) basePath id d s1
              else Ok s1) as [s2| |] eqn:Em; simpl; try done.
    assert (∃ nM, Changes (processedNodes st) s1 nM s2 ∧ OwnOrDeeper id d s1 nM)
      as (nM & HM & HoM).
    { destruct (HasPrefix id "module.").
      - by eapply traverseModule_Changes.
      - injection Em as <-. exists []. split; [apply Changes_refl|apply OwnOrDeeper_nil]. }
    intros H.
    apply (traverseResource_Changes _ IH (processedNodes st)) in H
      as (nR & HR & HoR & Hst); [|done| |].
    2:{ transitivity (processedNodes s1); [done|apply (ch_processed _ _ _ _ HM)]. }
    2:{ by apply (ch_processed _ _ _ _ HM). }
    exists (nM ++ nR). split.
    + rewrite <- (app_nil_l (nM ++ nR)).
      eapply Changes_trans; [apply (Changes_mark _ st id)| |].
      * eapply Changes_trans; [exact HM|exact HR|].
        intros k d' He Hn n Hlook.
        destruct (ch_own _ _ _ _ HM k d' He Hn) as (_ & Hp & n0 & Hn0 & Hd0).
        apply Hst; try done. intros ->.
        destruct (HoM _ _ He) as [[_ ->]|(_ & _ & Hx)]; [congruence|by destruct (Hx Hn)].
      * intros k d' He. by apply elem_of_nil in He.
    + assert (MaxDepth (graph s2) = MaxDepth (graph st)) as HM2
        by apply (ch_maxDepth _ _ _ _ HM).
      intros k d' [He|He]%elem_of_app.
      * destruct (HoM _ _ He) as [?|(? & Hx & _)]; [by left|right].
        split; [done|]. intros Hmax. specialize (Hx Hmax).
        pose proof (succ_int_ge d). lia.
      * destruct (HoR _ _ He) as [?|(? & Hx & _)]; [by left|right].
        split; [done|]. intros Hmax. rewrite HM2 in Hx. specialize (Hx Hmax).
        pose proof (succ_int_ge d). lia.
Qed.

(** *** Enough fuel *)

(** The functions without recursion on the traversal never ask for fuel. *)

Lemma label_fuel block i : label block i ≠ OutOfFuel.
Proof. unfold label. by destruct (_ !! _). Qed.

Lemma lastLabel_fuel block : lastLabel block ≠ OutOfFuel.
Proof. unfold lastLabel. by destruct (blk_Labels block). Qed.

Lemma getBlockID_fuel block : getBlockID block ≠ OutOfFuel.
Proof.
  unfold getBlockID.
  pose proof (label_fuel block 0). pose proof (label_fuel block 1).
  repeat (destruct (String.eqb _ _); [by repeat (destruct (label _ _); simpl)|]).
  done.
Qed.

Lemma findNodeInBlocks_fuel blocks nodeID file :
  findNodeInBlocks W blocks nodeID file ≠ OutOfFuel.
Proof.
  induction blocks as [|block blocks IH]; simpl; [done|].
  pose proof (getBlockID_fuel block). pose proof (lastLabel_fuel block).
  destruct (getBlockID block); simpl; try done.
  destruct (String.eqb _ _); [|done]. by destruct (lastLabel block).
Qed.

Lemma findResourceNode_fuel basePath nodeID :
  findResourceNode W basePath nodeID ≠ OutOfFuel.
Proof.
  unfold findResourceNode.
  induction (findTerraformFiles W basePath) as [|file files IH]; simpl; [done|].
  destruct (ParseHCLFile W file) as [body|]; [|done].
  destruct (Content resourceSchema body) as [blocks|]; [|done].
  pose proof (findNodeInBlocks_fuel blocks nodeID file).
  destruct (findNodeInBlocks W blocks nodeID file) as [[node|]| |]; simpl; done.
Qed.

Lemma findModuleInBlocks_fuel blocks basePath moduleID moduleName file :
  findModuleInBlocks W blocks basePath moduleID moduleName file ≠ OutOfFuel.
Proof.
  induction blocks as [|block blocks IH]; simpl; [done|].
  destruct (String.eqb (blk_Type block) "module"); [|done].
  pose proof (label_fuel block 0). destruct (label block 0) as [l0| |]; simpl; try done.
  destruct (String.eqb l0 moduleName); [|done].
  destruct (blk_Attributes block !! "source") as [sourceAttr|]; [|done].
  destruct (attr_Value sourceAttr) as [sourceVal|]; [|done].
  destruct sourceVal; simpl; try done.
  destruct (HasPrefix s "."); [|done]. by destruct (Stat W _).
Qed.

Lemma findModuleNode_fuel basePath moduleID :
  findModuleNode W basePath moduleID ≠ OutOfFuel.
Proof.
  unfold findModuleNode. generalize (match SplitN2 (TrimPrefix moduleID "module.") dot with
                                     | [] => TrimPrefix moduleID "module."
                                     | part0 :: _ => part0
                                     end). intros moduleName.
  induction (findTerraformFiles W basePath) as [|file files IH]; simpl; [done|].
  destruct (ParseHCLFile W file) as [body|]; [|done].
  destruct (Content moduleSchema body) as [blocks|]; [|done].
  pose proof (findModuleInBlocks_fuel blocks basePath moduleID moduleName file).
  destruct (findModuleInBlocks W blocks basePath moduleID moduleName file)
    as [[found|]| |]; simpl; done.
Qed.

Lemma moduleNameOf_fuel nodeID : moduleNameOf nodeID ≠ OutOfFuel.
Proof.
  unfold moduleNameOf. destruct (_ !! _) as [m|]; [|done].
  by destruct (SplitN2 m dot) as [|? [|? ?]].
Qed.

Lemma forEach_one {A} (body : A → State → res State) x st :
  forEach body [x] st = body x st.
Proof. simpl. by destruct (body x st). Qed.

Lemma forEach_fuel {A} (Inv : State → Prop) (body : A → State → res State) l st :
  Inv st →
  (∀ x s, Inv s → body x s ≠ OutOfFuel) →
  (∀ x s s', Inv s → body x s = Ok s' → Inv s') →
  forEach body l st ≠ OutOfFuel.
Proof.
  intros Hi Hb Hp. revert st Hi. induction l as [|x l IH]; simpl; intros st Hi; [done|].
  destruct (body x st) as [s| |] eqn:E; simpl; [|done|by destruct (Hb x st Hi)].
  apply IH. by eapply Hp.
Qed.

Lemma Loop_maxDepth lo st new st' M :
  Loop lo st new st' → MaxDepth (graph st) = M → MaxDepth (graph st') = M.
Proof. intros [Hc _] <-. apply (ch_maxDepth _ _ _ _ Hc). Qed.

Section Fuel.
Context (rec : Traverse) (Hrec : CallSpec rec) (M d : Z).
Context (Hfuel : ∀ basePath id st,
  MaxDepth (graph st) = M → rec basePath id (succ_int d) st ≠ OutOfFuel).

Abbreviation AtMax := (λ s : State, MaxDepth (graph s) = M).

Lemma processModuleReferences_fuel refs moduleID moduleBasePath st :
  HasPrefix moduleID "module." = true → MaxDepth (graph st) = M →
  processModuleReferences W rec refs moduleID d moduleBasePath st ≠ OutOfFuel.
Proof.
  intros Hm HM. unfold processModuleReferences.
  apply (forEach_fuel AtMax); [done| |].
  - intros entry s Hs. apply (forEach_fuel AtMax); [done| |].
    + intros ref s1 Hs1. unfold processModuleReference.
      destruct (expandable _); [|done]. case_bool_decide; [done|]. by apply Hfuel.
    + intros ref s1 s2 Hs1 H.
      apply processModuleReference_Loop in H as (new & Hl); [|done..].
      by eapply Loop_maxDepth.
  - intros entry s s' Hs H.
    apply processModuleReference_list_Loop in H as (new & Hl); [|done..].
    by eapply Loop_maxDepth.
Qed.

Lemma processModuleBlocks_fuel blocks file moduleID moduleBasePath st :
  HasPrefix moduleID "module." = true → MaxDepth (graph st) = M →
  processModuleBlocks W rec blocks file moduleID d moduleBasePath st ≠ OutOfFuel.
Proof.
  intros Hm HM. unfold processModuleBlocks.
  apply (forEach_fuel AtMax); [done| |].
  - intros block s Hs.
    pose proof (getBlockID_fuel block). pose proof (lastLabel_fuel block).
    destruct (getBlockID block) as [currentID| |]; simpl; try done.
    destruct (String.eqb currentID ""); [done|].
    destruct (lastLabel block) as [name| |]; simpl; try done.
    apply processModuleReferences_fuel; [done|]. by simpl.
  - intros block s s' Hs H.
    assert (processModuleBlocks W rec [block] file moduleID d moduleBasePath s = Ok s')
      as Hb by (unfold processModuleBlocks; rewrite forEach_one; exact H).
    apply processModuleBlocks_Loop in Hb as (new & Hl); [|done..].
    by eapply Loop_maxDepth.
Qed.

Lemma traverseModuleDirectory_fuel moduleBasePath moduleID st :
  HasPrefix moduleID "module." = true → MaxDepth (graph st) = M →
  traverseModuleDirectory W rec moduleBasePath moduleID d st ≠ OutOfFuel.
Proof.
  intros Hm HM. unfold traverseModuleDirectory.
  destruct (findTerraformFiles W moduleBasePath) as [|file files]; [done|].
  apply (forEach_fuel AtMax); [done| |].
  - intros f s Hs. destruct (ParseHCLFile W f) as [body|]; [|done].
    destruct (Content moduleDirectorySchema body) as [blocks|]; [|done].
    by apply processModuleBlocks_fuel.
  - intros f s s' Hs. destruct (ParseHCLFile W f) as [body|]; [|by intros [= <-]].
    destruct (Content moduleDirectorySchema body) as [blocks|]; [|by intros [= <-]].
    intros H. apply processModuleBlocks_Loop in H as (new & Hl); [|done..].
    by eapply Loop_maxDepth.
Qed.

Lemma traverseReferences_fuel basePath refs st :
  MaxDepth (graph st) = M →
  traverseReferences W rec basePath refs d st ≠ OutOfFuel.
Proof.
  intros HM. unfold traverseReferences.
  apply (forEach_fuel AtMax); [done| |].
  - intros entry s Hs. apply (forEach_fuel AtMax); [done| |].
    + intros ref s1 Hs1. unfold traverseReference.
      destruct (expandable _); [|done]. by apply Hfuel.
    + intros ref s1 s2 Hs1 H.
      apply traverseReference_Loop in H as (new & Hl); [|done].
      by eapply Loop_maxDepth.
  - intros entry s s' Hs H.
    apply traverseReference_list_Loop in H as (new & Hl); [|done].
    by eapply Loop_maxDepth.
Qed.

End Fuel.

(** With fuel beyond [MaxDepth - depth], [traverseNode] never stops for
    want of fuel: it returns or panics. *)
Lemma traverseNode_fuel fuel basePath id d st :
  MaxDepth (graph st) < max_int →
  MaxDepth (graph st) - d < Z.of_nat fuel →
  traverseNode W fuel basePath id d st ≠ OutOfFuel.
Proof.
  revert basePath id d st. induction fuel as [|fuel IH]; intros basePath id d st Hmax Hf.
  - simpl. rewrite bool_decide_eq_true_2 by lia. done.
  - simpl. destruct (bool_decide (d > MaxDepth (graph st))) eqn:Eg; simpl; [done|].
    destruct (bool_decide (id ∈ processedNodes st)); simpl; [done|].
    apply bool_decide_eq_false in Eg.
    assert (∀ bp i s, MaxDepth (graph s) = MaxDepth (graph st) →
              traverseNode W fuel bp i (succ_int d) s ≠ OutOfFuel) as Hrec.
    { intros bp i s Hs. apply IH; rewrite Hs; [done|].
      pose proof (succ_int_ge d). lia. }
    set (s1 := markProcessed id st).
    destruct (if HasPrefix id "module."
              then traverseModule W (traverseNode W fuel) basePath id d s1
              else Ok s1) as [s2| |] eqn:Em; simpl; [|done|].
    + assert (MaxDepth (graph s2) = MaxDepth (graph st)) as H2.
      { destruct (HasPrefix id "module."); [|by injection Em as <-].
        apply (traverseModule_Changes _ (traverseNode_Call fuel) ∅) in Em
          as (new & Hc & _); [|set_solver..].
        apply (ch_maxDepth _ _ _ _ Hc). }
      unfold traverseResource. pose proof (findResourceNode_fuel basePath id).
      destruct (findResourceNode W basePath id) as [[node|]| |]; simpl; try done.
      apply (traverseReferences_fuel _ (traverseNode_Call fuel) (MaxDepth (graph st)));
        [done|]. done.
    + destruct (HasPrefix id "module."); [|done]. revert Em. unfold traverseModule.
      pose proof (moduleNameOf_fuel id).
      destruct (moduleNameOf id) as [moduleName| |]; simpl; try done.
      pose proof (findModuleNode_fuel basePath ("module." +:+ moduleName)).
      destruct (findModuleNode W basePath _) as [[modulePath moduleNode]| |];
        simpl; try done.
      destruct (String.eqb modulePath ""); [done|]. intros Em. exfalso. revert Em.
      apply (traverseModuleDirectory_fuel _ (traverseNode_Call fuel)
               (MaxDepth (graph st))); [done|apply moduleID_prefix|done].
Qed.

(** [buildDependencyGraph] returns or panics. *)
Lemma buildDependencyGraph_fuel g basePath targetID :
  MaxDepth g < max_int → buildDependencyGraph W g basePath targetID ≠ OutOfFuel.
Proof.
  intros Hmax. unfold buildDependencyGraph, fuelFor. apply traverseNode_fuel; simpl; lia.
Qed.

End TraversalFacts.


(** ** One call of [traverseNode], and loops that are tracked *)

Section CallSteps.
Context (W : World).

Lemma traverseNode_skip fuel basePath id d st :
  d > MaxDepth (graph st) ∨ id ∈ processedNodes st →
  traverseNode W fuel basePath id d st = Ok st.
Proof.
  intros H.
  assert (bool_decide (d > MaxDepth (graph st))
          || bool_decide (id ∈ processedNodes st) = true) as E.
  { destruct H; [rewrite bool_decide_eq_true_2 by done; done|].
    rewrite (bool_decide_eq_true_2 (id ∈ _)) by done. apply orb_true_r. }
  destruct fuel; simpl; by rewrite E.
Qed.

Lemma traverseNode_step fuel basePath id d st :
  d ≤ MaxDepth (graph st) → id ∉ processedNodes st →
  traverseNode W (S fuel) basePath id d st =
  (st1 ← (if HasPrefix id "module."
          then traverseModule W (traverseNode W fuel) basePath id d
                 (markProcessed id st)
          else Ok (markProcessed id st));
   traverseResource W (traverseNode W fuel) basePath id d st1).
Proof.
  intros Hd Hp. simpl.
  rewrite bool_decide_eq_false_2 by lia. by rewrite bool_decide_eq_false_2.
Qed.


End CallSteps.

(** ** First discovery *)

Lemma firstStore_elem k h d : firstStore k h = Some d → EvStore k d ∈ h.
Proof.
  induction h as [|[k' d'|] h IH]; simpl; [done| |].
  - destruct (String.eqb_spec k' k) as [->|Hne].
    + intros [= ->]. by left.
    + intros H. right. by apply IH.
  - intros H. right. by apply IH.
Qed.

Lemma firstStore_is_Some k h d : EvStore k d ∈ h → is_Some (firstStore k h).
Proof.
  induction h as [|[k' d'|] h IH]; simpl.
  - by intros ?%elem_of_nil.
  - destruct (String.eqb_spec k' k) as [->|Hne]; [eauto|].
    intros [[= ]|H]%elem_of_cons; [congruence|by apply IH].
  - intros [[= ]|H]%elem_of_cons. by apply IH.
Qed.

(** A run of [buildDependencyGraph] that returns changed the fresh state as
    a call of [traverseNode] does; its history lists the changes. *)
Lemma buildDependencyGraph_Call W g basePath targetID st' :
  buildDependencyGraph W g basePath targetID = Ok st' →
  Call W targetID 0 (mkState g ∅ []) (history st') st'.
Proof.
  intros H. apply traverseNode_Call in H as (new & Hc).
  pose proof (ch_history _ _ _ _ _ (proj1 Hc)) as Hh. simpl in Hh. by rewrite Hh.
Qed.

(** C2 is false as stated: in the module configuration the declaration
    [module.net/aws_subnet.s] is first registered at depth 2, when
    [module.net.id] is expanded, and registered again at depth 3 when the
    same module is expanded for [module.net.arn]; the graph ends with
    depth 3. *)
Lemma C2_first_discovery_counterexample :
  ∃ st n,
    buildDependencyGraph Examples.moduleWorld (mkGraph ∅ 3) "/p" "aws_a.a" = Ok st
    ∧ Nodes (graph st) !! "module.net/aws_subnet.s" = Some n
    ∧ firstStore "module.net/aws_subnet.s" (history st) = Some 2
    ∧ Depth n = 3.
Proof.
  destruct (buildDependencyGraph Examples.moduleWorld (mkGraph ∅ 3) "/p" "aws_a.a")
    as [st| |] eqn:E; [|vm_compute in E; discriminate E..].
  exists st. vm_compute in E. injection E as <-.
  eexists. split; [reflexivity|]. split; [vm_compute; reflexivity|].
  split; vm_compute; reflexivity.
Qed.

(** C2 (amended): after a run on a fresh graph, the depth of every stored
    node is the depth of the last store under its key; for every key that
    is not namespaced by a module all stores have one depth, so the stored
    depth is that of the first discovery; and a call of [traverseNode] on
    an identifier that is already processed changes nothing. *)
Theorem C2_depth_of_first_discovery (W : World) (g : Graph)
    (basePath targetID : string) (st' : State) :
  Nodes g = ∅ →
  buildDependencyGraph W g basePath targetID = Ok st' →
  (∀ k n, Nodes (graph st') !! k = Some n →
     lastStore k (history st') = Some (Depth n)
     ∧ (namespaced k = false → firstStore k (history st') = Some (Depth n)))
  ∧ (∀ fuel basePath' id d st,
       id ∈ processedNodes st → traverseNode W fuel basePath' id d st = Ok st).
Proof.
  intros Hg H. apply buildDependencyGraph_Call in H as [Hc _].
  split; [|intros; apply traverseNode_skip; by right].
  intros k n Hn. split.
  - pose proof (ch_last _ _ _ _ _ Hc k) as Hl.
    destruct (lastStore k (history st')) as [d|].
    + destruct Hl as (n' & Hn' & <-). congruence.
    + simpl in Hl. rewrite Hg, lookup_empty in Hl. congruence.
  - intros Hns. destruct (ch_new _ _ _ _ _ Hc k n Hn) as [Hold|He].
    { simpl in Hold. by rewrite Hg, lookup_empty in Hold. }
    destruct (firstStore_is_Some _ _ _ He) as [d0 Hd0]. rewrite Hd0.
    apply firstStore_elem in Hd0.
    destruct (ch_own _ _ _ _ _ Hc k d0 Hd0 Hns) as (_ & _ & n' & Hn' & <-). congruence.
Qed.

Lemma C2_depth_of_first_discovery_witness :
  ∃ st n,
    buildDependencyGraph Examples.moduleWorld (mkGraph ∅ 3) "/p" "aws_a.a" = Ok st
    ∧ Nodes (graph st) !! "aws_b.b" = Some n
    ∧ firstStore "aws_b.b" (history st) = Some (Depth n).
Proof.
  destruct (buildDependencyGraph Examples.moduleWorld (mkGraph ∅ 3) "/p" "aws_a.a")
    as [st| |] eqn:E; [|vm_compute in E; discriminate E..].
  pose proof (C2_depth_of_first_discovery Examples.moduleWorld (mkGraph ∅ 3) "/p"
                "aws_a.a" st eq_refl E) as [Hd _].
  exists st. vm_compute in E. injection E as <-.
  eexists. split; [reflexivity|].
  assert (∀ A (x : A) (P : A → Prop), (∀ y, Some x = Some y → P y) → P x) as Hsome
    by (intros A x P H; by apply H).
  split; [vm_compute; reflexivity|].
  apply (Hd "aws_b.b"); [vm_compute; reflexivity|reflexivity].
Defined.

(** ** Depth zero *)

Lemma traverseNode_found_stores W fuel basePath id d st st' node :
  d ≤ MaxDepth (graph st) → id ∉ processedNodes st →
  findResourceNode W basePath id = Ok (Some node) →
  traverseNode W (S fuel) basePath id d st = Ok st' →
  ∃ before after, history st' = before ++ EvStore id d :: after.
Proof.
  intros Hd Hp Hfind. rewrite traverseNode_step by done.
  destruct (if HasPrefix id "module." then _ else _) as [s2| |]; simpl; try done.
  unfold traverseResource. rewrite Hfind. simpl. intros H.
  apply (traverseReferences_Loop W _ (traverseNode_Call W fuel)) in H as (new & Hc & _).
  rewrite (ch_history _ _ _ _ _ Hc). simpl. rewrite <- app_assoc. eauto.
Qed.

(** C3 is false as stated: for the target [module.net.id] the locator
    finds no declaration, yet the module resolver does, and the run leaves
    the module node and the module's declaration in the graph. *)
Lemma C3_not_found_counterexample :
  findResourceNode Examples.moduleWorld "/p" "module.net.id" = Ok None
  ∧ ∃ st, buildDependencyGraph Examples.moduleWorld (mkGraph ∅ 3) "/p" "module.net.id"
          = Ok st
          ∧ Nodes (graph st) ≠ ∅
          ∧ is_Some (Nodes (graph st) !! "module.net/aws_subnet.s").
Proof.
  split; [vm_compute; reflexivity|].
  destruct (buildDependencyGraph Examples.moduleWorld (mkGraph ∅ 3) "/p" "module.net.id")
    as [st| |] eqn:E; [|vm_compute in E; discriminate E..].
  exists st. split; [reflexivity|].
  assert (is_Some (Nodes (graph st) !! "module.net/aws_subnet.s")) as Hs.
  { vm_compute in E. injection E as <-. vm_compute. eexists. reflexivity. }
  split; [|exact Hs]. intros He. rewrite He, lookup_empty in Hs. by destruct Hs.
Qed.

(** C3 (amended): after a run from depth 0 on a fresh graph, with
    [MaxDepth] between 0 and the largest [int]: if the locator finds the
    target, and the target is not a module-namespaced key, the target's
    node has depth 0 and no other node has; if the locator does not find
    the target and the target's module lookup (made when the target starts
    with [module.]) does not resolve, the node map is empty. *)
Theorem C3_depth_zero_exclusive (W : World) (g : Graph)
    (basePath targetID : string) (st' : State) :
  Nodes g = ∅ →
  0 ≤ MaxDepth g < max_int →
  buildDependencyGraph W g basePath targetID = Ok st' →
  (∀ node, findResourceNode W basePath targetID = Ok (Some node) →
     namespaced targetID = false →
     (∃ n, Nodes (graph st') !! targetID = Some n ∧ Depth n = 0)
     ∧ ∀ k n, Nodes (graph st') !! k = Some n → Depth n = 0 → k = targetID)
  ∧ (findResourceNode W basePath targetID = Ok None →
     (HasPrefix targetID "module." = false
      ∨ ∃ moduleName node, moduleNameOf targetID = Ok moduleName
          ∧ findModuleNode W basePath ("module." +:+ moduleName) = Ok ("", node)) →
     Nodes (graph st') = ∅).
Proof.
  intros Hg HM H. split.
  - intros node Hfind Hns.
    pose proof (buildDependencyGraph_Call _ _ _ _ _ H) as [Hc Hd].
    assert (EvStore targetID 0 ∈ history st') as He.
    { unfold buildDependencyGraph, fuelFor in H.
      apply (traverseNode_found_stores _ _ _ _ _ _ _ node) in H
        as (before & after & ->); [|simpl; lia|apply not_elem_of_empty|done].
      apply elem_of_app. right. by left. }
    split.
    + by destruct (ch_own _ _ _ _ _ Hc _ _ He Hns) as (_ & _ & Hn).
    + intros k n Hn Hz. destruct (ch_new _ _ _ _ _ Hc k n Hn) as [Hold|Hs].
      { simpl in Hold. by rewrite Hg, lookup_empty in Hold. }
      destruct (Hd _ _ Hs) as [[-> _]|[_ Hx]]; [done|].
      simpl in Hx. lia.
  - intros Hfind Hmod. revert H. unfold buildDependencyGraph, fuelFor.
    rewrite traverseNode_step; [|simpl; lia|apply not_elem_of_empty].
    assert ((if HasPrefix targetID "module."
             then traverseModule W
                    (traverseNode W (Z.to_nat (MaxDepth g - 0))) basePath targetID 0
                    (markProcessed targetID (mkState g ∅ []))
             else Ok (markProcessed targetID (mkState g ∅ [])))
            = Ok (markProcessed targetID (mkState g ∅ []))) as ->.
    { destruct (HasPrefix targetID "module."); [|done].
      destruct Hmod as [?|(moduleName & node & Hname & Hmodule)]; [done|].
      unfold traverseModule. rewrite Hname. simpl. by rewrite Hmodule. }
    simpl. unfold traverseResource. rewrite Hfind. simpl. by intros [= <-].
Qed.

Lemma C3_depth_zero_exclusive_witness :
  ∃ st, buildDependencyGraph Examples.cycleWorld (mkGraph ∅ 2) "/p" "aws_a.a" = Ok st
        ∧ (∃ n, Nodes (graph st) !! "aws_a.a" = Some n ∧ Depth n = 0)
        ∧ ∀ k n, Nodes (graph st) !! k = Some n → Depth n = 0 → k = "aws_a.a".
Proof.
  assert (0 ≤ MaxDepth (mkGraph ∅ 2) < max_int) as HM by (by vm_compute).
  assert (findResourceNode Examples.cycleWorld "/p" "aws_a.a"
          = Ok (Some Examples.cycleNodeA)) as HA by (vm_compute; reflexivity).
  destruct (buildDependencyGraph Examples.cycleWorld (mkGraph ∅ 2) "/p" "aws_a.a")
    as [st| |] eqn:E; [|vm_compute in E; discriminate E..].
  exists st. split; [reflexivity|].
  pose proof (C3_depth_zero_exclusive Examples.cycleWorld (mkGraph ∅ 2) "/p" "aws_a.a"
                st eq_refl HM E) as [Hfound _].
  exact (Hfound Examples.cycleNodeA HA eq_refl).
Defined.

(** ** The depth bound *)

(** What the locator returns is the declaration's own data: its
    identifier, its file and the references the extractor reads off it. *)
Lemma findNodeInBlocks_found W blocks nodeID file node :
  findNodeInBlocks W blocks nodeID file = Ok (Some node) →
  ∃ block, block ∈ blocks ∧ getBlockID block = Ok nodeID
           ∧ ID node = nodeID ∧ Path node = file ∧ Depth node = 0
           ∧ References node = extractReferences W block file.
Proof.
  induction blocks as [|block blocks IH]; simpl; [done|].
  destruct (getBlockID block) as [currentID| |] eqn:Eid; simpl; try done.
  destruct (String.eqb_spec currentID nodeID) as [->|Hne].
  - destruct (lastLabel block) as [name| |]; simpl; try done.
    intros [= <-]. exists block. split; [by left|]. done.
  - intros H. destruct (IH H) as (b & Hb & ?). exists b. split; [by right|done].
Qed.

Lemma findResourceNode_found W basePath nodeID node :
  findResourceNode W basePath nodeID = Ok (Some node) →
  ∃ block file, file ∈ findTerraformFiles W basePath
    ∧ getBlockID block = Ok nodeID
    ∧ ID node = nodeID ∧ Path node = file ∧ Depth node = 0
    ∧ References node = extractReferences W block file.
Proof.
  unfold findResourceNode.
  induction (findTerraformFiles W basePath) as [|file files IH]; simpl; [done|].
  assert (findResourceNodeIn W files nodeID = Ok (Some node) →
          ∃ block file0, file0 ∈ file :: files ∧ getBlockID block = Ok nodeID
            ∧ ID node = nodeID ∧ Path node = file0 ∧ Depth node = 0
            ∧ References node = extractReferences W block file0) as Hrest.
  { intros H. destruct (IH H) as (b & f & Hf & ?). exists b, f. split; [by right|done]. }
  destruct (ParseHCLFile W file) as [body|]; [|done].
  destruct (Content resourceSchema body) as [blocks|]; [|done].
  destruct (findNodeInBlocks W blocks nodeID file) as [[n|]| |] eqn:E; simpl; try done.
  intros [= <-]. apply findNodeInBlocks_found in E as (b & Hb & ?).
  exists b, file. split; [by left|done].
Qed.





(** ** Modules whose source is not a relative path *)


Lemma substring_all s : String.substring 0 (String.length s) s = s.
Proof. induction s as [|c s IH]; simpl; [done|]. by rewrite IH. Qed.

Lemma TrimPrefix_module name : TrimPrefix ("module." +:+ name) "module." = name.
Proof.
  unfold TrimPrefix. rewrite prefix_app. simpl.
  change ("" +:+ name) with name. rewrite Nat.sub_0_r. apply substring_all.
Qed.

Lemma Content_inSchema schema body blocks block :
  Content schema body = Some blocks → block ∈ blocks → inSchema schema block = true.
Proof.
  unfold Content. destruct (body_Attributes body); [|done].
  destruct (forallb (inSchema schema) (body_Blocks body)) eqn:E; [|done].
  intros [= <-] Hin. rewrite forallb_forall in E. by apply E, list_elem_of_In.
Qed.







(** ** Module nodes under suffixed identifiers *)

Lemma findModuleInBlocks_ID W blocks basePath moduleID moduleName file path node :
  findModuleInBlocks W blocks basePath moduleID moduleName file = Ok (Some (path, node)) →
  ID node = moduleID ∧ Type_ node = "module".
Proof.
  induction blocks as [|block blocks IH]; simpl; [done|].
  destruct (String.eqb (blk_Type block) "module"); [|done].
  destruct (label block 0) as [l0| |]; simpl; try done.
  destruct (String.eqb l0 moduleName); [|done].
  destruct (blk_Attributes block !! "source") as [sourceAttr|]; [|done].
  destruct (attr_Value sourceAttr) as [sourceVal|]; [|done].
  destruct (AsString sourceVal) as [sourcePath| |]; simpl; try done.
  destruct (HasPrefix sourcePath "."); [|done].
  destruct (Stat W _); [|done]. by intros [= <- <-].
Qed.

Lemma findModuleNode_ID W basePath moduleID path node :
  findModuleNode W basePath moduleID = Ok (path, node) → path ≠ "" →
  ID node = moduleID ∧ Type_ node = "module".
Proof.
  unfold findModuleNode.
  generalize (match SplitN2 (TrimPrefix moduleID "module.") dot with
              | [] => TrimPrefix moduleID "module."
              | part0 :: _ => part0
              end). intros moduleName.
  induction (findTerraformFiles W basePath) as [|file files IH]; simpl.
  { by intros [= <- <-]. }
  destruct (ParseHCLFile W file) as [body|]; [|done].
  destruct (Content moduleSchema body) as [blocks|]; [|done].
  destruct (findModuleInBlocks W blocks basePath moduleID moduleName file)
    as [[[p n]|]| |] eqn:E; simpl; try done.
  intros [= <- <-] _. by eapply findModuleInBlocks_ID.
Qed.



(** ** Local values *)







(** * Further properties of the program *)

(** ** Where stored nodes come from *)

(** The three assignments to [graph.Nodes] in the program: the module node
    in [traverseNode], the located node in [traverseNode], and the
    declarations of a module directory in [processModuleBlocks]. A
    property [P] of keys and nodes that holds at the three of them holds of
    every node a traversal stores. *)
Section StoreSites.
Context (W : World) (M : Z) (root : string) (P : string → Node → Prop).

(** The identifiers [traverseNode] is called on: the root, or a reference
    that passed the [var.]/[local.] test. *)
Definition Visitable (id : string) : Prop := id = root ∨ expandable id = true.

Context (HM : M < max_int).
Context (Hmod : ∀ basePath nodeID name path mnode d,
  0 ≤ d ≤ M → Visitable nodeID → HasPrefix nodeID "module." = true →
  moduleNameOf nodeID = Ok name →
  findModuleNode W basePath ("module." +:+ name) = Ok (path, mnode) → path ≠ "" →
  P nodeID (setDepth mnode d)).
Context (Hres : ∀ basePath nodeID node d,
  0 ≤ d ≤ M → Visitable nodeID →
  findResourceNode W basePath nodeID = Ok (Some node) →
  P nodeID (setDepth node d)).
Context (Hblk : ∀ moduleBasePath moduleID file body blocks block currentID name d,
  0 ≤ d ≤ M → HasPrefix moduleID "module." = true →
  file ∈ findTerraformFiles W moduleBasePath →
  ParseHCLFile W file = Some body →
  Content moduleDirectorySchema body = Some blocks → block ∈ blocks →
  getBlockID block = Ok currentID → currentID ≠ "" → lastLabel block = Ok name →
  P (moduleID +:+ "/" +:+ currentID)
    (mkNode (moduleID +:+ "/" +:+ currentID) (blk_Type block) name file
            (extractReferences W block file) (d + 1))).

(** From [st] to [st'] every node that is new or changed satisfies [P],
    and [MaxDepth] is still [M]. *)
Definition Stored (st st' : State) : Prop :=
  MaxDepth (graph st') = M
  ∧ ∀ k n, Nodes (graph st') !! k = Some n → Nodes (graph st) !! k = Some n ∨ P k n.

Lemma Stored_refl st : MaxDepth (graph st) = M → Stored st st.
Proof. intros H. split; [done|]. intros; by left. Qed.

Lemma Stored_trans a b c : Stored a b → Stored b c → Stored a c.
Proof.
  intros [_ H1] [M2 H2]. split; [done|]. intros k n Hn.
  destruct (H2 k n Hn) as [Hb|?]; [|by right]. by apply H1.
Qed.

Lemma Stored_store st k n :
  MaxDepth (graph st) = M → P k n → Stored st (store k n st).
Proof.
  intros Hm Hp. split; [done|]. simpl. intros k' n' H.
  destruct (decide (k = k')) as [->|Hne].
  - rewrite lookup_insert_eq in H. injection H as <-. by right.
  - rewrite lookup_insert_ne in H by done. by left.
Qed.

Lemma Stored_mark st id : MaxDepth (graph st) = M → Stored st (markProcessed id st).
Proof. intros H. split; [done|]. intros; by left. Qed.

Lemma forEach_Stored {A} (body : A → State → res State) l st st' :
  (∀ x s s', x ∈ l → MaxDepth (graph s) = M → body x s = Ok s' → Stored s s') →
  MaxDepth (graph st) = M →
  forEach body l st = Ok st' → Stored st st'.
Proof.
  revert st. induction l as [|x l IH]; simpl; intros st Hb Hm H.
  { injection H as <-. by apply Stored_refl. }
  destruct (body x st) as [s| |] eqn:E; simpl in H; try done.
  pose proof (Hb x st s ltac:(by left) Hm E) as H1.
  eapply Stored_trans; [exact H1|]. apply IH; [|apply H1|done].
  intros y s1 s2 Hy. apply Hb. by right.
Qed.

Lemma expandable_module_key moduleID rest :
  HasPrefix moduleID "module." = true → expandable (moduleID +:+ rest) = true.
Proof.
  intros H. unfold expandable, HasPrefix in *. apply prefix_app_inv in H as [t ->].
  change (negb (String.prefix "var." (String "m" ("odule." +:+ (t +:+ rest))))
          && negb (String.prefix "local." (String "m" ("odule." +:+ (t +:+ rest))))
          = true).
  simpl. destruct (ascii_dec "v" "m"); [done|]. by destruct (ascii_dec "l" "m").
Qed.

Section WithRec.
Context (rec : Traverse) (d : Z) (Hd : 0 ≤ d ≤ M).
Context (Hrec : ∀ basePath id st st',
  Visitable id → MaxDepth (graph st) = M →
  rec basePath id (succ_int d) st = Ok st' → Stored st st').

Lemma processModuleReferences_Stored refs moduleID moduleBasePath st st' :
  HasPrefix moduleID "module." = true → MaxDepth (graph st) = M →
  processModuleReferences W rec refs moduleID d moduleBasePath st = Ok st' →
  Stored st st'.
Proof.
  intros Hm. unfold processModuleReferences. apply forEach_Stored.
  intros entry s s' _. apply forEach_Stored.
  intros ref s1 s2 _ Hs. unfold processModuleReference.
  destruct (expandable (ref_ID ref)); [|intros [= <-]; by apply Stored_refl].
  case_bool_decide; [intros [= <-]; by apply Stored_refl|].
  apply Hrec; [|done]. right. by apply expandable_module_key.
Qed.

Lemma processModuleBlocks_Stored body blocks file moduleID moduleBasePath st st' :
  HasPrefix moduleID "module." = true →
  file ∈ findTerraformFiles W moduleBasePath →
  ParseHCLFile W file = Some body →
  Content moduleDirectorySchema body = Some blocks →
  MaxDepth (graph st) = M →
  processModuleBlocks W rec blocks file moduleID d moduleBasePath st = Ok st' →
  Stored st st'.
Proof.
  intros Hm Hfile Hparse Hcontent. unfold processModuleBlocks. apply forEach_Stored.
  intros block s s' Hblock Hs.
  destruct (getBlockID block) as [currentID| |] eqn:Eid; simpl; try done.
  destruct (String.eqb_spec currentID "") as [|Hne]; [intros [= <-]; by apply Stored_refl|].
  destruct (lastLabel block) as [name| |] eqn:El; simpl; try done.
  intros H. apply processModuleReferences_Stored in H; [|done..].
  eapply Stored_trans; [|exact H].
  apply Stored_store; [done|]. simpl.
  replace (succ_int d) with (d + 1); [by eapply Hblk|].
  unfold succ_int, wrap_int. unfold max_int in HM. rewrite Z.mod_small; lia.
Qed.

Lemma traverseModuleDirectory_Stored moduleBasePath moduleID st st' :
  HasPrefix moduleID "module." = true → MaxDepth (graph st) = M →
  traverseModuleDirectory W rec moduleBasePath moduleID d st = Ok st' →
  Stored st st'.
Proof.
  intros Hm Hs. unfold traverseModuleDirectory.
  destruct (findTerraformFiles W moduleBasePath) as [|file files] eqn:Efiles.
  { intros [= <-]. split; [done|]. intros; by left. }
  intros H. apply forEach_Stored in H.
  - eapply Stored_trans; [|exact H]. split; [done|]. intros; by left.
  - intros f s s' Hf Hs'.
    destruct (ParseHCLFile W f) as [body|] eqn:Eparse;
      [|intros [= <-]; by apply Stored_refl].
    destruct (Content moduleDirectorySchema body) as [blocks|] eqn:Econtent;
      [|intros [= <-]; by apply Stored_refl].
    apply (processModuleBlocks_Stored body); try done. by rewrite Efiles.
  - done.
Qed.

Lemma traverseReferences_Stored basePath refs st st' :
  MaxDepth (graph st) = M →
  traverseReferences W rec basePath refs d st = Ok st' → Stored st st'.
Proof.
  unfold traverseReferences. intros Hs. apply forEach_Stored; [|done].
  intros entry s s' _. apply forEach_Stored.
  intros ref s1 s2 _ Hs1. unfold traverseReference.
  destruct (expandable (ref_ID ref)) eqn:E; [|intros [= <-]; by apply Stored_refl].
  apply Hrec; [by right|done].
Qed.

End WithRec.

Lemma succ_int_plain d : 0 ≤ d ≤ M → succ_int d = d + 1.
Proof.
  intros Hd. unfold succ_int, wrap_int. unfold max_int in HM. rewrite Z.mod_small; lia.
Qed.

(** Every node a call of [traverseNode] leaves new or changed satisfies
    [P]. *)
Lemma traverseNode_Stored fuel basePath id d st st' :
  0 ≤ d → Visitable id → MaxDepth (graph st) = M →
  traverseNode W fuel basePath id d st = Ok st' → Stored st st'.
Proof.
  revert basePath id d st st'.
  induction fuel as [|fuel IH]; intros basePath id d st st' Hd Hv Hm; simpl.
  - destruct (_ || _); [|done]. intros [= <-]. by apply Stored_refl.
  - destruct (bool_decide (d > MaxDepth (graph st))) eqn:Eg; simpl.
    { intros [= <-]. by apply Stored_refl. }
    destruct (bool_decide (id ∈ processedNodes st)) eqn:Ep; simpl.
    { intros [= <-]. by apply Stored_refl. }
    apply bool_decide_eq_false in Eg. rewrite Hm in Eg.
    assert (0 ≤ d ≤ M) as Hd' by lia.
    assert (∀ bp i s s', Visitable i → MaxDepth (graph s) = M →
              traverseNode W fuel bp i (succ_int d) s = Ok s' → Stored s s') as Hrec.
    { intros bp i s s' Hi Hs. apply IH; [|done..]. rewrite succ_int_plain; lia. }
    set (s1 := markProcessed id st).
    destruct (if HasPrefix id "module."
              then traverseModule W (traverseNode W fuel) basePath id d s1
              else Ok s1) as [s2| |] eqn:Em; simpl; try done.
    assert (Stored st s2) as H12.
    { apply (Stored_trans _ s1); [by apply Stored_mark|].
      destruct (HasPrefix id "module.") eqn:Ehp; [|injection Em as <-; by apply Stored_refl].
      revert Em. unfold traverseModule.
      destruct (moduleNameOf id) as [name| |] eqn:En; simpl; try done.
      destruct (findModuleNode W basePath ("module." +:+ name))
        as [[path mnode]| |] eqn:Ef; simpl; try done.
      destruct (String.eqb_spec path "") as [|Hne]; [intros [= <-]; by apply Stored_refl|].
      intros Em.
      apply (traverseModuleDirectory_Stored _ d Hd' Hrec) in Em;
        [|apply moduleID_prefix|done].
      eapply Stored_trans; [|exact Em].
      apply (Stored_store s1); [done|]. by eapply Hmod. }
    unfold traverseResource.
    destruct (findResourceNode W basePath id) as [[node|]| |] eqn:Ef; simpl; try done.
    + intros H. apply (traverseReferences_Stored _ d Hrec) in H; [|apply H12].
      eapply Stored_trans; [exact H12|]. eapply Stored_trans; [|exact H].
      apply Stored_store; [apply H12|]. by eapply Hres.
    + by intros [= <-].
Qed.

(** After [buildDependencyGraph] on a fresh graph every node satisfies
    [P]. *)
Lemma buildDependencyGraph_Stored g basePath st' :
  Nodes g = ∅ → MaxDepth g = M →
  buildDependencyGraph W g basePath root = Ok st' →
  ∀ k n, Nodes (graph st') !! k = Some n → P k n.
Proof.
  intros Hg Hm H. unfold buildDependencyGraph in H.
  apply traverseNode_Stored in H as [_ H]; [|lia|by left|done].
  intros k n Hn. destruct (H k n Hn) as [Hold|?]; [|done].
  simpl in Hold. by rewrite Hg, lookup_empty in Hold.
Qed.

End StoreSites.

(** ** Where stored nodes come from, at any depth *)

(** The same three assignments to [graph.Nodes], for properties that do
    not speak of depths: no bound on [MaxDepth] is needed. *)
Section StoreSitesAnyDepth.
Context (W : World) (root : string) (P : string → Node → Prop).

Context (Hmod : ∀ basePath nodeID name path mnode d,
  Visitable root nodeID → HasPrefix nodeID "module." = true →
  moduleNameOf nodeID = Ok name →
  findModuleNode W basePath ("module." +:+ name) = Ok (path, mnode) → path ≠ "" →
  P nodeID (setDepth mnode d)).
Context (Hres : ∀ basePath nodeID node d,
  Visitable root nodeID →
  findResourceNode W basePath nodeID = Ok (Some node) →
  P nodeID (setDepth node d)).
Context (Hblk : ∀ moduleBasePath moduleID file body blocks block currentID name d,
  HasPrefix moduleID "module." = true →
  file ∈ findTerraformFiles W moduleBasePath →
  ParseHCLFile W file = Some body →
  Content moduleDirectorySchema body = Some blocks → block ∈ blocks →
  getBlockID block = Ok currentID → currentID ≠ "" → lastLabel block = Ok name →
  P (moduleID +:+ "/" +:+ currentID)
    (mkNode (moduleID +:+ "/" +:+ currentID) (blk_Type block) name file
            (extractReferences W block file) d)).

(** From [st] to [st'] every node that is new or changed satisfies [P]. *)
Definition StoredAny (st st' : State) : Prop :=
  ∀ k n, Nodes (graph st') !! k = Some n → Nodes (graph st) !! k = Some n ∨ P k n.

Lemma StoredAny_refl st : StoredAny st st.
Proof. intros k n ?; by left. Qed.

Lemma StoredAny_trans a b c : StoredAny a b → StoredAny b c → StoredAny a c.
Proof.
  intros H1 H2 k n Hn. destruct (H2 k n Hn) as [Hb|?]; [|by right]. by apply H1.
Qed.

Lemma StoredAny_store st k n : P k n → StoredAny st (store k n st).
Proof.
  intros Hp k' n' H. simpl in H. destruct (decide (k = k')) as [->|Hne].
  - rewrite lookup_insert_eq in H. injection H as <-. by right.
  - rewrite lookup_insert_ne in H by done. by left.
Qed.

Lemma forEach_StoredAny {A} (body : A → State → res State) l st st' :
  (∀ x s s', x ∈ l → body x s = Ok s' → StoredAny s s') →
  forEach body l st = Ok st' → StoredAny st st'.
Proof.
  revert st. induction l as [|x l IH]; simpl; intros st Hb H.
  { injection H as <-. apply StoredAny_refl. }
  destruct (body x st) as [s| |] eqn:E; simpl in H; try done.
  eapply StoredAny_trans; [exact (Hb x st s ltac:(by left) E)|].
  apply IH; [|done]. intros y s1 s2 Hy. apply Hb. by right.
Qed.

Section WithRec.
Context (rec : Traverse).
Context (Hrec : ∀ basePath id d st st',
  Visitable root id → rec basePath id d st = Ok st' → StoredAny st st').

Lemma processModuleReferences_StoredAny refs moduleID d moduleBasePath st st' :
  HasPrefix moduleID "module." = true →
  processModuleReferences W rec refs moduleID d moduleBasePath st = Ok st' →
  StoredAny st st'.
Proof.
  intros Hm. unfold processModuleReferences. apply forEach_StoredAny.
  intros entry s s' _. apply forEach_StoredAny.
  intros ref s1 s2 _. unfold processModuleReference.
  destruct (expandable (ref_ID ref)); [|intros [= <-]; apply StoredAny_refl].
  case_bool_decide; [intros [= <-]; apply StoredAny_refl|].
  apply Hrec. right. by apply expandable_module_key.
Qed.

Lemma processModuleBlocks_StoredAny body blocks file moduleID d moduleBasePath st st' :
  HasPrefix moduleID "module." = true →
  file ∈ findTerraformFiles W moduleBasePath →
  ParseHCLFile W file = Some body →
  Content moduleDirectorySchema body = Some blocks →
  processModuleBlocks W rec blocks file moduleID d moduleBasePath st = Ok st' →
  StoredAny st st'.
Proof.
  intros Hm Hfile Hparse Hcontent. unfold processModuleBlocks. apply forEach_StoredAny.
  intros block s s' Hblock.
  destruct (getBlockID block) as [currentID| |] eqn:Eid; simpl; try done.
  destruct (String.eqb_spec currentID "") as [|Hne]; [intros [= <-]; apply StoredAny_refl|].
  destruct (lastLabel block) as [name| |] eqn:El; simpl; try done.
  intros H. apply processModuleReferences_StoredAny in H; [|done].
  eapply StoredAny_trans; [|exact H].
  apply StoredAny_store. simpl. by eapply Hblk.
Qed.

Lemma traverseModuleDirectory_StoredAny moduleBasePath moduleID d st st' :
  HasPrefix moduleID "module." = true →
  traverseModuleDirectory W rec moduleBasePath moduleID d st = Ok st' →
  StoredAny st st'.
Proof.
  intros Hm. unfold traverseModuleDirectory.
  destruct (findTerraformFiles W moduleBasePath) as [|file files] eqn:Efiles.
  { intros [= <-]. intros k n ?; by left. }
  intros H. apply forEach_StoredAny in H.
  - eapply StoredAny_trans; [|exact H]. intros k n ?; by left.
  - intros f s s' Hf.
    destruct (ParseHCLFile W f) as [body|] eqn:Eparse;
      [|intros [= <-]; apply StoredAny_refl].
    destruct (Content moduleDirectorySchema body) as [blocks|] eqn:Econtent;
      [|intros [= <-]; apply StoredAny_refl].
    apply (processModuleBlocks_StoredAny body); try done. by rewrite Efiles.
Qed.

Lemma traverseReferences_StoredAny basePath refs d st st' :
  traverseReferences W rec basePath refs d st = Ok st' → StoredAny st st'.
Proof.
  unfold traverseReferences. apply forEach_StoredAny.
  intros entry s s' _. apply forEach_StoredAny.
  intros ref s1 s2 _. unfold traverseReference.
  destruct (expandable (ref_ID ref)) eqn:E; [|intros [= <-]; apply StoredAny_refl].
  apply Hrec. by right.
Qed.

End WithRec.

Lemma traverseNode_StoredAny fuel basePath id d st st' :
  Visitable root id →
  traverseNode W fuel basePath id d st = Ok st' → StoredAny st st'.
Proof.
  revert basePath id d st st'.
  induction fuel as [|fuel IH]; intros basePath id d st st' Hv; simpl.
  - destruct (_ || _); [|done]. intros [= <-]. apply StoredAny_refl.
  - destruct (_ || _); [intros [= <-]; apply StoredAny_refl|].
    set (s1 := markProcessed id st).
    destruct (if HasPrefix id "module."
              then traverseModule W (traverseNode W fuel) basePath id d s1
              else Ok s1) as [s2| |] eqn:Em; simpl; try done.
    assert (StoredAny st s2) as H12.
    { apply (StoredAny_trans _ s1); [intros k n ?; by left|].
      destruct (HasPrefix id "module.") eqn:Ehp;
        [|injection Em as <-; apply StoredAny_refl].
      revert Em. unfold traverseModule.
      destruct (moduleNameOf id) as [name| |] eqn:En; simpl; try done.
      destruct (findModuleNode W basePath ("module." +:+ name))
        as [[path mnode]| |] eqn:Ef; simpl; try done.
      destruct (String.eqb_spec path "") as [|Hne]; [intros [= <-]; apply StoredAny_refl|].
      intros Em.
      apply (traverseModuleDirectory_StoredAny _ IH) in Em; [|apply moduleID_prefix].
      eapply StoredAny_trans; [|exact Em].
      apply (StoredAny_store s1). by eapply Hmod. }
    unfold traverseResource.
    destruct (findResourceNode W basePath id) as [[node|]| |] eqn:Ef; simpl; try done.
    + intros H. apply (traverseReferences_StoredAny _ IH) in H.
      eapply StoredAny_trans; [exact H12|]. eapply StoredAny_trans; [|exact H].
      apply StoredAny_store. by eapply Hres.
    + by intros [= <-].
Qed.

(** After [buildDependencyGraph] on a fresh graph every node satisfies
    [P]. *)
Lemma buildDependencyGraph_StoredAny g basePath st' :
  Nodes g = ∅ →
  buildDependencyGraph W g basePath root = Ok st' →
  ∀ k n, Nodes (graph st') !! k = Some n → P k n.
Proof.
  intros Hg H. unfold buildDependencyGraph in H.
  apply traverseNode_StoredAny in H; [|by left].
  intros k n Hn. destruct (H k n Hn) as [Hold|?]; [|done].
  simpl in Hold. by rewrite Hg, lookup_empty in Hold.
Qed.

End StoreSitesAnyDepth.

(** ** The extractor: what it returns, whatever the iteration order *)

Lemma classify_Some filePath v c r :
  classify filePath v = Some (c, r) ↔
  ∃ prefix rest, Split (traversalToReference v) dot = prefix :: rest ∧ rest ≠ []
    ∧ c = category prefix ∧ r = mkReference (traversalToReference v) filePath.
Proof.
  unfold classify. destruct (Split (traversalToReference v) dot) as [|p [|q l]] eqn:E.
  - split; [done|]. by intros (? & ? & ? & _).
  - split; [done|]. intros (? & ? & [= <- <-] & ? & _). done.
  - split.
    + intros [= <- <-]. by exists p, (q :: l).
    + intros (? & ? & [= <- <-] & _ & -> & ->). done.
Qed.

Lemma category_known prefix :
  category prefix ∈ ["variable"; "module"; "data"; "resource"].
Proof.
  unfold category.
  destruct (String.eqb prefix "var"); [by left|].
  destruct (String.eqb prefix "module"); [right; by left|].
  destruct (String.eqb prefix "data"); [right; right; by left|].
  right; right; right; by left.
Qed.

Lemma elem_of_seenIn filePath c vars r :
  r ∈ seenIn filePath c vars ↔ ∃ v, v ∈ vars ∧ classify filePath v = Some (c, r).
Proof.
  unfold seenIn. rewrite list_elem_of_omap. split.
  - intros (v & Hv & H). exists v. split; [done|].
    destruct (classify filePath v) as [[c' r']|]; [|done].
    destruct (String.eqb_spec c' c) as [->|]; [|done]. by injection H as ->.
  - intros (v & Hv & H). exists v. split; [done|]. rewrite H.
    by rewrite String.eqb_refl.
Qed.

Lemma seenIn_path filePath c vars r : r ∈ seenIn filePath c vars → ref_Path r = filePath.
Proof.
  intros (v & _ & H)%elem_of_seenIn.
  apply classify_Some in H as (? & ? & _ & _ & _ & ->). done.
Qed.

Lemma firstSeen_covers seen l r :
  r ∈ l → ref_ID r ∉ seen → ∃ r', r' ∈ firstSeen seen l ∧ ref_ID r' = ref_ID r.
Proof.
  revert seen. induction l as [|x l IH]; simpl; intros seen H Hn.
  { by apply elem_of_nil in H. }
  apply elem_of_cons in H as [->|H].
  - rewrite bool_decide_eq_false_2 by done. exists x. split; [by left|done].
  - case_bool_decide as E; [by apply IH|].
    destruct (decide (ref_ID r = ref_ID x)) as [Heq|Hne].
    + exists x. split; [by left|done].
    + destruct (IH (ref_ID x :: seen) H) as (r' & ? & ?).
      { intros [?|?]%elem_of_cons; done. }
      exists r'. split; [by right|done].
Qed.

(** With one file path, a reference is kept by [firstSeen] exactly when it
    was met. *)
Lemma elem_of_firstSeen_seenIn filePath c vars r :
  r ∈ firstSeen [] (seenIn filePath c vars) ↔ r ∈ seenIn filePath c vars.
Proof.
  split; [by intros [? _]%firstSeen_ids|]. intros Hr.
  destruct (firstSeen_covers [] _ r Hr ltac:(apply not_elem_of_nil)) as (r' & Hr' & Hid).
  assert (r' = r) as <-; [|done].
  apply firstSeen_ids in Hr' as [Hin _].
  apply seenIn_path in Hin, Hr. destruct r', r. simpl in *. congruence.
Qed.

Lemma appendUniqueReference_nonempty slice element :
  appendUniqueReference slice element ≠ [].
Proof.
  unfold appendUniqueReference. destruct (existsb _ slice) eqn:E.
  - destruct slice; [done|done].
  - by destruct slice.
Qed.

Lemma fold_addVariable_nonempty filePath vars c l :
  fold_left (λ acc v, addVariable filePath v acc) vars ∅ !! c = Some l → l ≠ [].
Proof.
  revert c l. induction vars as [|v vars IH] using rev_ind; intros c l.
  { simpl. by rewrite lookup_empty. }
  rewrite fold_left_app. simpl. rewrite addVariable_classify.
  destruct (classify filePath v) as [[c' r]|]; [|apply IH].
  destruct (decide (c' = c)) as [->|Hne].
  - rewrite lookup_insert_eq. intros [= <-]. apply appendUniqueReference_nonempty.
  - rewrite lookup_insert_ne by done. apply IH.
Qed.

Lemma extractReferences_lookup W block filePath c l :
  extractReferences W block filePath !! c = Some l →
  l = firstSeen [] (seenIn filePath c (variablesOf W block)) ∧ l ≠ [].
Proof.
  intros H. split.
  - rewrite <- fold_addVariable_firstSeen, <- extractReferences_fold.
    unfold getRefs. by rewrite H.
  - rewrite extractReferences_fold in H. by eapply fold_addVariable_nonempty.
Qed.

Lemma extractReferences_elem W block filePath c r :
  (∃ l, extractReferences W block filePath !! c = Some l ∧ r ∈ l) ↔
  ∃ v, v ∈ variablesOf W block ∧ classify filePath v = Some (c, r).
Proof.
  rewrite <- elem_of_seenIn, <- elem_of_firstSeen_seenIn. split.
  - intros (l & H & Hr). apply extractReferences_lookup in H as [-> _]. done.
  - intros Hr. rewrite <- fold_addVariable_firstSeen, <- extractReferences_fold in Hr.
    unfold getRefs in Hr. destruct (extractReferences W block filePath !! c) as [l|].
    + by exists l.
    + by apply elem_of_nil in Hr.
Qed.

Lemma elem_of_variablesOf W block v :
  range_complete W →
  v ∈ variablesOf W block ↔
  ∃ name attr, blk_Attributes block !! name = Some attr ∧ v ∈ attr_Variables attr.
Proof.
  intros Hr. unfold variablesOf. rewrite elem_of_flat_map. split.
  - intros ([name attr] & Hin & Hv). apply (range_elem W) in Hin; [|done]. eauto.
  - intros (name & attr & Hin & Hv). exists (name, attr). split; [|done].
    by apply (range_elem W).
Qed.

(** X1: the references the extractor returns for a block do not depend on
    the order in which Go enumerates the attributes: a reference is in
    category [c] exactly when some attribute of the block mentions a
    variable whose dotted path has at least two segments, whose first
    segment has category [c], and whose whole path is the identifier,
    recorded with the file of the block. *)
Theorem X1_extractor_exact (W : World) (block : Block) (filePath c : string)
    (r : Reference) :
  range_complete W →
  (∃ l, extractReferences W block filePath !! c = Some l ∧ r ∈ l) ↔
  ∃ name attr v prefix rest,
    blk_Attributes block !! name = Some attr ∧ v ∈ attr_Variables attr
    ∧ Split (traversalToReference v) dot = prefix :: rest ∧ rest ≠ []
    ∧ c = category prefix ∧ r = mkReference (traversalToReference v) filePath.
Proof.
  intros Hr. rewrite extractReferences_elem. split.
  - intros (v & Hv & Hc). apply (elem_of_variablesOf W) in Hv as (name & attr & ? & ?);
      [|done].
    apply classify_Some in Hc as (prefix & rest & ? & ? & ? & ?).
    exists name, attr, v, prefix, rest. done.
  - intros (name & attr & v & prefix & rest & Ha & Hv & Hs & Hrest & Hc & Hr').
    exists v. split; [apply (elem_of_variablesOf W); eauto|].
    apply classify_Some. eauto 6.
Qed.

Lemma X1_extractor_exact_witness :
  ∃ l, extractReferences Examples.cycleWorld Examples.repeatingBlock "/p/main.tf"
         !! "resource" = Some l
       ∧ mkReference "aws_c.c" "/p/main.tf" ∈ l.
Proof.
  apply (X1_extractor_exact Examples.cycleWorld Examples.repeatingBlock "/p/main.tf"
           "resource" (mkReference "aws_c.c" "/p/main.tf")
           (tableWorld_range_complete _ _ _ _)).
  eexists "deps", _, (Examples.path "aws_c" ["c"]), "aws_c", ["c"].
  split; [reflexivity|]. split; [|split; [reflexivity|]].
  - simpl. do 5 (apply elem_of_cons; right). apply elem_of_cons. by left.
  - split; [discriminate|]. split; reflexivity.
Defined.

(** X2: the extractor only ever fills the categories [variable],
    [module], [data] and [resource] (never [output]), never leaves an empty
    list under a category, and every reference it returns carries the file
    path it was given and an identifier of at least two segments whose
    first segment decides the category. *)
Theorem X2_extractor_shape (W : World) (block : Block) (filePath c : string)
    (l : list Reference) :
  extractReferences W block filePath !! c = Some l →
  c ∈ ["variable"; "module"; "data"; "resource"]
  ∧ l ≠ []
  ∧ ∀ r, r ∈ l →
      ref_Path r = filePath
      ∧ (2 ≤ length (Split (ref_ID r) dot))%nat
      ∧ c = category (hd "" (Split (ref_ID r) dot)).
Proof.
  intros H. destruct (extractReferences_lookup _ _ _ _ _ H) as [_ Hne].
  assert (∀ r, r ∈ l → ∃ v, classify filePath v = Some (c, r)) as Hcl.
  { intros r Hr. destruct (proj1 (extractReferences_elem W block filePath c r))
      as (v & _ & ?); eauto. }
  split; [|split; [done|]].
  - destruct l as [|r l']; [done|].
    destruct (Hcl r ltac:(by left)) as (v & Hv).
    apply classify_Some in Hv as (prefix & rest & _ & _ & -> & _).
    apply category_known.
  - intros r Hr. destruct (Hcl r Hr) as (v & Hv).
    apply classify_Some in Hv as (prefix & rest & Hs & Hrest & -> & ->). simpl.
    rewrite Hs. simpl. split; [done|]. split; [|done].
    destruct rest; [done|simpl; lia].
Qed.

Lemma X2_extractor_shape_witness :
  ∃ l, extractReferences Examples.cycleWorld Examples.repeatingBlock "/p/main.tf"
         !! "variable" = Some l
       ∧ l ≠ [] ∧ ∀ r, r ∈ l → ref_Path r = "/p/main.tf".
Proof.
  eexists. split; [vm_compute; reflexivity|].
  destruct (X2_extractor_shape Examples.cycleWorld Examples.repeatingBlock "/p/main.tf"
              "variable" [mkReference "var.x" "/p/main.tf"]) as (_ & Hne & Hr).
  { vm_compute. reflexivity. }
  split; [exact Hne|]. intros r Hin. exact (proj1 (Hr r Hin)).
Defined.

(** ** The locator *)

(** The node [findNodeInBlocks] builds for a block. *)
Definition nodeOfBlock (W : World) (block : Block) (id name file : string) : Node :=
  mkNode id (blk_Type block) name file (extractReferences W block file) 0.

Lemma findNodeInBlocks_Some W blocks nodeID file node :
  findNodeInBlocks W blocks nodeID file = Ok (Some node) ↔
  ∃ before block after name,
    blocks = before ++ block :: after
    ∧ (∀ b, b ∈ before → ∃ id', getBlockID b = Ok id' ∧ id' ≠ nodeID)
    ∧ getBlockID block = Ok nodeID ∧ lastLabel block = Ok name
    ∧ node = nodeOfBlock W block nodeID name file.
Proof.
  revert node. induction blocks as [|b blocks IH]; intros node; simpl.
  { split; [done|]. intros (before & ? & ? & ? & H & _). by destruct before. }
  destruct (getBlockID b) as [currentID| |] eqn:Eid; simpl.
  - destruct (String.eqb_spec currentID nodeID) as [->|Hne].
    + destruct (lastLabel b) as [name| |] eqn:El; simpl.
      * split.
        -- intros [= <-]. exists [], b, blocks, name. split; [done|].
           split; [by intros ? ?%elem_of_nil|]. done.
        -- intros ([|b' before] & block & after & name' & Hb & Hbefore & Hid & Hl & ->).
           ++ injection Hb as <- <-. rewrite El in Hl. by injection Hl as <-.
           ++ injection Hb as <- _. destruct (Hbefore b ltac:(by left)) as (id' & E & ?).
              congruence.
      * split; [done|].
        intros ([|b' before] & block & after & name' & Hb & Hbefore & Hid & Hl & _).
        -- injection Hb as <- <-. congruence.
        -- injection Hb as <- _. destruct (Hbefore b ltac:(by left)) as (id' & E & ?).
           congruence.
      * split; [done|].
        intros ([|b' before] & block & after & name' & Hb & Hbefore & Hid & Hl & _).
        -- injection Hb as <- <-. congruence.
        -- injection Hb as <- _. destruct (Hbefore b ltac:(by left)) as (id' & E & ?).
           congruence.
    + rewrite IH. split.
      * intros (before & block & after & name & -> & Hbefore & ?).
        exists (b :: before), block, after, name. split; [done|]. split; [|done].
        intros b' [->|?]%elem_of_cons; eauto.
      * intros ([|b' before] & block & after & name & Hb & Hbefore & Hid & ?).
        -- injection Hb as <- <-. congruence.
        -- injection Hb as <- ->. exists before, block, after, name.
           split; [done|]. split; [|done]. intros b' ?. apply Hbefore. by right.
  - split; [done|].
    intros ([|b' before] & block & after & name & Hb & Hbefore & Hid & _).
    + injection Hb as <- <-. congruence.
    + injection Hb as <- _. destruct (Hbefore b ltac:(by left)) as (id' & E & ?).
      congruence.
  - split; [done|].
    intros ([|b' before] & block & after & name & Hb & Hbefore & Hid & _).
    + injection Hb as <- <-. congruence.
    + injection Hb as <- _. destruct (Hbefore b ltac:(by left)) as (id' & E & ?).
      congruence.
Qed.

Lemma findNodeInBlocks_None W blocks nodeID file :
  findNodeInBlocks W blocks nodeID file = Ok None ↔
  ∀ b, b ∈ blocks → ∃ id', getBlockID b = Ok id' ∧ id' ≠ nodeID.
Proof.
  induction blocks as [|b blocks IH]; simpl.
  { split; [by intros _ ? ?%elem_of_nil|done]. }
  destruct (getBlockID b) as [currentID| |] eqn:Eid; simpl.
  - destruct (String.eqb_spec currentID nodeID) as [->|Hne].
    + split.
      * by destruct (lastLabel b).
      * intros H. destruct (H b ltac:(by left)) as (id' & E & ?). congruence.
    + rewrite IH. split.
      * intros H b' [->|?]%elem_of_cons; eauto.
      * intros H b' ?. apply H. by right.
  - split; [done|]. intros H. destruct (H b ltac:(by left)) as (id' & E & ?). congruence.
  - split; [done|]. intros H. destruct (H b ltac:(by left)) as (id' & E & ?). congruence.
Qed.

(** The blocks the locator reads in a file: none when the file does not
    parse or does not fit the schema. *)
Definition locatorBlocks (W : World) (file : string) : list Block :=
  match ParseHCLFile W file with
  | Some body => default [] (Content resourceSchema body)
  | None => []
  end.

Lemma findResourceNodeIn_blocks W files nodeID :
  findResourceNodeIn W files nodeID =
  match files with
  | [] => Ok None
  | file :: rest =>
      r ← findNodeInBlocks W (locatorBlocks W file) nodeID file;
      match r with
      | Some node => Ok (Some node)
      | None => findResourceNodeIn W rest nodeID
      end
  end.
Proof.
  destruct files as [|file rest]; [done|]. simpl. unfold locatorBlocks.
  destruct (ParseHCLFile W file) as [body|]; [|done].
  by destruct (Content resourceSchema body).
Qed.

Lemma findResourceNodeIn_Some W files nodeID node :
  findResourceNodeIn W files nodeID = Ok (Some node) ↔
  ∃ earlier file later,
    files = earlier ++ file :: later
    ∧ (∀ f, f ∈ earlier → findNodeInBlocks W (locatorBlocks W f) nodeID f = Ok None)
    ∧ findNodeInBlocks W (locatorBlocks W file) nodeID file = Ok (Some node).
Proof.
  induction files as [|f files IH]; rewrite findResourceNodeIn_blocks.
  { split; [done|]. intros (earlier & ? & ? & H & _). by destruct earlier. }
  destruct (findNodeInBlocks W (locatorBlocks W f) nodeID f) as [[n|]| |] eqn:E; simpl.
  - split.
    + intros [= <-]. exists [], f, files. split; [done|].
      split; [by intros ? ?%elem_of_nil|done].
    + intros ([|f' earlier] & file & later & Hf & He & Hfound).
      * injection Hf as <- <-. congruence.
      * injection Hf as <- _. specialize (He f ltac:(by left)). congruence.
  - rewrite IH. split.
    + intros (earlier & file & later & -> & He & Hfound).
      exists (f :: earlier), file, later. split; [done|]. split; [|done].
      intros f' [->|?]%elem_of_cons; eauto.
    + intros ([|f' earlier] & file & later & Hf & He & Hfound).
      * injection Hf as <- <-. congruence.
      * injection Hf as <- ->. exists earlier, file, later. split; [done|].
        split; [|done]. intros f' ?. apply He. by right.
  - split; [done|]. intros ([|f' earlier] & file & later & Hf & He & Hfound).
    + injection Hf as <- <-. congruence.
    + injection Hf as <- _. specialize (He f ltac:(by left)). congruence.
  - split; [done|]. intros ([|f' earlier] & file & later & Hf & He & Hfound).
    + injection Hf as <- <-. congruence.
    + injection Hf as <- _. specialize (He f ltac:(by left)). congruence.
Qed.

Lemma findResourceNodeIn_None W files nodeID :
  findResourceNodeIn W files nodeID = Ok None ↔
  ∀ f, f ∈ files → findNodeInBlocks W (locatorBlocks W f) nodeID f = Ok None.
Proof.
  induction files as [|f files IH]; rewrite findResourceNodeIn_blocks.
  { split; [by intros _ ? ?%elem_of_nil|done]. }
  destruct (findNodeInBlocks W (locatorBlocks W f) nodeID f) as [[n|]| |] eqn:E; simpl.
  - split; [done|]. intros H. specialize (H f ltac:(by left)). congruence.
  - rewrite IH. split.
    + intros H f' [->|?]%elem_of_cons; eauto.
    + intros H f' ?. apply H. by right.
  - split; [done|]. intros H. specialize (H f ltac:(by left)). congruence.
  - split; [done|]. intros H. specialize (H f ltac:(by left)). congruence.
Qed.

(** X3: first match wins. [findResourceNode] returns a node exactly when
    the files of the directory, in walk order, split into files in which
    no block has the identifier, followed by a file whose blocks, in
    source order, split into blocks with other identifiers followed by a
    block with the identifier; the node is built from that block and that
    file, with depth 0. Files that do not parse or do not fit the schema
    count as files without blocks. *)
Theorem X3_locator_first_match (W : World) (basePath nodeID : string) (node : Node) :
  findResourceNode W basePath nodeID = Ok (Some node) ↔
  ∃ earlier file later before block after name,
    findTerraformFiles W basePath = earlier ++ file :: later
    ∧ (∀ f b, f ∈ earlier → b ∈ locatorBlocks W f →
         ∃ id', getBlockID b = Ok id' ∧ id' ≠ nodeID)
    ∧ locatorBlocks W file = before ++ block :: after
    ∧ (∀ b, b ∈ before → ∃ id', getBlockID b = Ok id' ∧ id' ≠ nodeID)
    ∧ getBlockID block = Ok nodeID ∧ lastLabel block = Ok name
    ∧ node = nodeOfBlock W block nodeID name file.
Proof.
  unfold findResourceNode. rewrite findResourceNodeIn_Some. split.
  - intros (earlier & file & later & Hf & He & Hfound).
    apply findNodeInBlocks_Some in Hfound as (before & block & after & name & ? & ? & ?).
    exists earlier, file, later, before, block, after, name.
    split; [done|]. split; [|done].
    intros f b Hin Hb. specialize (He f Hin).
    by apply (proj1 (findNodeInBlocks_None _ _ _ _) He).
  - intros (earlier & file & later & before & block & after & name
            & Hf & He & Hb & Hbefore & Hid & Hl & Hn).
    exists earlier, file, later. split; [done|]. split.
    + intros f Hin. apply findNodeInBlocks_None. intros b. by apply He.
    + apply findNodeInBlocks_Some. exists before, block, after, name. done.
Qed.

Lemma X3_locator_first_match_witness :
  findResourceNode Examples.cycleWorld "/p" "aws_b.b" = Ok (Some Examples.cycleNodeB).
Proof.
  apply (X3_locator_first_match Examples.cycleWorld "/p" "aws_b.b" Examples.cycleNodeB).
  exists [], "/p/main.tf", [],
    [mkBlock "resource" ["aws_a"; "a"]
       {[ "peer" := Examples.uses [Examples.path "aws_b" ["b"]] ]}],
    (mkBlock "resource" ["aws_b"; "b"]
       {[ "peer" := Examples.uses [Examples.path "aws_a" ["a"]] ]}), [], "b".
  split; [vm_compute; reflexivity|]. split; [by intros ? ? ?%elem_of_nil|].
  split; [vm_compute; reflexivity|]. split.
  - intros b ->%list_elem_of_singleton. exists "aws_a.a". split; [reflexivity|discriminate].
  - split; [reflexivity|]. split; [reflexivity|]. vm_compute. reflexivity.
Defined.

(** X4: not found means not declared. [findResourceNode] returns "not
    found" exactly when every block of every file the locator reads has an
    identifier, and none of them is the one looked for. *)
Theorem X4_locator_not_found (W : World) (basePath nodeID : string) :
  findResourceNode W basePath nodeID = Ok None ↔
  ∀ f b, f ∈ findTerraformFiles W basePath → b ∈ locatorBlocks W f →
    ∃ id', getBlockID b = Ok id' ∧ id' ≠ nodeID.
Proof.
  unfold findResourceNode. rewrite findResourceNodeIn_None. split.
  - intros H f b Hf. apply (proj1 (findNodeInBlocks_None W _ nodeID f)). by apply H.
  - intros H f Hf. apply findNodeInBlocks_None. intros b. by apply H.
Qed.

(** ** The module resolver *)

(** A [module] block that calls module [name] with a relative source that
    exists on disk under [basePath], at [path]. *)
Definition relativeCall (W : World) (basePath name : string) (block : Block)
    (path : string) : Prop :=
  blk_Type block = "module" ∧ blk_Labels block = [name]
  ∧ ∃ sourceAttr sourcePath,
      blk_Attributes block !! "source" = Some sourceAttr
      ∧ attr_Value sourceAttr = Some (CtyString sourcePath)
      ∧ HasPrefix sourcePath "." = true
      ∧ path = filepath_Join W basePath sourcePath
      ∧ Stat W path = true.

Lemma moduleSchema_labels block :
  inSchema moduleSchema block = true →
  blk_Type block = "module" ∧ ∃ l, blk_Labels block = [l].
Proof.
  unfold inSchema, moduleSchema. cbn [existsb]. rewrite orb_false_r.
  intros [Ht Hn]%andb_prop. apply String.eqb_eq in Ht.
  split; [done|]. destruct (blk_Labels block) as [|l [|l' ls]]; try done. by exists l.
Qed.

Lemma findModuleInBlocks_sound W blocks basePath moduleID moduleName file path node :
  (∀ block, block ∈ blocks → inSchema moduleSchema block = true) →
  findModuleInBlocks W blocks basePath moduleID moduleName file = Ok (Some (path, node)) →
  ∃ block, block ∈ blocks
    ∧ relativeCall W basePath moduleName block path
    ∧ node = mkNode moduleID "module" moduleName file (extractReferences W block file) 0.
Proof.
  induction blocks as [|block blocks IH]; simpl; intros Hs; [done|].
  assert (findModuleInBlocks W blocks basePath moduleID moduleName file
            = Ok (Some (path, node)) →
          ∃ block0, block0 ∈ block :: blocks
            ∧ relativeCall W basePath moduleName block0 path
            ∧ node = mkNode moduleID "module" moduleName file
                       (extractReferences W block0 file) 0) as Hnext.
  { intros H. destruct IH as (b & Hb & ?); [|done|].
    - intros b Hb. apply Hs. by right.
    - exists b. split; [by right|done]. }
  destruct (moduleSchema_labels block) as [Ht [l Hl]]; [apply Hs; by left|].
  rewrite Ht. simpl. unfold label. rewrite Hl. simpl.
  destruct (String.eqb_spec l moduleName) as [->|]; [|done].
  destruct (blk_Attributes block !! "source") as [sourceAttr|] eqn:Ea; [|done].
  destruct (attr_Value sourceAttr) as [sourceVal|] eqn:Ev; [|done].
  destruct sourceVal as [sourcePath| | |]; simpl; try done.
  destruct (HasPrefix sourcePath ".") eqn:Ep; [|done].
  destruct (Stat W _) eqn:Es; [|done].
  intros [= <- <-]. exists block. split; [by left|]. split; [|done].
  split; [done|]. split; [done|]. by exists sourceAttr, sourcePath.
Qed.

Lemma Content_blocks schema body blocks :
  Content schema body = Some blocks → blocks = body_Blocks body.
Proof.
  unfold Content. destruct (body_Attributes body); [|done].
  destruct (forallb _ _); [|done]. by intros [= <-].
Qed.

Lemma findModuleNodeIn_sound W files basePath moduleID moduleName path node :
  findModuleNodeIn W files basePath moduleID moduleName = Ok (path, node) → path ≠ "" →
  ∃ file body block, file ∈ files
    ∧ ParseHCLFile W file = Some body
    ∧ Content moduleSchema body = Some (body_Blocks body)
    ∧ block ∈ body_Blocks body
    ∧ relativeCall W basePath moduleName block path
    ∧ node = mkNode moduleID "module" moduleName file (extractReferences W block file) 0.
Proof.
  induction files as [|file files IH]; simpl.
  { by intros [= <- <-]. }
  assert (findModuleNodeIn W files basePath moduleID moduleName = Ok (path, node) →
          path ≠ "" →
          ∃ file0 body block, file0 ∈ file :: files
            ∧ ParseHCLFile W file0 = Some body
            ∧ Content moduleSchema body = Some (body_Blocks body)
            ∧ block ∈ body_Blocks body
            ∧ relativeCall W basePath moduleName block path
            ∧ node = mkNode moduleID "module" moduleName file0
                       (extractReferences W block file0) 0) as Hnext.
  { intros H Hp. destruct (IH H Hp) as (f & body & block & Hf & ?).
    exists f, body, block. split; [by right|done]. }
  destruct (ParseHCLFile W file) as [body|] eqn:Eparse; [|done].
  destruct (Content moduleSchema body) as [blocks|] eqn:Ec; [|done].
  destruct (findModuleInBlocks W blocks basePath moduleID moduleName file)
    as [[[p n]|]| |] eqn:E; simpl; try done.
  intros [= <- <-] _.
  apply findModuleInBlocks_sound in E as (block & Hb & Hr & Hn).
  - pose proof (Content_blocks _ _ _ Ec) as ->.
    exists file, body, block. split; [by left|]. done.
  - intros b Hb. by eapply Content_inSchema.
Qed.

(** The name [findModuleNode] looks for: the text between [module.] and
    the next dot. *)
Lemma resolver_name s :
  match SplitN2 s dot with
  | [] => s
  | part0 :: _ => part0
  end = hd "" (Split s dot).
Proof. unfold SplitN2. rewrite Split_Cut. by destruct (Cut s dot) as [[a b]|]. Qed.

(** X5: what a resolved module is. When [findModuleNode] returns a
    non-empty path, some [.tf] file of the directory holds a [module] block
    whose single label is the module name (the text of the identifier
    between [module.] and the next dot), whose [source] evaluates to a
    string that starts with a dot, and whose source joined to the base
    path exists on disk; the path returned is that joined path, and the
    node carries the identifier asked for, type [module], the module name,
    that file, the references extracted from that block, and depth 0.
    That file fits the resolver's schema: it has no top-level attribute
    and all its blocks are [module] blocks, so a call written in a file
    that also declares something else is not resolved from that file. *)
Theorem X5_module_resolver_sound (W : World) (basePath moduleID path : string)
    (node : Node) :
  findModuleNode W basePath moduleID = Ok (path, node) → path ≠ "" →
  ∃ file body block,
    file ∈ findTerraformFiles W basePath
    ∧ ParseHCLFile W file = Some body
    ∧ body_Attributes body = []
    ∧ (∀ b, b ∈ body_Blocks body → blk_Type b = "module")
    ∧ block ∈ body_Blocks body
    ∧ Name node = hd "" (Split (TrimPrefix moduleID "module.") dot)
    ∧ relativeCall W basePath (Name node) block path
    ∧ node = mkNode moduleID "module" (Name node) file
               (extractReferences W block file) 0.
Proof.
  unfold findModuleNode. rewrite resolver_name. intros H Hp.
  apply findModuleNodeIn_sound in H as (file & body & block & Hf & Hb & Hc & Hin & Hr & ->);
    [|done].
  exists file, body, block. split; [done|]. split; [done|]. split.
  { unfold Content in Hc. by destruct (body_Attributes body). }
  split; [|done]. intros b Hbin.
  by destruct (moduleSchema_labels b (Content_inSchema _ _ _ _ Hc Hbin)).
Qed.

Lemma X5_module_resolver_sound_witness :
  ∃ file body block,
    file ∈ findTerraformFiles Examples.moduleWorld "/p"
    ∧ ParseHCLFile Examples.moduleWorld file = Some body
    ∧ body_Attributes body = []
    ∧ (∀ b, b ∈ body_Blocks body → blk_Type b = "module")
    ∧ block ∈ body_Blocks body
    ∧ Name Examples.netModuleNode = hd "" (Split (TrimPrefix "module.net" "module.") dot)
    ∧ relativeCall Examples.moduleWorld "/p" (Name Examples.netModuleNode) block "/p/net"
    ∧ Examples.netModuleNode
      = mkNode "module.net" "module" (Name Examples.netModuleNode) file
          (extractReferences Examples.moduleWorld block file) 0.
Proof.
  apply (X5_module_resolver_sound Examples.moduleWorld "/p" "module.net" "/p/net"
           Examples.netModuleNode); [vm_compute; reflexivity|discriminate].
Defined.

(** ** What a run leaves in the graph *)

(** X6: the depth bound. After [buildDependencyGraph] on an empty graph
    with [MaxDepth] below the largest [int], every node has a depth
    between 0 and [MaxDepth + 1], and a node deeper than [MaxDepth] sits
    under a module-internal key [module.<name>/<id>]: the guard of
    [traverseNode] keeps every other node at [MaxDepth] or less. *)
Theorem X6_depth_bounds (W : World) (g : Graph) (basePath targetID : string)
    (st' : State) :
  Nodes g = ∅ → MaxDepth g < max_int →
  buildDependencyGraph W g basePath targetID = Ok st' →
  ∀ k n, Nodes (graph st') !! k = Some n →
    0 ≤ Depth n ≤ MaxDepth g + 1
    ∧ (namespaced k = false → Depth n ≤ MaxDepth g).
Proof.
  intros Hg Hmax Hrun.
  apply (buildDependencyGraph_Stored W (MaxDepth g) targetID
           (λ k n, 0 ≤ Depth n ≤ MaxDepth g + 1
                   ∧ (namespaced k = false → Depth n ≤ MaxDepth g))
           Hmax) with (basePath := basePath) (g := g); try done.
  - intros bp nodeID name path mnode d Hd _ _ _ _ _. simpl. lia.
  - intros bp nodeID node d Hd _ _. simpl. lia.
  - intros mbp moduleID file body blocks block currentID name d Hd Hm _ _ _ _ _ _ _.
    simpl. split; [lia|]. by rewrite namespaced_key.
Qed.

Lemma X6_depth_bounds_witness :
  ∃ st', buildDependencyGraph Examples.moduleWorld (mkGraph ∅ 0) "/p" "module.net" = Ok st'
    ∧ ∀ k n, Nodes (graph st') !! k = Some n →
        0 ≤ Depth n ≤ 0 + 1 ∧ (namespaced k = false → Depth n ≤ 0).
Proof.
  destruct (buildDependencyGraph Examples.moduleWorld (mkGraph ∅ 0) "/p" "module.net")
    as [st| |] eqn:E; [|vm_compute in E; discriminate E..].
  exists st. split; [reflexivity|].
  exact (X6_depth_bounds Examples.moduleWorld (mkGraph ∅ 0) "/p" "module.net" st
           eq_refl eq_refl E).
Defined.

(** The three schemas the program reads files with. *)
Definition schemas : list BodySchema :=
  [resourceSchema; moduleSchema; moduleDirectorySchema].

(** A node that was read off a declaration: a block of a parsed [.tf] file
    found by a directory walk, the file fitting one of the program's
    schemas, with the block's type, its last label as name, the file as
    path and the references the extractor returns for the block. *)
Definition declared (W : World) (n : Node) : Prop :=
  ∃ dir file body block schema,
    file ∈ findTerraformFiles W dir
    ∧ ParseHCLFile W file = Some body
    ∧ schema ∈ schemas ∧ Content schema body = Some (body_Blocks body)
    ∧ block ∈ body_Blocks body
    ∧ Path n = file
    ∧ Type_ n = blk_Type block
    ∧ lastLabel block = Ok (Name n)
    ∧ References n = extractReferences W block file.

Definition identifiedTypes : list string := ["resource"; "module"; "data"; "output"].

Lemma getBlockID_type block id :
  getBlockID block = Ok id → id ≠ "" → blk_Type block ∈ identifiedTypes.
Proof.
  unfold getBlockID, identifiedTypes.
  destruct (String.eqb_spec (blk_Type block) "resource") as [->|_]; [intros; set_solver|].
  destruct (String.eqb_spec (blk_Type block) "module") as [->|_]; [intros; set_solver|].
  destruct (String.eqb_spec (blk_Type block) "data") as [->|_]; [intros; set_solver|].
  destruct (String.eqb_spec (blk_Type block) "output") as [->|_]; [intros; set_solver|].
  by intros [= <-].
Qed.

Lemma locatorBlocks_body W file block :
  block ∈ locatorBlocks W file →
  ∃ body, ParseHCLFile W file = Some body
    ∧ Content resourceSchema body = Some (body_Blocks body)
    ∧ block ∈ body_Blocks body.
Proof.
  unfold locatorBlocks. destruct (ParseHCLFile W file) as [body|]; [|by intros ?%elem_of_nil].
  destruct (Content resourceSchema body) as [blocks|] eqn:E; simpl;
    [|by intros ?%elem_of_nil].
  pose proof (Content_blocks _ _ _ E) as ->. by exists body.
Qed.

Lemma findResourceNode_declared W basePath nodeID node :
  findResourceNode W basePath nodeID = Ok (Some node) →
  declared W node ∧ ID node = nodeID ∧ Depth node = 0
  ∧ (nodeID ≠ "" → Type_ node ∈ identifiedTypes).
Proof.
  unfold findResourceNode. intros H.
  apply findResourceNodeIn_Some in H as (earlier & file & later & Hf & _ & H).
  apply findNodeInBlocks_Some in H as (before & block & after & name & Hb & _ & Hid & Hl & ->).
  destruct (locatorBlocks_body W file block) as (body & Hparse & Hc & Hin).
  { rewrite Hb. apply elem_of_app. right. by left. }
  split; [|split; [done|split; [done|]]].
  - exists basePath, file, body, block, resourceSchema.
    split; [rewrite Hf; apply elem_of_app; right; by left|].
    split; [done|]. split; [unfold schemas; set_solver|]. done.
  - simpl. by eapply getBlockID_type.
Qed.

Lemma run_nodes_declared (W : World) (g : Graph)
    (basePath targetID : string) (st' : State) :
  Nodes g = ∅ →
  buildDependencyGraph W g basePath targetID = Ok st' →
  ∀ k n, Nodes (graph st') !! k = Some n →
    declared W n ∧ (k ≠ "" → Type_ n ∈ identifiedTypes).
Proof.
  intros Hg Hrun.
  apply (buildDependencyGraph_StoredAny W targetID
           (λ k n, declared W n ∧ (k ≠ "" → Type_ n ∈ identifiedTypes)))
    with (basePath := basePath) (g := g); try done.
  - intros bp nodeID name path mnode d _ _ _ Hf Hp.
    unfold findModuleNode in Hf.
    apply findModuleNodeIn_sound in Hf
      as (file & body & block & Hfile & Hparse & Hc & Hin & (Ht & Hl & _) & ->); [|done].
    split; [|intros _; simpl; unfold identifiedTypes; set_solver].
    exists bp, file, body, block, moduleSchema. simpl. unfold lastLabel. rewrite Hl.
    split; [done|]. split; [done|]. split; [unfold schemas; set_solver|]. done.
  - intros bp nodeID node d _ Hf.
    apply findResourceNode_declared in Hf
      as ((dir & file & body & block & schema & ?) & Hid & _ & Ht).
    split.
    + exists dir, file, body, block, schema. by destruct node.
    + intros Hk. destruct node; simpl in *. apply Ht. congruence.
  - intros mbp moduleID file body blocks block currentID name d _ Hfile Hparse Hc Hin
      Hid Hne Hl.
    pose proof (Content_blocks _ _ _ Hc) as ->. split.
    + exists mbp, file, body, block, moduleDirectorySchema.
      split; [done|]. split; [done|]. split; [unfold schemas; set_solver|]. done.
    + intros _. simpl. by eapply getBlockID_type.
Qed.

(** X7: every node comes from a declaration. After [buildDependencyGraph]
    on an empty graph, every node of the graph was read off a block of a
    parsed [.tf] file that a directory walk returned and that fits one of
    the program's three schemas: its path is that file, its type the
    block's type, its name the block's last label, and its references are
    exactly what the extractor returns for that block and file. Unless it
    sits under the empty key, its type is one of resource, module, data
    and output. *)
Theorem X7_nodes_are_declarations (W : World) (g : Graph)
    (basePath targetID : string) (st' : State) :
  Nodes g = ∅ →
  buildDependencyGraph W g basePath targetID = Ok st' →
  ∀ k n, Nodes (graph st') !! k = Some n →
    declared W n ∧ (k ≠ "" → Type_ n ∈ identifiedTypes).
Proof. apply run_nodes_declared. Qed.

Lemma X7_nodes_are_declarations_witness :
  ∃ st', buildDependencyGraph Examples.moduleWorld (mkGraph ∅ 0) "/p" "module.net" = Ok st'
    ∧ ∀ k n, Nodes (graph st') !! k = Some n →
        declared Examples.moduleWorld n ∧ (k ≠ "" → Type_ n ∈ identifiedTypes).
Proof.
  destruct (buildDependencyGraph Examples.moduleWorld (mkGraph ∅ 0) "/p" "module.net")
    as [st| |] eqn:E; [|vm_compute in E; discriminate E..].
  exists st. split; [reflexivity|].
  exact (X7_nodes_are_declarations Examples.moduleWorld (mkGraph ∅ 0) "/p" "module.net" st
           eq_refl E).
Defined.

(** X8: keys and identifiers. After [buildDependencyGraph] on an empty
    graph, every key of the node map is the target or an identifier that
    starts neither with [var.] nor with [local.], and the node under a key
    carries that key as its [ID]; the one exception is a node of type
    [module] under a key that starts with [module.], whose [ID] is
    [module.<name>] for the module name read off the key. *)
Theorem X8_keys_and_identifiers (W : World) (g : Graph)
    (basePath targetID : string) (st' : State) :
  Nodes g = ∅ →
  buildDependencyGraph W g basePath targetID = Ok st' →
  ∀ k n, Nodes (graph st') !! k = Some n →
    (k = targetID ∨ expandable k = true)
    ∧ (ID n = k
       ∨ (HasPrefix k "module." = true ∧ Type_ n = "module"
          ∧ ∃ name, moduleNameOf k = Ok name ∧ ID n = "module." +:+ name)).
Proof.
  intros Hg Hrun.
  apply (buildDependencyGraph_StoredAny W targetID
           (λ k n, (k = targetID ∨ expandable k = true)
              ∧ (ID n = k
                 ∨ (HasPrefix k "module." = true ∧ Type_ n = "module"
                    ∧ ∃ name, moduleNameOf k = Ok name ∧ ID n = "module." +:+ name))))
    with (basePath := basePath) (g := g); try done.
  - intros bp nodeID name path mnode d Hv Hp Hn Hf Hne.
    split; [done|]. right. split; [done|].
    destruct (findModuleNode_ID _ _ _ _ _ Hf Hne) as [Hid Ht].
    split; [by destruct mnode|]. exists name. split; [done|]. by destruct mnode.
  - intros bp nodeID node d Hv Hf. split; [done|]. left.
    apply findResourceNode_found in Hf as (_ & _ & _ & _ & Hid & _). by destruct node.
  - intros mbp moduleID file body blocks block currentID name d Hm _ _ _ _ _ _ _.
    split; [|by left]. right. by apply expandable_module_key.
Qed.

Lemma X8_keys_and_identifiers_witness :
  ∃ st', buildDependencyGraph Examples.moduleWorld (mkGraph ∅ 0) "/p" "module.net.id" = Ok st'
    ∧ ∀ k n, Nodes (graph st') !! k = Some n →
        (k = "module.net.id" ∨ expandable k = true)
        ∧ (ID n = k
           ∨ (HasPrefix k "module." = true ∧ Type_ n = "module"
              ∧ ∃ name, moduleNameOf k = Ok name ∧ ID n = "module." +:+ name)).
Proof.
  destruct (buildDependencyGraph Examples.moduleWorld (mkGraph ∅ 0) "/p" "module.net.id")
    as [st| |] eqn:E; [|vm_compute in E; discriminate E..].
  exists st. split; [reflexivity|].
  exact (X8_keys_and_identifiers Examples.moduleWorld (mkGraph ∅ 0) "/p" "module.net.id" st
           eq_refl E).
Defined.

(** ** Runs that do not panic *)

(** Every [source] of a [module] block that evaluates to a value
    evaluates to a string: the one thing outside the program's control
    that [findModuleNode] relies on when it calls [AsString]. *)
Definition stringSources (W : World) : Prop :=
  ∀ file body block attr v,
    ParseHCLFile W file = Some body → block ∈ body_Blocks body →
    blk_Type block = "module" →
    blk_Attributes block !! "source" = Some attr → attr_Value attr = Some v →
    isStringTyped v = true.

Lemma forEach_no_panic {A S} (body : A → S → res S) l st :
  (∀ x s, x ∈ l → body x s ≠ Panic) → forEach body l st ≠ Panic.
Proof.
  revert st. induction l as [|x l IH]; simpl; intros st Hb; [done|].
  pose proof (Hb x st ltac:(by left)).
  destruct (body x st) as [s| |]; simpl; try done.
  apply IH. intros y s' Hy. apply Hb. by right.
Qed.

Lemma Split_module t : Split ("module." +:+ t) dot = "module" :: Split t dot.
Proof. rewrite Split_Cut. reflexivity. Qed.

Lemma moduleNameOf_module nodeID :
  HasPrefix nodeID "module." = true → ∃ name, moduleNameOf nodeID = Ok name.
Proof.
  intros [t ->]%prefix_app_inv. unfold moduleNameOf. rewrite Split_module.
  pose proof (Split_nonempty t dot). destruct (Split t dot) as [|m l]; [done|].
  simpl. destruct (SplitN2 m dot) as [|? [|? ?]]; eauto.
Qed.

Lemma getBlockID_resourceSchema block :
  inSchema resourceSchema block = true → ∃ id, getBlockID block = Ok id.
Proof.
  unfold inSchema, resourceSchema, getBlockID, label. cbn [existsb].
  destruct block as [ty labels attrs]. cbn [blk_Type blk_Labels].
  destruct (String.eqb_spec ty "resource") as [->|_].
  { destruct labels as [|a [|b [|c l]]]; try done. simpl. eauto. }
  destruct (String.eqb_spec ty "module") as [->|_].
  { destruct labels as [|a [|b l]]; try done. simpl. eauto. }
  destruct (String.eqb_spec ty "data") as [->|_].
  { destruct labels as [|a [|b [|c l]]]; try done. simpl. eauto. }
  destruct (String.eqb_spec ty "output") as [->|_].
  { destruct labels as [|a [|b l]]; try done. simpl. eauto. }
  eauto.
Qed.

Lemma getBlockID_moduleDirectorySchema block :
  inSchema moduleDirectorySchema block = true → ∃ id, getBlockID block = Ok id.
Proof.
  unfold inSchema, moduleDirectorySchema, getBlockID, label. cbn [existsb].
  destruct block as [ty labels attrs]. cbn [blk_Type blk_Labels].
  destruct (String.eqb_spec ty "resource") as [->|_].
  { destruct labels as [|a [|b [|c l]]]; try done. simpl. eauto. }
  destruct (String.eqb_spec ty "module") as [->|_].
  { destruct labels as [|a [|b l]]; try done. simpl. eauto. }
  destruct (String.eqb_spec ty "data") as [->|_].
  { destruct labels as [|a [|b [|c l]]]; try done. simpl. eauto. }
  destruct (String.eqb_spec ty "output") as [->|_].
  { destruct labels as [|a [|b l]]; try done. simpl. eauto. }
  eauto.
Qed.

Lemma getBlockID_lastLabel block id :
  getBlockID block = Ok id → id ≠ "" → ∃ name, lastLabel block = Ok name.
Proof.
  unfold getBlockID, label, lastLabel.
  destruct (blk_Labels block) as [|l ls]; [|eauto].
  simpl. repeat (destruct (String.eqb _ _); [done|]). by intros [= <-].
Qed.

Lemma findNodeInBlocks_no_panic W blocks nodeID file :
  (∀ block, block ∈ blocks → inSchema resourceSchema block = true) →
  nodeID ≠ "" → findNodeInBlocks W blocks nodeID file ≠ Panic.
Proof.
  intros Hs Hne. induction blocks as [|block blocks IH]; simpl; [done|].
  destruct (getBlockID_resourceSchema block) as [currentID Hid]; [apply Hs; by left|].
  rewrite Hid. simpl.
  destruct (String.eqb_spec currentID nodeID) as [->|_].
  - destruct (getBlockID_lastLabel _ _ Hid Hne) as [name ->]. done.
  - apply IH. intros b Hb. apply Hs. by right.
Qed.

Lemma findResourceNode_no_panic W basePath nodeID :
  nodeID ≠ "" → findResourceNode W basePath nodeID ≠ Panic.
Proof.
  intros Hne. unfold findResourceNode.
  induction (findTerraformFiles W basePath) as [|file files IH]; simpl; [done|].
  destruct (ParseHCLFile W file) as [body|]; [|done].
  destruct (Content resourceSchema body) as [blocks|] eqn:Ec; [|done].
  pose proof (findNodeInBlocks_no_panic W blocks nodeID file
                (λ b Hb, Content_inSchema _ _ _ _ Ec Hb) Hne).
  by destruct (findNodeInBlocks W blocks nodeID file) as [[node|]| |].
Qed.

Lemma findModuleInBlocks_no_panic W blocks basePath moduleID moduleName file :
  (∀ block, block ∈ blocks → inSchema moduleSchema block = true) →
  (∀ block attr v, block ∈ blocks → blk_Type block = "module" →
     blk_Attributes block !! "source" = Some attr → attr_Value attr = Some v →
     isStringTyped v = true) →
  findModuleInBlocks W blocks basePath moduleID moduleName file ≠ Panic.
Proof.
  intros Hs Hv. induction blocks as [|block blocks IH]; simpl; [done|].
  assert (findModuleInBlocks W blocks basePath moduleID moduleName file ≠ Panic) as Hnext.
  { apply IH; [intros b Hb; apply Hs; by right|].
    intros b a v Hb. apply Hv. by right. }
  destruct (moduleSchema_labels block) as [Ht [l Hl]]; [apply Hs; by left|].
  rewrite Ht. simpl. unfold label. rewrite Hl. simpl.
  destruct (String.eqb l moduleName); [|done].
  destruct (blk_Attributes block !! "source") as [sourceAttr|] eqn:Ea; [|done].
  destruct (attr_Value sourceAttr) as [sourceVal|] eqn:Ev; [|done].
  pose proof (Hv block sourceAttr sourceVal ltac:(by left) Ht Ea Ev) as Hstr.
  destruct sourceVal as [sourcePath| | |]; try done. simpl.
  destruct (HasPrefix sourcePath "."); [|done]. by destruct (Stat W _).
Qed.

Lemma findModuleNode_no_panic W basePath moduleID :
  stringSources W → findModuleNode W basePath moduleID ≠ Panic.
Proof.
  intros Hv. unfold findModuleNode.
  generalize (match SplitN2 (TrimPrefix moduleID "module.") dot with
              | [] => TrimPrefix moduleID "module."
              | part0 :: _ => part0
              end). intros moduleName.
  induction (findTerraformFiles W basePath) as [|file files IH]; simpl; [done|].
  destruct (ParseHCLFile W file) as [body|] eqn:Ep; [|done].
  destruct (Content moduleSchema body) as [blocks|] eqn:Ec; [|done].
  pose proof (findModuleInBlocks_no_panic W blocks basePath moduleID moduleName file
                (λ b Hb, Content_inSchema _ _ _ _ Ec Hb)) as H.
  destruct (findModuleInBlocks W blocks basePath moduleID moduleName file)
    as [[found|]| |]; simpl; try done.
  exfalso. apply H; [|done]. intros block attr v Hb. apply (Hv file body); [done|].
  by rewrite <- (Content_blocks _ _ _ Ec).
Qed.

Lemma module_key_nonempty moduleID rest :
  HasPrefix moduleID "module." = true → moduleID +:+ rest ≠ "".
Proof. intros [t ->]%prefix_app_inv. done. Qed.

Lemma extracted_ref_nonempty W block file c l r :
  extractReferences W block file !! c = Some l → r ∈ l → ref_ID r ≠ "".
Proof.
  intros H Hr.
  destruct (proj1 (extractReferences_elem W block file c r)) as (v & _ & Hv); [eauto|].
  apply classify_Some in Hv as (prefix & rest & Hs & Hrest & _ & ->). simpl.
  intros E. rewrite E in Hs. simpl in Hs. injection Hs as _ <-. done.
Qed.

Section NoPanic.
Context (W : World) (Hrange : range_complete W) (Hsources : stringSources W).

Section WithRec.
Context (rec : Traverse).
Context (Hrec : ∀ basePath id d st, id ≠ "" → rec basePath id d st ≠ Panic).

Lemma processModuleReferences_no_panic refs moduleID d moduleBasePath st :
  HasPrefix moduleID "module." = true →
  processModuleReferences W rec refs moduleID d moduleBasePath st ≠ Panic.
Proof.
  intros Hm. unfold processModuleReferences. apply forEach_no_panic.
  intros entry s _. apply forEach_no_panic. intros ref s' _.
  unfold processModuleReference. destruct (expandable (ref_ID ref)); [|done].
  case_bool_decide; [done|]. apply Hrec. by apply module_key_nonempty.
Qed.

Lemma processModuleBlocks_no_panic blocks file moduleID d moduleBasePath st :
  (∀ block, block ∈ blocks → inSchema moduleDirectorySchema block = true) →
  HasPrefix moduleID "module." = true →
  processModuleBlocks W rec blocks file moduleID d moduleBasePath st ≠ Panic.
Proof.
  intros Hs Hm. unfold processModuleBlocks. apply forEach_no_panic.
  intros block s Hb.
  destruct (getBlockID_moduleDirectorySchema block) as [currentID Hid]; [by apply Hs|].
  rewrite Hid. simpl.
  destruct (String.eqb_spec currentID "") as [|Hne]; [done|].
  destruct (getBlockID_lastLabel _ _ Hid Hne) as [name ->]. simpl.
  by apply processModuleReferences_no_panic.
Qed.

Lemma traverseModuleDirectory_no_panic moduleBasePath moduleID d st :
  HasPrefix moduleID "module." = true →
  traverseModuleDirectory W rec moduleBasePath moduleID d st ≠ Panic.
Proof.
  intros Hm. unfold traverseModuleDirectory.
  destruct (findTerraformFiles W moduleBasePath) as [|file files]; [done|].
  apply forEach_no_panic. intros f s _.
  destruct (ParseHCLFile W f) as [body|]; [|done].
  destruct (Content moduleDirectorySchema body) as [blocks|] eqn:Ec; [|done].
  apply processModuleBlocks_no_panic; [|done].
  intros b Hb. by eapply Content_inSchema.
Qed.

Lemma traverseReferences_no_panic basePath block file d st :
  traverseReferences W rec basePath (extractReferences W block file) d st ≠ Panic.
Proof.
  unfold traverseReferences. apply forEach_no_panic. intros [c l] s Hentry.
  apply (range_elem W _ _ _ Hrange) in Hentry.
  apply forEach_no_panic. intros ref s' Href. unfold traverseReference.
  destruct (expandable (ref_ID ref)); [|done].
  apply Hrec. by eapply extracted_ref_nonempty.
Qed.

End WithRec.

Lemma traverseNode_no_panic fuel basePath id d st :
  id ≠ "" → traverseNode W fuel basePath id d st ≠ Panic.
Proof.
  revert basePath id d st. induction fuel as [|fuel IH]; intros basePath id d st Hid; simpl.
  { by destruct (_ || _). }
  destruct (_ || _); [done|].
  set (s1 := markProcessed id st).
  assert ((if HasPrefix id "module."
           then traverseModule W (traverseNode W fuel) basePath id d s1
           else Ok s1) ≠ Panic) as Hm.
  { destruct (HasPrefix id "module.") eqn:Ep; [|done]. unfold traverseModule.
    destruct (moduleNameOf_module id Ep) as [name ->]. simpl.
    pose proof (findModuleNode_no_panic W basePath ("module." +:+ name) Hsources).
    destruct (findModuleNode W basePath ("module." +:+ name)) as [[path mnode]| |];
      simpl; try done.
    destruct (String.eqb path ""); [done|].
    apply traverseModuleDirectory_no_panic; [done|apply moduleID_prefix]. }
  destruct (if HasPrefix id "module."
            then traverseModule W (traverseNode W fuel) basePath id d s1
            else Ok s1) as [s2| |]; simpl; try done.
  unfold traverseResource.
  pose proof (findResourceNode_no_panic W basePath id Hid).
  destruct (findResourceNode W basePath id) as [[node|]| |] eqn:Ef; simpl; try done.
  apply findResourceNode_found in Ef as (block & file & _ & _ & _ & _ & _ & ->).
  by apply traverseReferences_no_panic.
Qed.

End NoPanic.

Lemma run_returns (W : World) (g : Graph) (basePath targetID : string) :
  range_complete W → stringSources W →
  MaxDepth g < max_int → targetID ≠ "" →
  ∃ st', buildDependencyGraph W g basePath targetID = Ok st'.
Proof.
  intros Hrange Hsources Hmax Hid.
  pose proof (buildDependencyGraph_fuel W g basePath targetID Hmax) as Hfuel.
  pose proof (traverseNode_no_panic W Hrange Hsources (fuelFor (MaxDepth g) 0)
                basePath targetID 0 (mkState g ∅ []) Hid) as Hpanic.
  unfold buildDependencyGraph in *.
  destruct (traverseNode W _ basePath targetID 0 _) as [st'| |]; [by exists st'|done..].
Qed.

(** X9: a run returns. With [MaxDepth] below the largest [int], a
    non-empty target, and module sources that evaluate to strings whenever
    they evaluate, [buildDependencyGraph] returns a graph for every
    configuration: the recursion ends, no label is indexed out of range
    and no value is converted to a string that is not one. *)
Theorem X9_run_returns (W : World) (g : Graph) (basePath targetID : string) :
  range_complete W → stringSources W →
  MaxDepth g < max_int → targetID ≠ "" →
  ∃ st', buildDependencyGraph W g basePath targetID = Ok st'.
Proof. apply run_returns. Qed.

Lemma moduleWorld_stringSources : stringSources Examples.moduleWorld.
Proof.
  intros file body block attr v Hp Hb Ht Ha Hv.
  unfold Examples.moduleWorld, Examples.moduleWorldWith, Examples.tableWorld in Hp.
  cbn [ParseHCLFile list_to_map foldr uncurry fst snd] in Hp.
  apply lookup_insert_Some in Hp as [[_ <-]|[_ Hp]].
  { simpl in Hb. apply elem_of_cons in Hb as [->|Hb]; [done|].
    apply list_elem_of_singleton in Hb as ->. done. }
  apply lookup_insert_Some in Hp as [[_ <-]|[_ Hp]].
  { simpl in Hb. apply list_elem_of_singleton in Hb as ->. simpl in Ha.
    apply lookup_singleton_Some in Ha as [_ <-]. simpl in Hv. by injection Hv as <-. }
  apply lookup_insert_Some in Hp as [[_ <-]|[_ Hp]].
  { simpl in Hb. apply list_elem_of_singleton in Hb as ->. done. }
  by rewrite lookup_empty in Hp.
Qed.

Lemma X9_run_returns_witness :
  ∃ st', buildDependencyGraph Examples.moduleWorld (mkGraph ∅ 3) "/p" "aws_a.a" = Ok st'.
Proof.
  apply (X9_run_returns Examples.moduleWorld (mkGraph ∅ 3) "/p" "aws_a.a").
  - apply tableWorld_range_complete.
  - apply moduleWorld_stringSources.
  - reflexivity.
  - discriminate.
Defined.

(** ** From the target to the output *)

Lemma NoDup_all_equal {A} (l : list A) (x : A) :
  NoDup l → (∀ y, y ∈ l ↔ y = x) → l = [x].
Proof.
  intros Hnd Hall. destruct l as [|a l].
  { exfalso. by apply (elem_of_nil x), Hall. }
  assert (a = x) as -> by (apply Hall; by left).
  destruct l as [|b l]; [done|]. exfalso.
  assert (b = x) as -> by (apply Hall; right; by left).
  apply NoDup_cons in Hnd as [Hnd _]. apply Hnd. by left.
Qed.

Lemma only_root_at_depth_zero (m : gmap string Node) nodes id node :
  nodes ≡ₚ map_to_list m →
  m !! id = Some node → Depth node = 0 →
  (∀ k n, m !! k = Some n → Depth n = 0 → k = id) →
  filter atDepthZero nodes = [(id, node)].
Proof.
  intros Hp Hid Hd Honly. apply NoDup_all_equal.
  - apply NoDup_filter. rewrite Hp. apply NoDup_map_to_list.
  - intros [k n]. rewrite list_elem_of_filter, Hp, elem_of_map_to_list.
    unfold atDepthZero. simpl. split.
    + intros [Hz Hk]. pose proof (Honly k n Hk Hz) as ->. congruence.
    + intros [= -> ->]. done.
Qed.

(** The node under a found target that is not module-internal is the node
    the locator returned. *)
Lemma traverseNode_root_node W fuel basePath id d st st' node :
  d ≤ MaxDepth (graph st) → id ∉ processedNodes st → namespaced id = false →
  findResourceNode W basePath id = Ok (Some node) →
  traverseNode W (S fuel) basePath id d st = Ok st' →
  Nodes (graph st') !! id = Some (setDepth node d).
Proof.
  intros Hd Hp Hns Hfind. rewrite traverseNode_step by done.
  set (s1 := markProcessed id st).
  destruct (if HasPrefix id "module." then _ else _) as [s2| |] eqn:Em; simpl; try done.
  assert (id ∈ processedNodes s2) as Hin.
  { destruct (HasPrefix id "module.").
    - apply (traverseModule_Changes W _ (traverseNode_Call W fuel) ∅) in Em
        as (new & Hc & _); [|set_solver..].
      apply (ch_processed _ _ _ _ _ Hc). set_solver.
    - injection Em as <-. set_solver. }
  unfold traverseResource. rewrite Hfind. simpl. intros H.
  apply (traverseReferences_Loop W _ (traverseNode_Call W fuel)) in H as (new & Hc & _).
  rewrite (ch_frozen _ _ _ _ _ Hc id Hin Hns). simpl. apply lookup_insert_eq.
Qed.

Lemma run_output_of_found_target (W : World) (g : Graph)
    (basePath targetID : string) (node : Node) (st' : State) :
  range_complete W →
  Nodes g = ∅ → 0 ≤ MaxDepth g < max_int →
  namespaced targetID = false →
  findResourceNode W basePath targetID = Ok (Some node) →
  buildDependencyGraph W g basePath targetID = Ok st' →
  Nodes (graph st') !! targetID = Some node
  ∧ (∀ nodes1 nodes2 nodes3,
       nodes1 ≡ₚ map_to_list (Nodes (graph st')) →
       nodes2 ≡ₚ map_to_list (Nodes (graph st')) →
       nodes3 ≡ₚ map_to_list (Nodes (graph st')) →
       generateDOTOn W nodes1 nodes2 nodes3
       = ["digraph terraform {" +:+ newline; "  rankdir = LR;" +:+ newline;
          "  compound = true;" +:+ newline +:+ newline]
         ++ writeNodeStyles
         ++ [rootLine targetID node; newline +:+ "  // Referenced nodes" +:+ newline]
         ++ writeReferencedOf W node
         ++ [newline +:+ "  // Dependencies" +:+ newline]
         ++ writeEdgesOf W node
         ++ ["}" +:+ newline])
  ∧ generateDOT W (graph st')
    = generateDOT W (mkGraph {[ targetID := node ]} (MaxDepth g)).
Proof.
  intros Hrange Hg HM Hns Hfind H.
  assert (Depth node = 0) as Hzero.
  { by apply findResourceNode_found in Hfind as (_ & _ & _ & _ & _ & _ & ? & _). }
  assert (setDepth node 0 = node) as Hset.
  { destruct node; simpl in *. by subst. }
  assert (Nodes (graph st') !! targetID = Some node) as Hroot.
  { rewrite <- Hset. unfold buildDependencyGraph, fuelFor in H.
    eapply traverseNode_root_node; [| | |exact Hfind|exact H]; simpl;
      [lia|apply not_elem_of_empty|done]. }
  assert (∀ k n, Nodes (graph st') !! k = Some n → Depth n = 0 → k = targetID) as Honly.
  { pose proof (buildDependencyGraph_Call _ _ _ _ _ H) as [Hc Hd].
    intros k n Hn Hz. destruct (ch_new _ _ _ _ _ Hc k n Hn) as [Hold|Hs].
    { simpl in Hold. by rewrite Hg, lookup_empty in Hold. }
    destruct (Hd _ _ Hs) as [[-> _]|[_ Hx]]; [done|]. simpl in Hx. lia. }
  assert (∀ nodes, nodes ≡ₚ map_to_list (Nodes (graph st')) →
            filter atDepthZero nodes = [(targetID, node)]) as Hfilter.
  { intros nodes Hp. by eapply only_root_at_depth_zero. }
  assert (∀ nodes1 nodes2 nodes3,
            nodes1 ≡ₚ map_to_list (Nodes (graph st')) →
            nodes2 ≡ₚ map_to_list (Nodes (graph st')) →
            nodes3 ≡ₚ map_to_list (Nodes (graph st')) →
            generateDOTOn W nodes1 nodes2 nodes3
            = generateDOTOn W [(targetID, node)] [(targetID, node)] [(targetID, node)])
    as Hone.
  { intros n1 n2 n3 H1 H2 H3. rewrite generateDOTOn_depth_zero.
    by rewrite (Hfilter n1 H1), (Hfilter n2 H2), (Hfilter n3 H3). }
  split; [done|]. split.
  - intros n1 n2 n3 H1 H2 H3. rewrite (Hone n1 n2 n3 H1 H2 H3).
    unfold generateDOTOn, writeNodesOn, writeDependenciesOn, writeRootNodes,
      writeReferencedNodes. simpl.
    rewrite (bool_decide_eq_true_2 _ Hzero). simpl. by rewrite !app_nil_r.
  - unfold generateDOT, generateDOTPieces. f_equal.
    rewrite (Hone _ _ _ (Hrange _ _) (Hrange _ _) (Hrange _ _)). simpl Nodes.
    assert (range W ({[targetID := node]} : gmap string Node) = [(targetID, node)]) as ->.
    { apply Permutation_singleton_r. rewrite (Hrange _ _). by rewrite map_to_list_singleton. }
    done.
Qed.

(** X10: the output for a found target. When the locator finds the target
    (not a module-internal key) and [MaxDepth] is between 0 and the largest
    [int], the graph a run builds holds the locator's node under the target
    and no other node of depth 0, whatever [MaxDepth] is; so the DOT text,
    for every order in which the three loops of the serializer enumerate
    the node map, is the text for the graph that holds the target alone:
    the target's line, one line per reference of the target and one edge
    per reference. Nodes found deeper never reach the output. *)
Theorem X10_output_of_found_target (W : World) (g : Graph)
    (basePath targetID : string) (node : Node) (st' : State) :
  range_complete W →
  Nodes g = ∅ → 0 ≤ MaxDepth g < max_int →
  namespaced targetID = false →
  findResourceNode W basePath targetID = Ok (Some node) →
  buildDependencyGraph W g basePath targetID = Ok st' →
  Nodes (graph st') !! targetID = Some node
  ∧ (∀ nodes1 nodes2 nodes3,
       nodes1 ≡ₚ map_to_list (Nodes (graph st')) →
       nodes2 ≡ₚ map_to_list (Nodes (graph st')) →
       nodes3 ≡ₚ map_to_list (Nodes (graph st')) →
       generateDOTOn W nodes1 nodes2 nodes3
       = ["digraph terraform {" +:+ newline; "  rankdir = LR;" +:+ newline;
          "  compound = true;" +:+ newline +:+ newline]
         ++ writeNodeStyles
         ++ [rootLine targetID node; newline +:+ "  // Referenced nodes" +:+ newline]
         ++ writeReferencedOf W node
         ++ [newline +:+ "  // Dependencies" +:+ newline]
         ++ writeEdgesOf W node
         ++ ["}" +:+ newline])
  ∧ generateDOT W (graph st')
    = generateDOT W (mkGraph {[ targetID := node ]} (MaxDepth g)).
Proof. apply run_output_of_found_target. Qed.

Lemma X10_output_of_found_target_witness :
  ∃ st', buildDependencyGraph Examples.cycleWorld (mkGraph ∅ 2) "/p" "aws_a.a" = Ok st'
    ∧ generateDOT Examples.cycleWorld (graph st')
      = generateDOT Examples.cycleWorld (mkGraph {[ "aws_a.a" := Examples.cycleNodeA ]} 2).
Proof.
  assert (findResourceNode Examples.cycleWorld "/p" "aws_a.a"
          = Ok (Some Examples.cycleNodeA)) as Hfind by (vm_compute; reflexivity).
  assert (0 ≤ MaxDepth (mkGraph ∅ 2) < max_int) as HM by (split; [discriminate|reflexivity]).
  assert (namespaced "aws_a.a" = false) as Hns by reflexivity.
  pose proof (X10_output_of_found_target Examples.cycleWorld (mkGraph ∅ 2) "/p"
                "aws_a.a" Examples.cycleNodeA) as Hrun.
  destruct (buildDependencyGraph Examples.cycleWorld (mkGraph ∅ 2) "/p" "aws_a.a")
    as [st| |] eqn:E; [|vm_compute in E; discriminate E..].
  exists st. split; [reflexivity|].
  exact (proj2 (proj2 (Hrun st (tableWorld_range_complete _ _ _ _) eq_refl HM Hns
                         Hfind eq_refl))).
Defined.

(** The text [generateDOT] returns for a graph without nodes of depth 0. *)
Definition emptyDigraph : string :=
  "digraph terraform {" +:+ newline
  +:+ "  rankdir = LR;" +:+ newline
  +:+ "  compound = true;" +:+ newline +:+ newline
  +:+ "  // Node styles" +:+ newline
  +:+ "  node [shape=box, style=rounded];" +:+ newline +:+ newline
  +:+ newline +:+ "  // Referenced nodes" +:+ newline
  +:+ newline +:+ "  // Dependencies" +:+ newline
  +:+ "}" +:+ newline.

(** X11: an unknown target. When the target does not start with
    [module.] and the locator finds no declaration for it, a run on an
    empty graph returns without storing anything, whatever [MaxDepth] is,
    and the DOT text is the empty digraph: the header, the node style and
    the two section comments. Nothing reports the miss. *)
Theorem X11_unknown_target (W : World) (g : Graph) (basePath targetID : string) :
  range_complete W →
  Nodes g = ∅ →
  HasPrefix targetID "module." = false →
  findResourceNode W basePath targetID = Ok None →
  ∃ st', buildDependencyGraph W g basePath targetID = Ok st'
    ∧ Nodes (graph st') = ∅
    ∧ generateDOT W (graph st') = emptyDigraph.
Proof.
  intros Hrange Hg Hm Hfind.
  assert (∃ st', buildDependencyGraph W g basePath targetID = Ok st'
                 ∧ Nodes (graph st') = ∅) as (st' & Hrun & Hnodes).
  { unfold buildDependencyGraph, fuelFor. simpl.
    destruct (bool_decide (0 > MaxDepth g)); simpl; [by eexists|].
    rewrite bool_decide_eq_false_2 by apply not_elem_of_empty. simpl.
    rewrite Hm. simpl. unfold traverseResource. rewrite Hfind. simpl. by eexists. }
  exists st'. split; [done|]. split; [done|].
  unfold generateDOT, generateDOTPieces. rewrite Hnodes.
  assert (range W (∅ : gmap string Node) = []) as ->.
  { apply Permutation_nil_r. rewrite (Hrange _ _). by rewrite map_to_list_empty. }
  reflexivity.
Qed.

Lemma X11_unknown_target_witness :
  ∃ st', buildDependencyGraph Examples.cycleWorld (mkGraph ∅ 2) "/p" "aws_c.c" = Ok st'
    ∧ Nodes (graph st') = ∅
    ∧ generateDOT Examples.cycleWorld (graph st') = emptyDigraph.
Proof.
  apply (X11_unknown_target Examples.cycleWorld (mkGraph ∅ 2) "/p" "aws_c.c").
  - apply tableWorld_range_complete.
  - reflexivity.
  - reflexivity.
  - vm_compute. reflexivity.
Defined.

(** ** Module expansion registers the whole directory *)

Section Registered.
Context (W : World).

(** Every declaration with an identifier in the [.tf] files of directory
    [p] that fit the expansion's schema has a node under
    [m/<identifier>]. *)
Definition registered (p m : string) (s : State) : Prop :=
  ∀ file body blocks block id,
    file ∈ findTerraformFiles W p →
    ParseHCLFile W file = Some body →
    Content moduleDirectorySchema body = Some blocks →
    block ∈ blocks → getBlockID block = Ok id → id ≠ "" →
    is_Some (Nodes (graph s) !! (m +:+ "/" +:+ id)).

(** From [st] to [st'] no key is lost, the history grows, and every
    module directory traversed in between is registered at the end. *)
Definition Grows (st st' : State) : Prop :=
  (∀ k, is_Some (Nodes (graph st) !! k) → is_Some (Nodes (graph st') !! k))
  ∧ ∃ new, history st' = history st ++ new
      ∧ ∀ p m d, EvModuleDirectory p m d ∈ new → registered p m st'.

Lemma registered_mono p m s s' :
  (∀ k, is_Some (Nodes (graph s) !! k) → is_Some (Nodes (graph s') !! k)) →
  registered p m s → registered p m s'.
Proof. intros Hmono Hr file body blocks block id ? ? ? ? ? ?. apply Hmono. by eapply Hr. Qed.

Lemma Grows_refl st : Grows st st.
Proof.
  split; [done|]. exists []. split; [by rewrite app_nil_r|]. by intros ? ? ? ?%elem_of_nil.
Qed.

Lemma Grows_trans a b c : Grows a b → Grows b c → Grows a c.
Proof.
  intros [M1 (n1 & H1 & R1)] [M2 (n2 & H2 & R2)]. split; [auto|].
  exists (n1 ++ n2). split; [by rewrite H2, H1, app_assoc|].
  intros p m d [He|He]%elem_of_app; [|eauto].
  eapply registered_mono; [exact M2|eauto].
Qed.

Lemma Grows_store st k n : Grows st (store k n st).
Proof.
  split.
  - intros k' Hk. simpl. destruct (decide (k = k')) as [->|Hne].
    + rewrite lookup_insert_eq. eauto.
    + by rewrite lookup_insert_ne.
  - exists [EvStore k (Depth n)]. split; [done|].
    intros p m d He. apply list_elem_of_singleton in He. discriminate He.
Qed.

Lemma Grows_mark st id : Grows st (markProcessed id st).
Proof.
  split; [done|]. exists []. split; [by rewrite app_nil_r|]. by intros ? ? ? ?%elem_of_nil.
Qed.

Lemma forEach_Grows {A} (body : A → State → res State) l st st' :
  (∀ x s s', x ∈ l → body x s = Ok s' → Grows s s') →
  forEach body l st = Ok st' → Grows st st'.
Proof.
  revert st. induction l as [|x l IH]; simpl; intros st Hb H.
  { injection H as <-. apply Grows_refl. }
  destruct (body x st) as [s| |] eqn:E; simpl in H; try done.
  eapply Grows_trans; [by eapply (Hb x); [left|]|].
  apply IH; [|done]. intros y s1 s2 Hy. apply Hb. by right.
Qed.

(** What each step of a loop establishes, when later steps keep it, holds
    for every element at the end. *)
Lemma forEach_hit {A} (Q : A → State → Prop) (body : A → State → res State) l st st' :
  (∀ x s s', x ∈ l → body x s = Ok s' → Grows s s' ∧ Q x s') →
  (∀ x s s', Grows s s' → Q x s → Q x s') →
  forEach body l st = Ok st' → ∀ x, x ∈ l → Q x st'.
Proof.
  revert st. induction l as [|x l IH]; simpl; intros st Hb Hq H y Hy.
  { by apply elem_of_nil in Hy. }
  destruct (body x st) as [s| |] eqn:E; simpl in H; try done.
  assert (∀ x0 s0 s', x0 ∈ l → body x0 s0 = Ok s' → Grows s0 s' ∧ Q x0 s') as Hb'.
  { intros x0 s0 s' Hx0. apply Hb. by right. }
  apply elem_of_cons in Hy as [->|Hy]; [|by eapply IH].
  destruct (Hb x st s ltac:(by left) E) as [_ Hx].
  eapply Hq; [|exact Hx]. eapply forEach_Grows; [|exact H].
  intros x0 s0 s' Hx0 Hs. by destruct (Hb' x0 s0 s' Hx0 Hs).
Qed.

Section WithRec.
Context (rec : Traverse).
Context (Hrec : ∀ basePath id d st st', rec basePath id d st = Ok st' → Grows st st').

Lemma processModuleReferences_Grows refs moduleID d moduleBasePath st st' :
  processModuleReferences W rec refs moduleID d moduleBasePath st = Ok st' →
  Grows st st'.
Proof.
  unfold processModuleReferences. apply forEach_Grows. intros entry s s' _.
  apply forEach_Grows. intros ref s1 s2 _. unfold processModuleReference.
  destruct (expandable (ref_ID ref)); [|intros [= <-]; apply Grows_refl].
  case_bool_decide; [intros [= <-]; apply Grows_refl|]. apply Hrec.
Qed.

(** One step of the loop of [processModuleBlocks]. *)
Lemma processModuleBlock_Grows block file moduleID d moduleBasePath s s' :
  processModuleBlocks W rec [block] file moduleID d moduleBasePath s = Ok s' →
  Grows s s'
  ∧ ∀ id, getBlockID block = Ok id → id ≠ "" →
      is_Some (Nodes (graph s') !! (moduleID +:+ "/" +:+ id)).
Proof.
  unfold processModuleBlocks. rewrite forEach_one.
  destruct (getBlockID block) as [currentID| |] eqn:Eid; simpl; try done.
  destruct (String.eqb_spec currentID "") as [->|Hne].
  { intros [= <-]. split; [apply Grows_refl|]. by intros id [= <-]. }
  destruct (lastLabel block) as [name| |]; simpl; try done.
  intros H. apply processModuleReferences_Grows in H.
  split; [eapply Grows_trans; [apply Grows_store|exact H]|].
  intros id [= <-] _. apply (proj1 H). simpl. rewrite lookup_insert_eq. eauto.
Qed.

Lemma processModuleBlocks_Grows blocks file moduleID d moduleBasePath st st' :
  processModuleBlocks W rec blocks file moduleID d moduleBasePath st = Ok st' →
  Grows st st'
  ∧ ∀ block id, block ∈ blocks → getBlockID block = Ok id → id ≠ "" →
      is_Some (Nodes (graph st') !! (moduleID +:+ "/" +:+ id)).
Proof.
  intros H.
  assert (∀ block s s', block ∈ blocks →
            processModuleBlocks W rec [block] file moduleID d moduleBasePath s = Ok s' →
            Grows s s'
            ∧ ∀ id, getBlockID block = Ok id → id ≠ "" →
                is_Some (Nodes (graph s') !! (moduleID +:+ "/" +:+ id))) as Hstep.
  { intros block s s' _. apply processModuleBlock_Grows. }
  unfold processModuleBlocks in *. split.
  - eapply forEach_Grows; [|exact H]. intros block s s' Hb Hs.
    apply (Hstep block s s' Hb). by rewrite forEach_one.
  - intros block id Hb. revert id.
    eapply (forEach_hit
              (λ block s, ∀ id, getBlockID block = Ok id → id ≠ "" →
                 is_Some (Nodes (graph s) !! (moduleID +:+ "/" +:+ id))));
      [| |exact H|exact Hb].
    + intros b s s' Hin Hs. apply (Hstep b s s' Hin). by rewrite forEach_one.
    + intros b s s' [Hmono _] Hq id0 Hid Hne. apply Hmono. by apply Hq.
Qed.

Lemma traverseModuleDirectory_Grows moduleBasePath moduleID d st st' :
  traverseModuleDirectory W rec moduleBasePath moduleID d st = Ok st' →
  Grows st st' ∧ registered moduleBasePath moduleID st'.
Proof.
  unfold traverseModuleDirectory. intros H.
  set (s0 := logModuleDirectory moduleBasePath moduleID d st) in *.
  assert (Grows s0 st' ∧ registered moduleBasePath moduleID st') as [Hg Hr].
  { destruct (findTerraformFiles W moduleBasePath) as [|file files] eqn:Efiles.
    { injection H as <-. split; [apply Grows_refl|].
      intros f body blocks block id Hf. rewrite Efiles in Hf. by apply elem_of_nil in Hf. }
    set (step := λ (f : string) (s : State),
           match ParseHCLFile W f with
           | None => Ok s
           | Some body =>
               match Content moduleDirectorySchema body with
               | None => Ok s
               | Some blocks =>
                   processModuleBlocks W rec blocks f moduleID d moduleBasePath s
               end
           end) in *.
    assert (∀ f s s', step f s = Ok s' →
              Grows s s'
              ∧ ∀ body blocks block id,
                  ParseHCLFile W f = Some body →
                  Content moduleDirectorySchema body = Some blocks →
                  block ∈ blocks → getBlockID block = Ok id → id ≠ "" →
                  is_Some (Nodes (graph s') !! (moduleID +:+ "/" +:+ id))) as Hstep.
    { intros f s s'. unfold step.
      destruct (ParseHCLFile W f) as [body|];
        [|intros [= <-]; split; [apply Grows_refl|by intros ? ? ? ? [=]]].
      destruct (Content moduleDirectorySchema body) as [blocks|] eqn:Ec.
      2:{ intros [= <-]. split; [apply Grows_refl|].
          intros ? ? ? ? [= <-] Hc. by rewrite Hc in Ec. }
      intros Hs. apply processModuleBlocks_Grows in Hs as [Hg Hq].
      split; [done|]. intros ? ? block id [= <-] Hc. rewrite Hc in Ec.
      injection Ec as ->. by apply Hq. }
    split.
    - eapply forEach_Grows; [|exact H]. intros f s s' _ Hs.
      by destruct (Hstep f s s' Hs).
    - intros f body blocks block id Hf. revert body blocks block id.
      eapply (forEach_hit
                (λ f s, ∀ body blocks block id,
                   ParseHCLFile W f = Some body →
                   Content moduleDirectorySchema body = Some blocks →
                   block ∈ blocks → getBlockID block = Ok id → id ≠ "" →
                   is_Some (Nodes (graph s) !! (moduleID +:+ "/" +:+ id)))
                step); [| |exact H|by rewrite <- Efiles].
      + intros f0 s s' _. apply Hstep.
      + intros f0 s s' [Hmono _] Hq b bs bl i ? ? ? ? ?. apply Hmono. by eapply Hq. }
  split; [|done]. destruct Hg as [Hmono (new & Hh & Hreg)]. split; [done|].
  exists (EvModuleDirectory moduleBasePath moduleID d :: new). split.
  - rewrite Hh. simpl. by rewrite <- app_assoc.
  - intros p m d' [[= -> -> ->]|He]%elem_of_cons; eauto.
Qed.

Lemma traverseReferences_Grows basePath refs d st st' :
  traverseReferences W rec basePath refs d st = Ok st' → Grows st st'.
Proof.
  unfold traverseReferences. apply forEach_Grows. intros entry s s' _.
  apply forEach_Grows. intros ref s1 s2 _. unfold traverseReference.
  destruct (expandable (ref_ID ref)); [|intros [= <-]; apply Grows_refl]. apply Hrec.
Qed.

Lemma traverseModule_Grows basePath id d st st' :
  traverseModule W rec basePath id d st = Ok st' →
  Grows st st'
  ∧ ∀ name path mnode, moduleNameOf id = Ok name →
      findModuleNode W basePath ("module." +:+ name) = Ok (path, mnode) → path ≠ "" →
      registered (resolvePath W basePath path) ("module." +:+ name) st'.
Proof.
  unfold traverseModule.
  destruct (moduleNameOf id) as [name| |]; simpl; try done.
  destruct (findModuleNode W basePath ("module." +:+ name)) as [[path mnode]| |] eqn:Ef;
    simpl; try done.
  destruct (String.eqb_spec path "") as [->|Hne].
  { intros [= <-]. split; [apply Grows_refl|].
    intros ? ? ? [= <-] Hf. rewrite Ef in Hf. by injection Hf as <- _. }
  intros H. apply traverseModuleDirectory_Grows in H as [Hg Hr]. split.
  - eapply Grows_trans; [apply Grows_store|exact Hg].
  - intros ? ? ? [= <-] Hf _. rewrite Ef in Hf. by injection Hf as <- _.
Qed.

Lemma traverseResource_Grows basePath id d st st' :
  traverseResource W rec basePath id d st = Ok st' → Grows st st'.
Proof.
  unfold traverseResource.
  destruct (findResourceNode W basePath id) as [[node|]| |]; simpl; try done.
  - intros H. apply traverseReferences_Grows in H.
    eapply Grows_trans; [apply Grows_store|exact H].
  - intros [= <-]. apply Grows_refl.
Qed.

End WithRec.

Lemma traverseNode_Grows fuel basePath id d st st' :
  traverseNode W fuel basePath id d st = Ok st' → Grows st st'.
Proof.
  revert basePath id d st st'. induction fuel as [|fuel IH]; intros basePath id d st st'; simpl.
  { destruct (_ || _); [|done]. intros [= <-]. apply Grows_refl. }
  destruct (_ || _); [intros [= <-]; apply Grows_refl|].
  destruct (if HasPrefix id "module." then _ else _) as [s2| |] eqn:Em; simpl; try done.
  intros H. apply (traverseResource_Grows _ IH) in H.
  eapply Grows_trans; [|exact H].
  eapply Grows_trans; [apply (Grows_mark st id)|].
  destruct (HasPrefix id "module."); [|injection Em as <-; apply Grows_refl].
  by apply (traverseModule_Grows _ IH) in Em as [? _].
Qed.

End Registered.

(** X12: a traversed module directory is registered whole. After a run,
    for every module directory the run traversed, every declaration with
    an identifier (resource, data, module, output) in the [.tf] files of
    that directory that parse and fit the schema has a node under
    [module.<name>/<identifier>]; and no key that was in the graph before
    the run is lost. In particular, for a target that starts with
    [module.] and whose module resolves, the declarations of the module's
    directory are all in the graph, whatever [MaxDepth ≥ 0] is. *)
Theorem X12_module_directory_registered (W : World) (g : Graph)
    (basePath targetID : string) (st' : State) :
  buildDependencyGraph W g basePath targetID = Ok st' →
  (∀ k, is_Some (Nodes g !! k) → is_Some (Nodes (graph st') !! k))
  ∧ (∀ p m d, EvModuleDirectory p m d ∈ history st' → registered W p m st')
  ∧ (0 ≤ MaxDepth g → HasPrefix targetID "module." = true →
     ∀ name path mnode, moduleNameOf targetID = Ok name →
       findModuleNode W basePath ("module." +:+ name) = Ok (path, mnode) → path ≠ "" →
       registered W (resolvePath W basePath path) ("module." +:+ name) st').
Proof.
  intros H. pose proof (traverseNode_Grows W _ _ _ _ _ _ H) as [Hmono (new & Hh & Hreg)].
  split; [exact Hmono|]. split.
  - intros p m d. simpl in Hh. rewrite Hh. apply Hreg.
  - intros HM Hp name path mnode Hname Hfind Hne.
    unfold buildDependencyGraph, fuelFor in H.
    rewrite traverseNode_step in H; [|simpl; lia|apply not_elem_of_empty].
    rewrite Hp in H.
    destruct (traverseModule W _ basePath targetID 0 _) as [s2| |] eqn:Em;
      simpl in H; try done.
    apply (traverseModule_Grows W _ (traverseNode_Grows W _)) in Em as [_ Hr].
    apply (traverseResource_Grows W _ (traverseNode_Grows W _)) in H as [Hm2 _].
    eapply registered_mono; [exact Hm2|]. by eapply Hr.
Qed.

Lemma X12_module_directory_registered_witness :
  ∃ st', buildDependencyGraph Examples.moduleWorld (mkGraph ∅ 0) "/p" "module.net" = Ok st'
    ∧ registered Examples.moduleWorld "/p/net" "module.net" st'.
Proof.
  assert (moduleNameOf "module.net" = Ok "net") as Hname by reflexivity.
  assert (findModuleNode Examples.moduleWorld "/p" ("module." +:+ "net")
          = Ok ("/p/net", Examples.netModuleNode)) as Hfind by (vm_compute; reflexivity).
  assert ("/p/net" ≠ "") as Hne by discriminate.
  assert (0 ≤ MaxDepth (mkGraph ∅ 0)) as HM by discriminate.
  pose proof (X12_module_directory_registered Examples.moduleWorld (mkGraph ∅ 0) "/p"
                "module.net") as Hrun.
  destruct (buildDependencyGraph Examples.moduleWorld (mkGraph ∅ 0) "/p" "module.net")
    as [st| |] eqn:E; [|vm_compute in E; discriminate E..].
  exists st. split; [reflexivity|].
  exact (proj2 (proj2 (Hrun st eq_refl)) HM eq_refl "net" "/p/net" Examples.netModuleNode
           Hname Hfind Hne).
Defined.

(** ** When a module resolves, and when the resolver panics *)

Lemma findModuleInBlocks_complete W blocks basePath moduleID moduleName file :
  (∀ block, block ∈ blocks → inSchema moduleSchema block = true) →
  (∀ block attr v, block ∈ blocks → blk_Type block = "module" →
     blk_Attributes block !! "source" = Some attr → attr_Value attr = Some v →
     isStringTyped v = true) →
  (∃ block path, block ∈ blocks ∧ relativeCall W basePath moduleName block path) →
  ∃ found,
    findModuleInBlocks W blocks basePath moduleID moduleName file = Ok (Some found).
Proof.
  intros Hs Hv. induction blocks as [|block blocks IH]; intros (b & p & Hb & Hr).
  { by apply elem_of_nil in Hb. }
  simpl.
  assert ((b = block → False) →
          ∃ found,
            findModuleInBlocks W blocks basePath moduleID moduleName file
              = Ok (Some found)) as Hnext.
  { intros Hne. apply IH.
    - intros b' Hb'. apply Hs. by right.
    - intros b' a v Hb'. apply Hv. by right.
    - exists b, p. split; [|done]. apply elem_of_cons in Hb as [?|?]; [by destruct Hne|done]. }
  destruct (moduleSchema_labels block) as [Ht [l Hl]]; [apply Hs; by left|].
  rewrite Ht. simpl. unfold label. rewrite Hl. simpl.
  destruct (String.eqb_spec l moduleName) as [->|Hne].
  2:{ apply Hnext. intros ->. destruct Hr as (_ & Hl' & _). congruence. }
  destruct (blk_Attributes block !! "source") as [sourceAttr|] eqn:Ea.
  2:{ apply Hnext. intros ->. destruct Hr as (_ & _ & a & sp & Ha & _). congruence. }
  destruct (attr_Value sourceAttr) as [sourceVal|] eqn:Ev.
  2:{ apply Hnext. intros ->. destruct Hr as (_ & _ & a & sp & Ha & Hv' & _). congruence. }
  pose proof (Hv block sourceAttr sourceVal ltac:(by left) Ht Ea Ev) as Hstr.
  destruct sourceVal as [sourcePath| | |]; try done. simpl.
  destruct (HasPrefix sourcePath ".") eqn:Ep.
  2:{ apply Hnext. intros ->. destruct Hr as (_ & _ & a & sp & Ha & Hv' & Hp & _).
      congruence. }
  destruct (Stat W (filepath_Join W basePath sourcePath)) eqn:Es.
  2:{ apply Hnext. intros ->. destruct Hr as (_ & _ & a & sp & Ha & Hv' & Hp & -> & Hst).
      congruence. }
  by eexists.
Qed.

Lemma stringSources_blocks W file body blocks :
  stringSources W → ParseHCLFile W file = Some body →
  Content moduleSchema body = Some blocks →
  ∀ block attr v, block ∈ blocks → blk_Type block = "module" →
    blk_Attributes block !! "source" = Some attr → attr_Value attr = Some v →
    isStringTyped v = true.
Proof.
  intros Hv Hp Hc block attr v Hb. apply (Hv file body); [done|].
  by rewrite <- (Content_blocks _ _ _ Hc).
Qed.

Lemma findModuleNodeIn_complete W files basePath moduleID moduleName :
  stringSources W →
  (∃ file body block path,
     file ∈ files ∧ ParseHCLFile W file = Some body
     ∧ Content moduleSchema body = Some (body_Blocks body)
     ∧ block ∈ body_Blocks body
     ∧ relativeCall W basePath moduleName block path) →
  ∃ path file block,
    findModuleNodeIn W files basePath moduleID moduleName
    = Ok (path, mkNode moduleID "module" moduleName file
                  (extractReferences W block file) 0)
    ∧ file ∈ files
    ∧ relativeCall W basePath moduleName block path.
Proof.
  intros Hv. induction files as [|file files IH];
    intros (f & body & b & p & Hf & Hparse & Hc & Hb & Hr).
  { by apply elem_of_nil in Hf. }
  simpl.
  assert ((f = file → False) →
          ∃ path file0 block,
            findModuleNodeIn W files basePath moduleID moduleName
            = Ok (path, mkNode moduleID "module" moduleName file0
                          (extractReferences W block file0) 0)
            ∧ file0 ∈ file :: files
            ∧ relativeCall W basePath moduleName block path) as Hnext.
  { intros Hne. destruct IH as (path & file0 & block & E & Hin & Hrel).
    - exists f, body, b, p.
      split; [|done]. apply elem_of_cons in Hf as [?|?]; [by destruct Hne|done].
    - exists path, file0, block. split; [done|]. split; [by right|done]. }
  destruct (ParseHCLFile W file) as [body'|] eqn:Ep.
  2:{ apply Hnext. intros ->. congruence. }
  destruct (Content moduleSchema body') as [blocks|] eqn:Ec.
  2:{ apply Hnext. intros ->. congruence. }
  destruct (findModuleInBlocks W blocks basePath moduleID moduleName file)
    as [[[p' n']|]| |] eqn:E; simpl.
  - apply findModuleInBlocks_sound in E as (b' & _ & Hr' & ->).
    + exists p', file, b'. split; [done|]. split; [by left|done].
    + intros b0 Hb0. by eapply Content_inSchema.
  - apply Hnext. intros ->. rewrite Hparse in Ep. injection Ep as <-.
    rewrite Hc in Ec. injection Ec as <-.
    destruct (findModuleInBlocks_complete W (body_Blocks body) basePath moduleID
                moduleName file) as (? & E').
    + intros b0 Hb0. by eapply Content_inSchema.
    + by eapply stringSources_blocks.
    + by exists b, p.
    + congruence.
  - exfalso. revert E. apply findModuleInBlocks_no_panic.
    + intros b0 Hb0. by eapply Content_inSchema.
    + by eapply stringSources_blocks.
  - exfalso. revert E. apply findModuleInBlocks_fuel.
Qed.

(** X13: when a module resolves. If every module source that evaluates
    is a string, and some [.tf] file of the directory that fits the
    resolver's schema holds a call of the module with a relative source
    that exists on disk, [findModuleNode] returns the path of such a call
    and the node built from it, with the identifier asked for: under
    that condition the resolver returns from inside its loop exactly when
    such a call exists. *)
Theorem X13_module_resolver_complete (W : World) (basePath moduleID : string) :
  stringSources W →
  (∃ file body block path,
     file ∈ findTerraformFiles W basePath
     ∧ ParseHCLFile W file = Some body
     ∧ Content moduleSchema body = Some (body_Blocks body)
     ∧ block ∈ body_Blocks body
     ∧ relativeCall W basePath (hd "" (Split (TrimPrefix moduleID "module.") dot))
         block path) →
  ∃ path file block,
    findModuleNode W basePath moduleID
    = Ok (path, mkNode moduleID "module"
                  (hd "" (Split (TrimPrefix moduleID "module.") dot)) file
                  (extractReferences W block file) 0)
    ∧ file ∈ findTerraformFiles W basePath
    ∧ relativeCall W basePath (hd "" (Split (TrimPrefix moduleID "module.") dot))
        block path.
Proof.
  intros Hv Hex. unfold findModuleNode. rewrite resolver_name.
  by apply findModuleNodeIn_complete.
Qed.

Lemma X13_module_resolver_complete_witness :
  ∃ path file block,
    findModuleNode Examples.moduleWorld "/p" "module.net.id"
    = Ok (path, mkNode "module.net.id" "module"
                  (hd "" (Split (TrimPrefix "module.net.id" "module.") dot)) file
                  (extractReferences Examples.moduleWorld block file) 0)
    ∧ file ∈ findTerraformFiles Examples.moduleWorld "/p"
    ∧ relativeCall Examples.moduleWorld "/p"
        (hd "" (Split (TrimPrefix "module.net.id" "module.") dot)) block path.
Proof.
  apply (X13_module_resolver_complete Examples.moduleWorld "/p" "module.net.id").
  - apply moduleWorld_stringSources.
  - exists "/p/mods.tf", (Examples.modsBody (CtyString "./net")),
      (mkBlock "module" ["net"] {[ "source" := Examples.literal (CtyString "./net") ]}),
      "/p/net".
    split; [vm_compute; set_solver|]. split; [reflexivity|]. split; [reflexivity|].
    split; [simpl; set_solver|].
    split; [reflexivity|]. split; [reflexivity|].
    exists (Examples.literal (CtyString "./net")), "./net".
    split; [reflexivity|]. split; [reflexivity|]. split; [reflexivity|].
    split; reflexivity.
Defined.

Lemma Split_no_sep s sep x : x ∈ Split s sep → Contains x sep = false.
Proof.
  revert x. induction s as [|c s IH]; simpl; intros x.
  { by intros ->%list_elem_of_singleton. }
  destruct (Ascii.eqb c sep) eqn:E.
  - intros [->|Hx]%elem_of_cons; [done|by apply IH].
  - destruct (Split s sep) as [|piece pieces] eqn:Es.
    + intros ->%list_elem_of_singleton. simpl. by rewrite E.
    + intros [->|Hx]%elem_of_cons.
      * simpl. rewrite E. simpl. apply IH. by left.
      * apply IH. by right.
Qed.

(** The name [traverseNode] reads off an identifier has no dot, so the
    resolver looks for that very name. *)
Lemma moduleNameOf_resolver nodeID name :
  moduleNameOf nodeID = Ok name →
  hd "" (Split (TrimPrefix ("module." +:+ name) "module.") dot) = name.
Proof.
  unfold moduleNameOf. destruct (Split nodeID dot !! 1%nat) as [m|] eqn:Em; [|done].
  assert (Contains m dot = false) as Hm.
  { apply (Split_no_sep nodeID). by eapply list_elem_of_lookup_2. }
  apply Cut_None in Hm. unfold SplitN2. rewrite Hm. intros [= <-].
  rewrite TrimPrefix_module, Split_Cut, Hm. done.
Qed.

(** The blocks the resolver reads in a file. *)
Definition resolverBlocks (W : World) (file : string) : list Block :=
  match ParseHCLFile W file with
  | Some body => default [] (Content moduleSchema body)
  | None => []
  end.

Lemma resolverBlocks_inSchema W file block :
  block ∈ resolverBlocks W file → inSchema moduleSchema block = true.
Proof.
  unfold resolverBlocks. destruct (ParseHCLFile W file) as [body|]; [|by intros ?%elem_of_nil].
  destruct (Content moduleSchema body) as [blocks|] eqn:E; [|by intros ?%elem_of_nil].
  intros Hb. exact (Content_inSchema _ _ _ _ E Hb).
Qed.

Lemma findModuleInBlocks_panics W before block after basePath moduleID moduleName file
    attr v :
  (∀ b, b ∈ before ++ block :: after → inSchema moduleSchema b = true) →
  (∀ b, b ∈ before → blk_Labels b ≠ [moduleName]) →
  blk_Labels block = [moduleName] →
  blk_Attributes block !! "source" = Some attr → attr_Value attr = Some v →
  isStringTyped v = false →
  findModuleInBlocks W (before ++ block :: after) basePath moduleID moduleName file = Panic.
Proof.
  intros Hs Hbefore Hl Ha Hv Hstr. induction before as [|b before IH]; simpl.
  - destruct (moduleSchema_labels block) as [Ht _]; [apply Hs; by left|].
    rewrite Ht. simpl. unfold label. rewrite Hl. simpl. rewrite String.eqb_refl.
    rewrite Ha, Hv. by destruct v.
  - destruct (moduleSchema_labels b) as [Ht [l Hlb]]; [apply Hs; by left|].
    rewrite Ht. simpl. unfold label. rewrite Hlb. simpl.
    destruct (String.eqb_spec l moduleName) as [->|_].
    { destruct (Hbefore b ltac:(by left)). done. }
    apply IH.
    + intros b' Hb'. apply Hs. by right.
    + intros b' Hb'. apply Hbefore. by right.
Qed.

Lemma findModuleInBlocks_other W blocks basePath moduleID moduleName file :
  (∀ b, b ∈ blocks → inSchema moduleSchema b = true) →
  (∀ b, b ∈ blocks → blk_Labels b ≠ [moduleName]) →
  findModuleInBlocks W blocks basePath moduleID moduleName file = Ok None.
Proof.
  intros Hs Hl. induction blocks as [|b blocks IH]; simpl; [done|].
  destruct (moduleSchema_labels b) as [Ht [l Hlb]]; [apply Hs; by left|].
  rewrite Ht. simpl. unfold label. rewrite Hlb. simpl.
  destruct (String.eqb_spec l moduleName) as [->|_].
  { destruct (Hl b ltac:(by left)). done. }
  apply IH.
  - intros b' Hb'. apply Hs. by right.
  - intros b' Hb'. apply Hl. by right.
Qed.

Lemma findModuleNodeIn_blocks W files basePath moduleID moduleName :
  findModuleNodeIn W files basePath moduleID moduleName =
  match files with
  | [] => Ok ("", emptyNode)
  | file :: rest =>
      r ← findModuleInBlocks W (resolverBlocks W file) basePath moduleID moduleName file;
      match r with
      | Some found => Ok found
      | None => findModuleNodeIn W rest basePath moduleID moduleName
      end
  end.
Proof.
  destruct files as [|file rest]; [done|]. simpl. unfold resolverBlocks.
  destruct (ParseHCLFile W file) as [body|]; [|done].
  by destruct (Content moduleSchema body).
Qed.

(** X14: a module source that is not a string. When the first call of
    the module that the resolver meets, in walk and source order, has a
    [source] that evaluates to a value that is not a string (a number, a
    bool, null), [findModuleNode] panics in [AsString], and so does a run
    on a target of that module: no graph is built. *)
Theorem X14_non_string_source_panics (W : World) (g : Graph)
    (basePath targetID name : string) (earlier later : list string) (file : string)
    (before after : list Block) (block : Block) (attr : Attribute) (v : ctyValue) :
  0 ≤ MaxDepth g →
  HasPrefix targetID "module." = true →
  moduleNameOf targetID = Ok name →
  findTerraformFiles W basePath = earlier ++ file :: later →
  (∀ f b, f ∈ earlier → b ∈ resolverBlocks W f → blk_Labels b ≠ [name]) →
  resolverBlocks W file = before ++ block :: after →
  (∀ b, b ∈ before → blk_Labels b ≠ [name]) →
  blk_Labels block = [name] →
  blk_Attributes block !! "source" = Some attr → attr_Value attr = Some v →
  isStringTyped v = false →
  findModuleNode W basePath ("module." +:+ name) = Panic
  ∧ buildDependencyGraph W g basePath targetID = Panic.
Proof.
  intros HM Hp Hname Hfiles Hearlier Hblocks Hbefore Hl Ha Hv Hstr.
  assert (findModuleNode W basePath ("module." +:+ name) = Panic) as Hpanic.
  { unfold findModuleNode. rewrite resolver_name, (moduleNameOf_resolver _ _ Hname), Hfiles.
    clear Hfiles. induction earlier as [|f earlier IH]; rewrite findModuleNodeIn_blocks; simpl.
    - rewrite Hblocks. erewrite findModuleInBlocks_panics; try done.
      intros b Hb. apply (resolverBlocks_inSchema W file). by rewrite Hblocks.
    - rewrite findModuleInBlocks_other.
      + simpl. apply IH. intros f' b Hf'. apply Hearlier. by right.
      + apply resolverBlocks_inSchema.
      + intros b Hb. apply (Hearlier f); [by left|done]. }
  split; [done|].
  unfold buildDependencyGraph, fuelFor.
  rewrite traverseNode_step; [|simpl; lia|apply not_elem_of_empty].
  rewrite Hp. unfold traverseModule. rewrite Hname. simpl. by rewrite Hpanic.
Qed.

Lemma X14_non_string_source_panics_witness :
  findModuleNode (Examples.moduleWorldWith (CtyNumber 5)) "/p" ("module." +:+ "net") = Panic
  ∧ buildDependencyGraph (Examples.moduleWorldWith (CtyNumber 5)) (mkGraph ∅ 3) "/p"
      "module.net.id" = Panic.
Proof.
  apply (X14_non_string_source_panics (Examples.moduleWorldWith (CtyNumber 5))
           (mkGraph ∅ 3) "/p" "module.net.id" "net" ["/p/main.tf"] ["/p/net/main.tf"]
           "/p/mods.tf" []
           [] (mkBlock "module" ["net"] {[ "source" := Examples.literal (CtyNumber 5) ]})
           (Examples.literal (CtyNumber 5)) (CtyNumber 5)).
  - discriminate.
  - reflexivity.
  - reflexivity.
  - vm_compute. reflexivity.
  - intros f b ->%list_elem_of_singleton Hb. vm_compute in Hb. by apply elem_of_nil in Hb.
  - vm_compute. reflexivity.
  - by intros b ?%elem_of_nil.
  - reflexivity.
  - reflexivity.
  - reflexivity.
  - reflexivity.
Defined.

(** ** The references of the nodes of a graph, and their colours *)

(** The colours [writeNodes] uses for the four categories the extractor
    knows. *)
Definition categoryColors : list string :=
  ["#FFB6C1"; "#98FB98"; "#87CEEB"; "#DDA0DD"].

Lemma colorOf_category prefix : colorOf (category prefix) ∈ categoryColors.
Proof.
  unfold category, categoryColors.
  repeat (destruct (String.eqb prefix _); [vm_compute; set_solver|]).
  vm_compute. set_solver.
Qed.

(** X15: the references a graph holds. After [buildDependencyGraph] on
    an empty graph, for every node and every category of its references:
    the category is one of variable, module, data and resource, so the
    serializer colours it with one of the four colours of these categories
    and never with the colour of [output] or the default colour; the list
    is not empty and holds no identifier twice; and every reference carries
    the path of the node that holds it, the file of the referring
    declaration, not the file where the referenced object is declared. *)
Theorem X15_references_of_graph_nodes (W : World) (g : Graph)
    (basePath targetID : string) (st' : State) :
  Nodes g = ∅ →
  buildDependencyGraph W g basePath targetID = Ok st' →
  ∀ k n c refs, Nodes (graph st') !! k = Some n → References n !! c = Some refs →
    c ∈ ["variable"; "module"; "data"; "resource"]
    ∧ colorOf c ∈ categoryColors
    ∧ refs ≠ []
    ∧ NoDup (ref_ID <$> refs)
    ∧ ∀ r, r ∈ refs → ref_Path r = Path n.
Proof.
  intros Hg Hrun k n c refs Hn Hc.
  destruct (run_nodes_declared W g basePath targetID st' Hg Hrun k n Hn)
    as [(dir & file & body & block & schema & _ & _ & _ & _ & _ & Hpath & _ & _ & Hrefs) _].
  rewrite Hrefs, Hpath in *.
  destruct (extractReferences_lookup _ _ _ _ _ Hc) as [-> Hne].
  assert (∀ r, r ∈ firstSeen [] (seenIn file c (variablesOf W block)) →
            ∃ v, classify file v = Some (c, r)) as Hcl.
  { intros r Hr. destruct (proj1 (extractReferences_elem W block file c r))
      as (v & _ & ?); eauto. }
  assert (∃ prefix, c = category prefix) as [prefix ->].
  { destruct (firstSeen [] (seenIn file c (variablesOf W block))) as [|r l'] eqn:E; [done|].
    destruct (Hcl r ltac:(by left)) as (v & Hv).
    apply classify_Some in Hv as (prefix & rest & _ & _ & -> & _). by exists prefix. }
  split; [apply category_known|]. split; [apply colorOf_category|].
  split; [done|]. split; [apply firstSeen_NoDup|].
  intros r Hr. destruct (Hcl r Hr) as (v & Hv).
  by apply classify_Some in Hv as (? & ? & _ & _ & _ & ->).
Qed.

Lemma X15_references_of_graph_nodes_witness :
  ∃ st', buildDependencyGraph Examples.moduleWorld (mkGraph ∅ 1) "/p" "aws_a.a" = Ok st'
    ∧ ∀ k n c refs, Nodes (graph st') !! k = Some n → References n !! c = Some refs →
        c ∈ ["variable"; "module"; "data"; "resource"]
        ∧ colorOf c ∈ categoryColors
        ∧ refs ≠ []
        ∧ NoDup (ref_ID <$> refs)
        ∧ ∀ r, r ∈ refs → ref_Path r = Path n.
Proof.
  pose proof (X15_references_of_graph_nodes Examples.moduleWorld (mkGraph ∅ 1) "/p"
                "aws_a.a") as Hrun.
  destruct (buildDependencyGraph Examples.moduleWorld (mkGraph ∅ 1) "/p" "aws_a.a")
    as [st| |] eqn:E; [|vm_compute in E; discriminate E..].
  exists st. split; [reflexivity|].
  exact (Hrun st eq_refl eq_refl).
Defined.

(** ** What the serializer writes for a graph *)

(** X16: nothing of a depth-0 node is left out. For every graph, the
    pieces [generateDOT] writes begin with the [digraph] header and end
    with the closing brace, and hold every fixed piece and, for every node
    of depth 0, its line, the line of each of its references in the colour
    of the reference's category, and the edge from each reference to the
    node's [ID]. *)
Theorem X16_rendering_complete (W : World) (g : Graph) :
  range_complete W →
  (∃ middle, generateDOTPieces W g
             = ("digraph terraform {" +:+ newline) :: middle ++ ["}" +:+ newline])
  ∧ ∀ piece,
      (piece ∈ fixedPieces
       ∨ ∃ id node, Nodes g !! id = Some node ∧ Depth node = 0 ∧ pieceOf id node piece) →
      piece ∈ generateDOTPieces W g.
Proof.
  intros Hr. split.
  { unfold generateDOTPieces, generateDOTOn. eexists. simpl.
    f_equal. rewrite !app_comm_cons. rewrite !app_assoc. reflexivity. }
  intros piece H. unfold generateDOTPieces. apply elem_of_generateDOTOn.
  destruct H as [H|(id & node & Hn & Hd & Hp)]; [by left|right].
  apply (range_elem W _ _ _ Hr) in Hn.
  destruct Hp as [->|(c & refs & ref & Hc & Hin & [->| ->])].
  - left. eauto.
  - right. left. exists id, node. split; [done|]. split; [done|].
    apply elem_of_writeReferencedOf. exists c, refs, ref.
    split; [by apply (range_elem W _ _ _ Hr)|done].
  - right. right. exists id, node. split; [done|]. split; [done|].
    apply elem_of_writeEdgesOf. exists c, refs, ref.
    split; [by apply (range_elem W _ _ _ Hr)|done].
Qed.

Lemma X16_rendering_complete_witness :
  (∃ middle, generateDOTPieces Examples.cycleWorld Examples.twoLevelGraph
             = ("digraph terraform {" +:+ newline) :: middle ++ ["}" +:+ newline])
  ∧ ∀ piece,
      (piece ∈ fixedPieces
       ∨ ∃ id node, Nodes Examples.twoLevelGraph !! id = Some node ∧ Depth node = 0
                    ∧ pieceOf id node piece) →
      piece ∈ generateDOTPieces Examples.cycleWorld Examples.twoLevelGraph.
Proof.
  apply (X16_rendering_complete Examples.cycleWorld Examples.twoLevelGraph).
  apply tableWorld_range_complete.
Defined.

(** ** A run does not read the node map *)

(** The state with the nodes [old] added below the nodes of [s]. *)
Definition withNodes (old : gmap string Node) (s : State) : State :=
  mkState (mkGraph (Nodes (graph s) ∪ old) (MaxDepth (graph s)))
          (processedNodes s) (history s).

Definition mapRes {A B} (f : A → B) (r : res A) : res B :=
  match r with
  | Ok a => Ok (f a)
  | Panic => Panic
  | OutOfFuel => OutOfFuel
  end.

Section NodesUnread.
Context (W : World) (old : gmap string Node).

(** [f] does the same on a state with [old] added. *)
Definition Frame (f : State → res State) : Prop :=
  ∀ s, f (withNodes old s) = mapRes (withNodes old) (f s).

Lemma withNodes_store k n s : store k n (withNodes old s) = withNodes old (store k n s).
Proof. unfold store, withNodes. simpl. by rewrite insert_union_l. Qed.

Lemma Frame_forEach {A} (body : A → State → res State) l :
  (∀ x, x ∈ l → Frame (body x)) → Frame (forEach body l).
Proof.
  induction l as [|x l IH]; intros Hb s; simpl; [done|].
  rewrite (Hb x ltac:(by left)). destruct (body x s) as [s1| |]; simpl; [|done..].
  apply IH. intros y Hy. apply Hb. by right.
Qed.

Section WithRec.
Context (rec : Traverse).
Context (Hrec : ∀ basePath id d, Frame (rec basePath id d)).

Lemma Frame_processModuleReferences refs moduleID d moduleBasePath :
  Frame (processModuleReferences W rec refs moduleID d moduleBasePath).
Proof.
  unfold processModuleReferences. apply Frame_forEach. intros entry _.
  apply Frame_forEach. intros ref _ s. unfold processModuleReference.
  destruct (expandable (ref_ID ref)); [|done]. simpl.
  destruct (bool_decide (_ ∈ processedNodes s)); [done|]. apply Hrec.
Qed.

Lemma Frame_processModuleBlocks blocks file moduleID d moduleBasePath :
  Frame (processModuleBlocks W rec blocks file moduleID d moduleBasePath).
Proof.
  unfold processModuleBlocks. apply Frame_forEach. intros block _ s.
  destruct (getBlockID block) as [currentID| |]; simpl; [|done..].
  destruct (String.eqb currentID ""); [done|].
  destruct (lastLabel block) as [name| |]; simpl; [|done..].
  rewrite withNodes_store. apply Frame_processModuleReferences.
Qed.

Lemma Frame_traverseModuleDirectory moduleBasePath moduleID d :
  Frame (traverseModuleDirectory W rec moduleBasePath moduleID d).
Proof.
  intros s. unfold traverseModuleDirectory.
  change (logModuleDirectory moduleBasePath moduleID d (withNodes old s))
    with (withNodes old (logModuleDirectory moduleBasePath moduleID d s)).
  destruct (findTerraformFiles W moduleBasePath) as [|file files]; [done|].
  apply Frame_forEach. intros f _ s'.
  destruct (ParseHCLFile W f) as [body|]; [|done].
  destruct (Content moduleDirectorySchema body) as [blocks|]; [|done].
  apply Frame_processModuleBlocks.
Qed.

Lemma Frame_traverseReferences basePath refs d :
  Frame (traverseReferences W rec basePath refs d).
Proof.
  unfold traverseReferences. apply Frame_forEach. intros entry _.
  apply Frame_forEach. intros ref _ s. unfold traverseReference.
  destruct (expandable (ref_ID ref)); [|done]. apply Hrec.
Qed.

Lemma Frame_traverseModule basePath id d : Frame (traverseModule W rec basePath id d).
Proof.
  intros s. unfold traverseModule.
  destruct (moduleNameOf id) as [name| |]; simpl; [|done..].
  destruct (findModuleNode W basePath ("module." +:+ name)) as [[path mnode]| |];
    simpl; [|done..].
  destruct (String.eqb path ""); [done|].
  rewrite withNodes_store. apply Frame_traverseModuleDirectory.
Qed.

Lemma Frame_traverseResource basePath id d : Frame (traverseResource W rec basePath id d).
Proof.
  intros s. unfold traverseResource.
  destruct (findResourceNode W basePath id) as [[node|]| |]; simpl; [|done..].
  rewrite withNodes_store. apply Frame_traverseReferences.
Qed.

End WithRec.

Lemma Frame_traverseNode fuel basePath id d : Frame (traverseNode W fuel basePath id d).
Proof.
  revert basePath id d. induction fuel as [|fuel IH]; intros basePath id d s; simpl.
  { by destruct (_ || _). }
  destruct (_ || _); [done|].
  change (markProcessed id (withNodes old s)) with (withNodes old (markProcessed id s)).
  destruct (HasPrefix id "module.").
  - rewrite (Frame_traverseModule _ IH).
    destruct (traverseModule W _ basePath id d _) as [s2| |]; simpl; [|done..].
    apply (Frame_traverseResource _ IH).
  - simpl. apply (Frame_traverseResource _ IH).
Qed.

End NodesUnread.

(** X17: a run does not read the node map. [buildDependencyGraph] on a
    graph that already holds nodes does what it does on the empty graph
    with the same [MaxDepth], with the same visited set and the same
    stores in the same order, and returns the nodes of that run laid over
    the nodes that were there: an old node survives exactly under the keys
    the run does not store to, and no old node influences the run. *)
Theorem X17_run_ignores_existing_nodes (W : World) (g : Graph)
    (basePath targetID : string) :
  buildDependencyGraph W g basePath targetID
  = mapRes (withNodes (Nodes g))
           (buildDependencyGraph W (mkGraph ∅ (MaxDepth g)) basePath targetID).
Proof.
  unfold buildDependencyGraph. simpl MaxDepth.
  rewrite <- (Frame_traverseNode W (Nodes g)). f_equal.
  unfold withNodes. simpl. rewrite (left_id_L ∅ (∪)). by destruct g.
Qed.

(** ** The command ([main]) *)

(** The parsed command-line flags. *)
Record Flags := mkFlags {
  path : string;
  resourceType : string;
  resourceName : string;
  output : string;
  format : string;
  maxDepth : Z
}.

(** What [main] needs of the system beside the [World] of the traversal:
    [os.IsNotExist] of the error of [os.Stat], [filepath.Dir], and whether
    [os.WriteFile] succeeds. *)
Record System := mkSystem {
  world : World;
  IsNotExist : string → bool;
  filepath_Dir : string → string;
  WriteFile : string → string → bool
}.

(** How [main] ends: [os.Exit(1)], or a return after the file was
    written. *)
Inductive Outcome :=
| Exit1
| Wrote (name content : string).

Definition main (sys : System) (f : Flags) : res Outcome :=
  if String.eqb (path f) "" || String.eqb (resourceType f) ""
     || String.eqb (resourceName f) ""
  then Ok Exit1
  else if IsNotExist sys (path f) then Ok Exit1
  else
    let graph0 := mkGraph ∅ (maxDepth f) in
    let targetID := resourceType f +:+ "." +:+ resourceName f in
    let basePath := filepath_Dir sys (path f) in
    st ← buildDependencyGraph (world sys) graph0 basePath targetID;
    if String.eqb (format f) "dot" then
      let content := generateDOT (world sys) (graph st) in
      if WriteFile sys (output f) content
      then Ok (Wrote (output f) content)
      else Ok Exit1
    else Ok Exit1.

Lemma target_nonempty ty name : ty ≠ "" → ty +:+ "." +:+ name ≠ "".
Proof. by destruct ty. Qed.

(** X18: the file [main] writes for a resource that is declared. With
    the three required flags given, an existing path, format [dot], a
    depth between 0 and the largest [int], module sources that are
    strings, and a target [<type>.<name>] that is not a module-internal
    key (it does not both start with [module.] and hold a slash) and that
    the locator finds in the directory of the path, [main] does not panic
    and writes, if the write succeeds, the DOT text of the graph that
    holds the located node alone. Under these conditions the text does
    not depend on the [-depth] flag. For a target of the form
    [module.<name>/<id>] it can: the expansion of the module stores to
    the target's key again, at a greater depth. *)
Theorem X18_main_writes_target (sys : System) (f : Flags) (node : Node) :
  range_complete (world sys) → stringSources (world sys) →
  path f ≠ "" → resourceType f ≠ "" → resourceName f ≠ "" →
  IsNotExist sys (path f) = false →
  format f = "dot" →
  0 ≤ maxDepth f < max_int →
  namespaced (resourceType f +:+ "." +:+ resourceName f) = false →
  findResourceNode (world sys) (filepath_Dir sys (path f))
    (resourceType f +:+ "." +:+ resourceName f) = Ok (Some node) →
  let content :=
    generateDOT (world sys)
      (mkGraph {[ resourceType f +:+ "." +:+ resourceName f := node ]} 0) in
  main sys f = Ok (if WriteFile sys (output f) content
                   then Wrote (output f) content else Exit1).
Proof.
  intros Hrange Hsources Hp Ht Hn Hex Hfmt HM Hns Hfind content. unfold main.
  destruct (String.eqb_spec (path f) ""); [done|].
  destruct (String.eqb_spec (resourceType f) ""); [done|].
  destruct (String.eqb_spec (resourceName f) ""); [done|]. simpl.
  rewrite Hex, Hfmt. simpl.
  destruct (run_returns (world sys) (mkGraph ∅ (maxDepth f))
              (filepath_Dir sys (path f))
              (resourceType f +:+ "." +:+ resourceName f) Hrange Hsources
              (proj2 HM) (target_nonempty _ _ Ht)) as [st' Hrun].
  rewrite Hrun. simpl.
  destruct (run_output_of_found_target (world sys) (mkGraph ∅ (maxDepth f))
              (filepath_Dir sys (path f))
              (resourceType f +:+ "." +:+ resourceName f) node st'
              Hrange eq_refl HM Hns Hfind Hrun) as (_ & _ & ->).
  subst content. unfold generateDOT, generateDOTPieces. simpl Nodes.
  by destruct (WriteFile sys (output f) _).
Qed.

(** X19: when [main] writes a file. With module sources that are strings
    and a depth below the largest [int], [main] never panics; and it
    writes a file only when the path, the type and the name are given, the
    path exists, the format is [dot] and the traversal has returned: the
    file is the one named by [-output] and its content is the DOT text of
    the graph of the run on [<type>.<name>] from the directory of the
    path. In every other case it ends with [os.Exit(1)]; with an
    unsupported format it does so only after the traversal. *)
Theorem X19_main_outcomes (sys : System) (f : Flags) :
  range_complete (world sys) → stringSources (world sys) →
  maxDepth f < max_int →
  ∃ outcome, main sys f = Ok outcome
    ∧ ∀ name content, outcome = Wrote name content →
        path f ≠ "" ∧ resourceType f ≠ "" ∧ resourceName f ≠ ""
        ∧ IsNotExist sys (path f) = false ∧ format f = "dot"
        ∧ name = output f ∧ WriteFile sys name content = true
        ∧ ∃ st, buildDependencyGraph (world sys) (mkGraph ∅ (maxDepth f))
                  (filepath_Dir sys (path f))
                  (resourceType f +:+ "." +:+ resourceName f) = Ok st
                ∧ content = generateDOT (world sys) (graph st).
Proof.
  intros Hrange Hsources HM. unfold main.
  destruct (String.eqb_spec (path f) ""); [by eexists|].
  destruct (String.eqb_spec (resourceType f) "") as [|Ht]; [by eexists|].
  destruct (String.eqb_spec (resourceName f) ""); [by eexists|]. simpl.
  destruct (IsNotExist sys (path f)) eqn:Hex; [by eexists|].
  destruct (run_returns (world sys) (mkGraph ∅ (maxDepth f))
              (filepath_Dir sys (path f))
              (resourceType f +:+ "." +:+ resourceName f) Hrange Hsources
              HM (target_nonempty _ _ Ht)) as [st' Hrun].
  rewrite Hrun. simpl.
  destruct (String.eqb_spec (format f) "dot") as [Hfmt|]; [|by eexists].
  destruct (WriteFile sys (output f) _) eqn:Hw; [|by eexists].
  eexists. split; [done|]. intros name content [= <- <-].
  repeat (split; [done|]). by exists st'.
Qed.

Lemma cycleWorld_stringSources : stringSources Examples.cycleWorld.
Proof.
  intros file body block attr v Hp Hb Ht Ha Hv.
  unfold Examples.cycleWorld, Examples.tableWorld in Hp.
  cbn [ParseHCLFile list_to_map foldr uncurry fst snd] in Hp.
  apply lookup_insert_Some in Hp as [[_ <-]|[_ Hp]].
  { simpl in Hb. apply elem_of_cons in Hb as [->|Hb]; [done|].
    apply list_elem_of_singleton in Hb as ->. done. }
  by rewrite lookup_empty in Hp.
Qed.

(** A system over the two-resource configuration, and the flags
    [-path /p/main.tf -type aws_a -name a]. *)
Definition cycleSystem : System :=
  mkSystem Examples.cycleWorld (λ _, false) (λ _, "/p") (λ _ _, true).

Definition cycleFlags : Flags := mkFlags "/p/main.tf" "aws_a" "a" "graph.dot" "dot" 3.

Lemma X18_main_writes_target_witness :
  main cycleSystem cycleFlags
  = Ok (if WriteFile cycleSystem "graph.dot"
             (generateDOT Examples.cycleWorld
                (mkGraph {[ "aws_a" +:+ "." +:+ "a" := Examples.cycleNodeA ]} 0))
        then Wrote "graph.dot"
               (generateDOT Examples.cycleWorld
                  (mkGraph {[ "aws_a" +:+ "." +:+ "a" := Examples.cycleNodeA ]} 0))
        else Exit1).
Proof.
  apply (X18_main_writes_target cycleSystem cycleFlags Examples.cycleNodeA).
  - apply tableWorld_range_complete.
  - apply cycleWorld_stringSources.
  - discriminate.
  - discriminate.
  - discriminate.
  - reflexivity.
  - reflexivity.
  - split; [discriminate|reflexivity].
  - reflexivity.
  - vm_compute. reflexivity.
Defined.

Lemma X19_main_outcomes_witness :
  ∃ outcome, main cycleSystem cycleFlags = Ok outcome
    ∧ ∀ name content, outcome = Wrote name content →
        path cycleFlags ≠ "" ∧ resourceType cycleFlags ≠ "" ∧ resourceName cycleFlags ≠ ""
        ∧ IsNotExist cycleSystem (path cycleFlags) = false ∧ format cycleFlags = "dot"
        ∧ name = output cycleFlags ∧ WriteFile cycleSystem name content = true
        ∧ ∃ st, buildDependencyGraph (world cycleSystem) (mkGraph ∅ (maxDepth cycleFlags))
                  (filepath_Dir cycleSystem (path cycleFlags))
                  (resourceType cycleFlags +:+ "." +:+ resourceName cycleFlags) = Ok st
                ∧ content = generateDOT (world cycleSystem) (graph st).
Proof.
  apply (X19_main_outcomes cycleSystem cycleFlags).
  - apply tableWorld_range_complete.
  - apply cycleWorld_stringSources.
  - reflexivity.
Defined.

(** ** Which directory a module expansion reads *)

(** X20: the module directory is joined to the base path twice unless
    the first join is absolute. On the first visit of an identifier that
    starts with [module.] and whose module resolves, the path the resolver
    returns is the base path joined with the source of the call, and the
    directory [traverseModuleDirectory] is called on is that path when it
    is absolute, and otherwise the base path joined with it once more and
    cleaned: under a relative base path the expansion reads
    [base/base/source], not [base/source]. *)
Theorem X20_module_directory_joined_twice (W : World) (fuel : nat)
    (basePath nodeID name path : string) (mnode : Node) (d : Z) (st st' : State) :
  HasPrefix nodeID "module." = true →
  moduleNameOf nodeID = Ok name →
  findModuleNode W basePath ("module." +:+ name) = Ok (path, mnode) →
  path ≠ "" →
  d ≤ MaxDepth (graph st) → nodeID ∉ processedNodes st →
  traverseNode W (S fuel) basePath nodeID d st = Ok st' →
  ∃ sourcePath rest,
    HasPrefix sourcePath "." = true
    ∧ path = filepath_Join W basePath sourcePath
    ∧ Stat W path = true
    ∧ history st' =
        history st ++ EvStore nodeID d
          :: EvModuleDirectory
               (if filepath_IsAbs W (filepath_Join W basePath sourcePath)
                then filepath_Join W basePath sourcePath
                else filepath_Clean W
                       (filepath_Join W basePath (filepath_Join W basePath sourcePath)))
               ("module." +:+ name) d
          :: rest.
Proof.
  intros Hmod Hname Hfind Hpath Hd Hp H.
  pose proof Hfind as Hsound. unfold findModuleNode in Hsound.
  apply findModuleNodeIn_sound in Hsound
    as (file & body & block & _ & _ & _ & _ & (_ & _ & a & sourcePath & _ & _ & Hdot & Hj & Hs)
        & _); [|done].
  exists sourcePath.
  revert H. rewrite traverseNode_step by done. rewrite Hmod.
  unfold traverseModule at 1. rewrite Hname. simpl. rewrite Hfind. simpl.
  destruct (String.eqb_spec path "") as [|_]; [done|].
  set (sA := store nodeID (setDepth mnode d) (markProcessed nodeID st)).
  destruct (traverseModuleDirectory W (traverseNode W fuel) (resolvePath W basePath path)
              ("module." +:+ name) d sA) as [s2| |] eqn:Edir; simpl; try done.
  apply (traverseModuleDirectory_Loop W _ (traverseNode_Call W fuel)) in Edir
    as (new & Hl & _); [|apply moduleID_prefix|by eauto 6].
  intros H.
  apply (traverseResource_Changes W _ (traverseNode_Call W fuel) ∅) in H
    as (nR & HR & _); [|apply not_elem_of_empty|apply empty_subseteq|].
  2:{ apply (ch_processed _ _ _ _ _ Hl). apply elem_of_union. left.
      by apply elem_of_singleton. }
  exists (new ++ nR). split; [done|]. split; [done|]. split; [done|].
  rewrite (ch_history _ _ _ _ _ HR), (ch_history _ _ _ _ _ Hl). simpl.
  rewrite <- !app_assoc. simpl. unfold resolvePath. by rewrite Hj.
Qed.

Lemma X20_module_directory_joined_twice_witness :
  ∃ st', traverseNode Examples.moduleWorld 1 "/p" "module.net" 0 (mkState (mkGraph ∅ 0) ∅ [])
         = Ok st'
    ∧ ∃ sourcePath rest,
        HasPrefix sourcePath "." = true
        ∧ "/p/net" = filepath_Join Examples.moduleWorld "/p" sourcePath
        ∧ Stat Examples.moduleWorld "/p/net" = true
        ∧ history st' =
            [] ++ EvStore "module.net" 0
              :: EvModuleDirectory
                   (if filepath_IsAbs Examples.moduleWorld
                         (filepath_Join Examples.moduleWorld "/p" sourcePath)
                    then filepath_Join Examples.moduleWorld "/p" sourcePath
                    else filepath_Clean Examples.moduleWorld
                           (filepath_Join Examples.moduleWorld "/p"
                              (filepath_Join Examples.moduleWorld "/p" sourcePath)))
                   ("module." +:+ "net") 0
              :: rest.
Proof.
  assert (findModuleNode Examples.moduleWorld "/p" ("module." +:+ "net")
          = Ok ("/p/net", Examples.netModuleNode)) as Hfind by (vm_compute; reflexivity).
  assert ("/p/net" ≠ "") as Hne by discriminate.
  assert (0 ≤ MaxDepth (graph (mkState (mkGraph ∅ 0) ∅ []))) as HM by discriminate.
  pose proof (X20_module_directory_joined_twice Examples.moduleWorld 0 "/p" "module.net"
                "net" "/p/net" Examples.netModuleNode 0 (mkState (mkGraph ∅ 0) ∅ []))
    as Hrun.
  destruct (traverseNode Examples.moduleWorld 1 "/p" "module.net" 0
              (mkState (mkGraph ∅ 0) ∅ [])) as [st| |] eqn:E;
    [|vm_compute in E; discriminate E..].
  exists st. split; [reflexivity|].
  exact (Hrun st eq_refl eq_refl Hfind Hne HM (not_elem_of_empty _) eq_refl).
Defined.

(** ** The files the program reads *)

Lemma append_assoc (a b c : string) : (a +:+ b) +:+ c = a +:+ (b +:+ c).
Proof.
  induction a as [|x a IH]; [done|].
  change (String x ((a +:+ b) +:+ c) = String x (a +:+ (b +:+ c))). by rewrite IH.
Qed.

Lemma append_empty_r (a : string) : a +:+ "" = a.
Proof.
  induction a as [|x a IH]; [done|].
  change (String x (a +:+ "") = String x a). by rewrite IH.
Qed.

Lemma rev_app_append s acc : String.rev_app s acc = String.rev s +:+ acc.
Proof.
  unfold String.rev. revert acc. induction s as [|a s IH]; intros acc; [done|].
  change (String.rev_app s (String a acc) = String.rev_app s (String a "") +:+ acc).
  rewrite (IH (String a acc)), (IH (String a "")), append_assoc. done.
Qed.

Lemma rev_append a b : String.rev (a +:+ b) = String.rev b +:+ String.rev a.
Proof.
  induction a as [|x a IH].
  { change ("" +:+ b) with b. by rewrite append_empty_r. }
  change (String.rev_app (a +:+ b) (String x "")
          = String.rev b +:+ String.rev_app a (String x "")).
  rewrite !rev_app_append, IH, append_assoc. done.
Qed.

Lemma rev_involutive s : String.rev (String.rev s) = s.
Proof.
  induction s as [|a s IH]; [done|].
  change (String.rev (String.rev_app s (String a "")) = String a s).
  rewrite rev_app_append, rev_append, IH. done.
Qed.

(** [HasSuffix s suf] holds exactly when [s] is some text followed by
    [suf]. *)
Lemma HasSuffix_append s suf : HasSuffix s suf = true ↔ ∃ stem, s = stem +:+ suf.
Proof.
  unfold HasSuffix. split.
  - intros [t Ht]%prefix_app_inv. exists (String.rev t).
    rewrite <- (rev_involutive s), Ht, rev_append. by rewrite rev_involutive.
  - intros [stem ->]. rewrite rev_append. apply prefix_app.
Qed.

(** X21: the files the program reads. [findTerraformFiles] returns the
    empty list when the walk of the directory fails, and otherwise the
    walked paths of the form [<stem>.tf], all of them and only them, in
    the order of the walk. *)
Theorem X21_terraform_files (W : World) (basePath : string) :
  (Walk W basePath = None → findTerraformFiles W basePath = [])
  ∧ ∀ paths, Walk W basePath = Some paths →
      findTerraformFiles W basePath `sublist_of` paths
      ∧ ∀ p, p ∈ findTerraformFiles W basePath ↔
             p ∈ paths ∧ ∃ stem, p = stem +:+ ".tf".
Proof.
  unfold findTerraformFiles. split; [by intros ->|]. intros paths ->. split.
  - apply sublist_filter.
  - intros p. rewrite list_elem_of_filter, Is_true_true, HasSuffix_append. tauto.
Qed.

(** ** Two resources that reference each other *)

(** No label of a block of a parsed file holds a slash, so no declaration
    has an identifier of the form [module.<name>/<id>], which the program
    composes for the declarations of a module directory. *)
Definition slashFreeLabels (W : World) : Prop :=
  ∀ file body block l,
    ParseHCLFile W file = Some body → block ∈ body_Blocks body →
    l ∈ blk_Labels block → Contains l slash = false.

Lemma label_elem block i l : label block i = Ok l → l ∈ blk_Labels block.
Proof.
  unfold label. destruct (blk_Labels block !! i) as [l'|] eqn:E; [|done].
  intros [= <-]. by eapply list_elem_of_lookup_2.
Qed.

Lemma getBlockID_no_slash block id :
  (∀ l, l ∈ blk_Labels block → Contains l slash = false) →
  getBlockID block = Ok id → Contains id slash = false.
Proof.
  intros Hl. unfold getBlockID.
  assert (∀ i l, label block i = Ok l → Contains l slash = false) as Hlab.
  { intros i l H. by apply Hl, (label_elem _ i). }
  destruct (String.eqb (blk_Type block) "resource").
  { destruct (label block 0) as [l0| |] eqn:E0; simpl; try done.
    destruct (label block 1) as [l1| |] eqn:E1; simpl; try done.
    intros [= <-]. rewrite !Contains_app, (Hlab _ _ E0), (Hlab _ _ E1). done. }
  destruct (String.eqb (blk_Type block) "module").
  { destruct (label block 0) as [l0| |] eqn:E0; simpl; try done.
    intros [= <-]. rewrite !Contains_app, (Hlab _ _ E0). done. }
  destruct (String.eqb (blk_Type block) "data").
  { destruct (label block 0) as [l0| |] eqn:E0; simpl; try done.
    destruct (label block 1) as [l1| |] eqn:E1; simpl; try done.
    intros [= <-]. rewrite !Contains_app, (Hlab _ _ E0), (Hlab _ _ E1). done. }
  destruct (String.eqb (blk_Type block) "output").
  { destruct (label block 0) as [l0| |] eqn:E0; simpl; try done.
    intros [= <-]. rewrite !Contains_app, (Hlab _ _ E0). done. }
  by intros [= <-].
Qed.

(** Under [slashFreeLabels] the locator finds no identifier that holds a
    slash, in any directory. *)
Lemma findResourceNode_no_slash W dir id node :
  slashFreeLabels W →
  findResourceNode W dir id = Ok (Some node) → Contains id slash = false.
Proof.
  intros Hl H. unfold findResourceNode in H.
  apply findResourceNodeIn_Some in H as (earlier & file & later & _ & _ & H).
  apply findNodeInBlocks_Some in H as (before & block & after & name & Hb & _ & Hid & _).
  destruct (locatorBlocks_body W file block) as (body & Hparse & _ & Hin).
  { rewrite Hb. apply elem_of_app. right. by left. }
  apply (getBlockID_no_slash block); [|done].
  intros l. by apply (Hl file body).
Qed.

Section Reach.
Context (W : World) (basePath : string) (Hlabels : slashFreeLabels W).

(** Every visited identifier outside [X] that the locator finds in the
    base directory has a node. *)
Definition Good (X : gset string) (st : State) : Prop :=
  ∀ id node, id ∈ processedNodes st → id ∉ X →
    findResourceNode W basePath id = Ok (Some node) →
    is_Some (Nodes (graph st) !! id).

(** From [st] to [st']: the same [MaxDepth], no visited mark and no key
    lost, and [Good] kept. *)
Definition Keeps (st st' : State) : Prop :=
  MaxDepth (graph st') = MaxDepth (graph st)
  ∧ processedNodes st ⊆ processedNodes st'
  ∧ (∀ k, is_Some (Nodes (graph st) !! k) → is_Some (Nodes (graph st') !! k))
  ∧ ∀ X, Good X st → Good X st'.

(** The calls of [traverseNode] in a run from [basePath]: in the base
    directory, or on an identifier composed with a slash. *)
Definition InBase (bp id : string) : Prop := bp = basePath ∨ Contains id slash = true.

Lemma Keeps_refl st : Keeps st st.
Proof. done. Qed.

Lemma Keeps_trans a b c : Keeps a b → Keeps b c → Keeps a c.
Proof.
  intros (M1 & P1 & K1 & G1) (M2 & P2 & K2 & G2).
  split; [congruence|]. split; [by transitivity (processedNodes b)|]. split; auto.
Qed.

Lemma Keeps_store st k n : Keeps st (store k n st).
Proof.
  assert (∀ k', is_Some (Nodes (graph st) !! k')
                → is_Some (Nodes (graph (store k n st)) !! k')) as Hk.
  { intros k' Hk'. simpl. destruct (decide (k = k')) as [->|Hne].
    - rewrite lookup_insert_eq. eauto.
    - by rewrite lookup_insert_ne. }
  split; [done|]. split; [done|]. split; [done|].
  intros X Hg id node Hp Hx Hf. apply Hk. by eapply Hg.
Qed.

Lemma Keeps_log st p m d : Keeps st (logModuleDirectory p m d st).
Proof. done. Qed.

Lemma forEach_Keeps {A} (body : A → State → res State) l st st' :
  (∀ x s s', x ∈ l → body x s = Ok s' → Keeps s s') →
  forEach body l st = Ok st' → Keeps st st'.
Proof.
  revert st. induction l as [|x l IH]; simpl; intros st Hb H.
  { injection H as <-. apply Keeps_refl. }
  destruct (body x st) as [s| |] eqn:E; simpl in H; try done.
  eapply Keeps_trans; [exact (Hb x st s ltac:(by left) E)|].
  apply IH; [|done]. intros y s1 s2 Hy. apply Hb. by right.
Qed.

(** A loop that keeps [MaxDepth] and the visited marks leaves [id] marked
    if one of its steps marks it. *)
Lemma forEach_marks {A} (M : Z) (id : string) (body : A → State → res State) l st st' x :
  (∀ y s s', y ∈ l → body y s = Ok s' → Keeps s s') →
  x ∈ l →
  (∀ s s', MaxDepth (graph s) = M → body x s = Ok s' → id ∈ processedNodes s') →
  MaxDepth (graph st) = M →
  forEach body l st = Ok st' → id ∈ processedNodes st'.
Proof.
  intros Hb Hx Hmark. revert st Hx. induction l as [|y l IH]; simpl; intros st Hx HM H.
  { by apply elem_of_nil in Hx. }
  destruct (body y st) as [s| |] eqn:E; simpl in H; try done.
  pose proof (Hb y st s ltac:(by left) E) as (HMs & _).
  assert (∀ y0 s0 s', y0 ∈ l → body y0 s0 = Ok s' → Keeps s0 s') as Hb'.
  { intros y0 s0 s' Hy0. apply Hb. by right. }
  apply elem_of_cons in Hx as [->|Hx].
  - pose proof (forEach_Keeps body l s st' Hb' H) as (_ & Hp & _).
    apply Hp. by eapply Hmark.
  - apply (IH Hb' s Hx); [congruence|done].
Qed.

Lemma composed_key moduleID rest : Contains (moduleID +:+ "/" +:+ rest) slash = true.
Proof. rewrite !Contains_app. simpl. by rewrite orb_true_r. Qed.

Section WithRec.
Context (rec : Traverse).
Context (Hrec : ∀ bp id d st st',
  InBase bp id → rec bp id d st = Ok st' → Keeps st st').

Lemma processModuleReferences_Keeps refs moduleID d moduleBasePath st st' :
  processModuleReferences W rec refs moduleID d moduleBasePath st = Ok st' →
  Keeps st st'.
Proof.
  unfold processModuleReferences. apply forEach_Keeps. intros entry s s' _.
  apply forEach_Keeps. intros ref s1 s2 _. unfold processModuleReference.
  destruct (expandable (ref_ID ref)); [|intros [= <-]; apply Keeps_refl].
  case_bool_decide; [intros [= <-]; apply Keeps_refl|].
  apply Hrec. right. apply composed_key.
Qed.

Lemma processModuleBlocks_Keeps blocks file moduleID d moduleBasePath st st' :
  processModuleBlocks W rec blocks file moduleID d moduleBasePath st = Ok st' →
  Keeps st st'.
Proof.
  unfold processModuleBlocks. apply forEach_Keeps. intros block s s' _.
  destruct (getBlockID block) as [currentID| |]; simpl; try done.
  destruct (String.eqb currentID ""); [intros [= <-]; apply Keeps_refl|].
  destruct (lastLabel block) as [name| |]; simpl; try done.
  intros H. apply processModuleReferences_Keeps in H.
  eapply Keeps_trans; [apply Keeps_store|exact H].
Qed.

Lemma traverseModuleDirectory_Keeps moduleBasePath moduleID d st st' :
  traverseModuleDirectory W rec moduleBasePath moduleID d st = Ok st' →
  Keeps st st'.
Proof.
  unfold traverseModuleDirectory. intros H.
  apply (Keeps_trans _ (logModuleDirectory moduleBasePath moduleID d st));
    [apply Keeps_log|].
  destruct (findTerraformFiles W moduleBasePath) as [|file files].
  { injection H as <-. apply Keeps_refl. }
  revert H. apply forEach_Keeps. intros f s s' _.
  destruct (ParseHCLFile W f) as [body|]; [|intros [= <-]; apply Keeps_refl].
  destruct (Content moduleDirectorySchema body) as [blocks|];
    [|intros [= <-]; apply Keeps_refl].
  apply processModuleBlocks_Keeps.
Qed.

Lemma traverseModule_Keeps bp id d st st' :
  traverseModule W rec bp id d st = Ok st' → Keeps st st'.
Proof.
  unfold traverseModule.
  destruct (moduleNameOf id) as [name| |]; simpl; try done.
  destruct (findModuleNode W bp ("module." +:+ name)) as [[path mnode]| |];
    simpl; try done.
  destruct (String.eqb path ""); [intros [= <-]; apply Keeps_refl|].
  intros H. apply traverseModuleDirectory_Keeps in H.
  eapply Keeps_trans; [apply Keeps_store|exact H].
Qed.

Lemma traverseReferences_Keeps refs d st st' :
  traverseReferences W rec basePath refs d st = Ok st' → Keeps st st'.
Proof.
  unfold traverseReferences. apply forEach_Keeps. intros entry s s' _.
  apply forEach_Keeps. intros ref s1 s2 _. unfold traverseReference.
  destruct (expandable (ref_ID ref)); [|intros [= <-]; apply Keeps_refl].
  apply Hrec. by left.
Qed.

End WithRec.

(** A call of [traverseNode] keeps [Good], and marks its identifier
    when the depth is within [MaxDepth]. *)
Lemma traverseNode_Keeps fuel bp id d st st' :
  InBase bp id →
  traverseNode W fuel bp id d st = Ok st' →
  Keeps st st' ∧ (d ≤ MaxDepth (graph st) → id ∈ processedNodes st').
Proof.
  revert bp id d st st'. induction fuel as [|fuel IH]; intros bp id d st st' Hin; simpl.
  { destruct (bool_decide (d > MaxDepth (graph st))) eqn:Eg; simpl.
    - intros [= <-]. split; [apply Keeps_refl|]. apply bool_decide_eq_true in Eg. lia.
    - destruct (bool_decide (id ∈ processedNodes st)) eqn:Ep; [|done].
      intros [= <-]. split; [apply Keeps_refl|]. intros _. by apply bool_decide_eq_true in Ep. }
  destruct (bool_decide (d > MaxDepth (graph st))) eqn:Eg; simpl.
  { intros [= <-]. split; [apply Keeps_refl|]. apply bool_decide_eq_true in Eg. lia. }
  destruct (bool_decide (id ∈ processedNodes st)) eqn:Ep; simpl.
  { intros [= <-]. split; [apply Keeps_refl|]. intros _. by apply bool_decide_eq_true in Ep. }
  assert (∀ bp' id' d' s s', InBase bp' id' →
            traverseNode W fuel bp' id' d' s = Ok s' → Keeps s s') as Hrec.
  { intros bp' id' d' s s' Hi Hs. by destruct (IH bp' id' d' s s' Hi Hs). }
  set (s1 := markProcessed id st).
  destruct (if HasPrefix id "module."
            then traverseModule W (traverseNode W fuel) bp id d s1
            else Ok s1) as [s2| |] eqn:Em; simpl; try done.
  assert (Keeps s1 s2) as H12.
  { destruct (HasPrefix id "module."); [|injection Em as <-; apply Keeps_refl].
    by apply (traverseModule_Keeps _ Hrec) in Em. }
  intros H.
  assert (Keeps s2 st'
          ∧ (∀ node, findResourceNode W basePath id = Ok (Some node) →
               is_Some (Nodes (graph st') !! id))) as [H2 Hstored].
  { revert H. unfold traverseResource.
    destruct (findResourceNode W bp id) as [[node|]| |] eqn:Ef; simpl; try done.
    - assert (bp = basePath) as Hbp.
      { destruct Hin as [?|Hs]; [done|].
        by rewrite (findResourceNode_no_slash W bp id node Hlabels Ef) in Hs. }
      rewrite Hbp. intros H. apply (traverseReferences_Keeps _ Hrec) in H.
      split; [eapply Keeps_trans; [apply Keeps_store|exact H]|].
      intros ? _. destruct H as (_ & _ & Hk & _). apply Hk. simpl.
      rewrite lookup_insert_eq. eauto.
    - intros [= <-]. split; [apply Keeps_refl|]. intros node Hf.
      destruct Hin as [->|Hs]; [congruence|].
      by rewrite (findResourceNode_no_slash W basePath id node Hlabels Hf) in Hs. }
  destruct H12 as (M12 & P12 & K12 & G12). destruct H2 as (M2 & P2 & K2 & G2).
  split.
  2:{ intros _. apply P2, P12. simpl. apply elem_of_union. left.
      by apply elem_of_singleton. }
  split; [by rewrite M2, M12|]. split.
  { intros x Hx. apply P2, P12. simpl. apply elem_of_union. by right. }
  split.
  { intros k Hk. by apply K2, K12. }
  intros X Hg id' node Hp Hx Hf.
  destruct (decide (id' = id)) as [->|Hne]; [by eapply Hstored|].
  assert (Good (X ∪ {[id]}) s1) as Hg1.
  { intros i n Hi Hxi Hfi. apply (Hg i n); [|  |done].
    - simpl in Hi. apply elem_of_union in Hi as [Hi|Hi]; [|done].
      apply elem_of_singleton in Hi. subst i. destruct Hxi.
      apply elem_of_union. right. by apply elem_of_singleton.
    - intros HX. apply Hxi. apply elem_of_union. by left. }
  apply (G2 (X ∪ {[id]}) (G12 _ Hg1) id' node Hp); [|done].
  by intros [?|?%elem_of_singleton]%elem_of_union.
Qed.

End Reach.

(** A run on an identifier for which the locator returns does not
    panic. *)
Lemma traverseNode_no_panic_located W fuel basePath id d st :
  range_complete W → stringSources W →
  findResourceNode W basePath id ≠ Panic →
  traverseNode W fuel basePath id d st ≠ Panic.
Proof.
  intros Hrange Hsources Hloc. destruct fuel as [|fuel]; simpl.
  { by destruct (_ || _). }
  destruct (_ || _); [done|].
  set (s1 := markProcessed id st).
  assert ((if HasPrefix id "module."
           then traverseModule W (traverseNode W fuel) basePath id d s1
           else Ok s1) ≠ Panic) as Hm.
  { destruct (HasPrefix id "module.") eqn:Ep; [|done]. unfold traverseModule.
    destruct (moduleNameOf_module id Ep) as [name ->]. simpl.
    pose proof (findModuleNode_no_panic W basePath ("module." +:+ name) Hsources).
    destruct (findModuleNode W basePath ("module." +:+ name)) as [[path mnode]| |];
      simpl; try done.
    destruct (String.eqb path ""); [done|].
    apply traverseModuleDirectory_no_panic; [|apply moduleID_prefix].
    intros bp i d' s Hi. by apply traverseNode_no_panic. }
  destruct (if HasPrefix id "module."
            then traverseModule W (traverseNode W fuel) basePath id d s1
            else Ok s1) as [s2| |]; simpl; try done.
  unfold traverseResource.
  destruct (findResourceNode W basePath id) as [[node|]| |] eqn:Ef; simpl; try done.
  apply findResourceNode_found in Ef as (block & file & _ & _ & _ & _ & _ & ->).
  apply traverseReferences_no_panic; [done|].
  intros bp i d' s Hi. by apply traverseNode_no_panic.
Qed.

(** Two resources that reference each other through an attribute, the
    usual way to write a dependency: [aws_a.a] mentions [aws_b.b.id] and
    [aws_b.b] mentions [aws_a.a.id]. *)
Definition attributeCycleBody : Body :=
  mkBody []
    [ mkBlock "resource" ["aws_a"; "a"]
        {[ "peer" := Examples.uses [Examples.path "aws_b" ["b"; "id"]] ]};
      mkBlock "resource" ["aws_b"; "b"]
        {[ "peer" := Examples.uses [Examples.path "aws_a" ["a"; "id"]] ]} ].

Definition attributeCycleWorld : World :=
  Examples.tableWorld [("/p", ["/p/main.tf"])] [("/p/main.tf", attributeCycleBody)]
    ["/p"] [].

(** C1 is false as stated: when the two resources mention each other
    through an attribute, the references are recorded with the attribute
    ([aws_b.b.id]), the locator finds no declaration with that identifier,
    and the run on [aws_a.a] with a maximum depth of 2 returns a graph
    that holds [aws_a.a] and not [aws_b.b]. *)
Lemma C1_attribute_cycle_counterexample :
  findResourceNode attributeCycleWorld "/p" "aws_a.a"
  = Ok (Some (mkNode "aws_a.a" "resource" "a" "/p/main.tf"
                {[ "resource" := [mkReference "aws_b.b.id" "/p/main.tf"] ]} 0))
  ∧ findResourceNode attributeCycleWorld "/p" "aws_b.b"
    = Ok (Some (mkNode "aws_b.b" "resource" "b" "/p/main.tf"
                  {[ "resource" := [mkReference "aws_a.a.id" "/p/main.tf"] ]} 0))
  ∧ ∃ st, buildDependencyGraph attributeCycleWorld (mkGraph ∅ 2) "/p" "aws_a.a" = Ok st
          ∧ is_Some (Nodes (graph st) !! "aws_a.a")
          ∧ Nodes (graph st) !! "aws_b.b" = None.
Proof.
  split; [vm_compute; reflexivity|]. split; [vm_compute; reflexivity|].
  destruct (buildDependencyGraph attributeCycleWorld (mkGraph ∅ 2) "/p" "aws_a.a")
    as [st| |] eqn:E; [|vm_compute in E; discriminate E..].
  exists st. split; [reflexivity|].
  vm_compute in E. injection E as <-. split; [vm_compute; eexists; reflexivity|].
  vm_compute. reflexivity.
Qed.

(** C1 (amended): let the locator find [A] and [B] in the base directory,
    let some reference recorded for [A] be [B]'s identifier itself and
    some reference recorded for [B] be [A]'s identifier itself, let [B]
    start neither with [var.] nor with [local.], and let no block label
    hold a slash. With a maximum depth of at least 1 (so also of at least
    2) and below the largest [int], whatever else [A] and [B] refer to,
    the run of [buildDependencyGraph] on [A] ends; it returns a graph when
    every module source that evaluates is a string; and when it returns,
    the node map holds exactly one node for [A] and exactly one for
    [B]. *)
Theorem C1_cycle_terminates (W : World) (g : Graph) (basePath A B : string)
    (nA nB : Node) :
  range_complete W → slashFreeLabels W →
  1 ≤ MaxDepth g < max_int →
  expandable B = true →
  findResourceNode W basePath A = Ok (Some nA) →
  findResourceNode W basePath B = Ok (Some nB) →
  (∃ c refs r, References nA !! c = Some refs ∧ r ∈ refs ∧ ref_ID r = B) →
  (∃ c refs r, References nB !! c = Some refs ∧ r ∈ refs ∧ ref_ID r = A) →
  buildDependencyGraph W g basePath A ≠ OutOfFuel
  ∧ (stringSources W → ∃ st', buildDependencyGraph W g basePath A = Ok st')
  ∧ ∀ st', buildDependencyGraph W g basePath A = Ok st' →
      (exists! n, Nodes (graph st') !! A = Some n)
      ∧ (exists! n, Nodes (graph st') !! B = Some n).
Proof.
  intros Hrange Hlabels HM HeB HfindA HfindB (c & refs & r & Hc & Hr & HrB) _.
  pose proof (buildDependencyGraph_fuel W g basePath A (proj2 HM)) as Hfuel.
  split; [exact Hfuel|]. split.
  { intros Hsources.
    assert (buildDependencyGraph W g basePath A ≠ Panic) as Hpanic.
    { apply traverseNode_no_panic_located; [done..|]. by rewrite HfindA. }
    destruct (buildDependencyGraph W g basePath A) as [st'| |]; [by exists st'|done..]. }
  intros st' H.
  assert (∀ bp id d s s', InBase basePath bp id →
            traverseNode W (Z.to_nat (MaxDepth g - 0)) bp id d s = Ok s' →
            Keeps W basePath s s') as Hrec.
  { intros bp id d s s' Hi Hs.
    by destruct (traverseNode_Keeps W basePath Hlabels _ bp id d s s' Hi Hs). }
  (* both identifiers are visited *)
  destruct (traverseNode_Keeps W basePath Hlabels _ basePath A 0 (mkState g ∅ []) st'
              (or_introl eq_refl) H) as [(_ & _ & _ & Hgood) HmarkA].
  assert (B ∈ processedNodes st') as HmarkB.
  { revert H. unfold buildDependencyGraph, fuelFor.
    rewrite traverseNode_step; [|simpl; lia|apply not_elem_of_empty].
    set (s1 := markProcessed A (mkState g ∅ [])).
    destruct (if HasPrefix A "module." then _ else _) as [s2| |] eqn:Em; simpl; try done.
    assert (MaxDepth (graph s2) = MaxDepth g) as HM2.
    { destruct (HasPrefix A "module."); [|by injection Em as <-].
      by apply (traverseModule_Keeps W basePath _ Hrec) in Em as (-> & _). }
    unfold traverseResource. rewrite HfindA. simpl. unfold traverseReferences.
    apply (forEach_marks W basePath (MaxDepth g) B _ _ _ _ (c, refs)); [| | |done].
    - intros entry s s' _. apply forEach_Keeps. intros ref s3 s4 _.
      unfold traverseReference.
      destruct (expandable (ref_ID ref)); [|intros [= <-]; apply Keeps_refl].
      apply Hrec. by left.
    - apply (range_elem W _ _ _ Hrange). by destruct nA.
    - intros s s' Hs. simpl.
      apply (forEach_marks W basePath (MaxDepth g) B _ _ _ _ r); [|done| |done].
      + intros ref s3 s4 _. unfold traverseReference.
        destruct (expandable (ref_ID ref)); [|intros [= <-]; apply Keeps_refl].
        apply Hrec. by left.
      + intros s3 s4 Hs3. unfold traverseReference. rewrite HrB, HeB. intros Hcall.
        apply (traverseNode_Keeps W basePath Hlabels _ basePath B _ s3 s4
                 (or_introl eq_refl) Hcall).
        rewrite Hs3. change (succ_int 0) with 1. lia. }
  assert (Good W basePath ∅ st') as Hg.
  { apply Hgood. intros id node Hin. simpl in Hin. by apply not_elem_of_empty in Hin. }
  assert (∀ k, is_Some (Nodes (graph st') !! k) → exists! n, Nodes (graph st') !! k = Some n)
    as Huniq.
  { intros k [n Hn]. exists n. split; [done|]. intros n' Hn'. congruence. }
  split; apply Huniq.
  - apply (Hg A nA); [|apply not_elem_of_empty|done]. apply HmarkA. simpl. lia.
  - by apply (Hg B nB); [|apply not_elem_of_empty|].
Qed.

Lemma cycleWorld_slashFreeLabels : slashFreeLabels Examples.cycleWorld.
Proof.
  intros file body block l Hp Hb Hl.
  unfold Examples.cycleWorld, Examples.tableWorld in Hp.
  cbn [ParseHCLFile list_to_map foldr uncurry fst snd] in Hp.
  apply lookup_insert_Some in Hp as [[_ <-]|[_ Hp]]; [|by rewrite lookup_empty in Hp].
  simpl in Hb. apply elem_of_cons in Hb as [->|Hb].
  - simpl in Hl. apply elem_of_cons in Hl as [->|Hl]; [done|].
    by apply list_elem_of_singleton in Hl as ->.
  - apply list_elem_of_singleton in Hb as ->.
    simpl in Hl. apply elem_of_cons in Hl as [->|Hl]; [done|].
    by apply list_elem_of_singleton in Hl as ->.
Qed.

Lemma C1_cycle_terminates_witness :
  findResourceNode Examples.cycleWorld "/p" "aws_a.a" = Ok (Some Examples.cycleNodeA)
  ∧ findResourceNode Examples.cycleWorld "/p" "aws_b.b" = Ok (Some Examples.cycleNodeB)
  ∧ buildDependencyGraph Examples.cycleWorld (mkGraph ∅ 2) "/p" "aws_a.a" ≠ OutOfFuel
  ∧ ∃ st', buildDependencyGraph Examples.cycleWorld (mkGraph ∅ 2) "/p" "aws_a.a" = Ok st'
           ∧ (exists! n, Nodes (graph st') !! "aws_a.a" = Some n)
           ∧ (exists! n, Nodes (graph st') !! "aws_b.b" = Some n).
Proof.
  assert (findResourceNode Examples.cycleWorld "/p" "aws_a.a"
          = Ok (Some Examples.cycleNodeA)) as HA by (vm_compute; reflexivity).
  assert (findResourceNode Examples.cycleWorld "/p" "aws_b.b"
          = Ok (Some Examples.cycleNodeB)) as HB by (vm_compute; reflexivity).
  split; [exact HA|]. split; [exact HB|].
  destruct (C1_cycle_terminates Examples.cycleWorld (mkGraph ∅ 2) "/p" "aws_a.a" "aws_b.b"
              Examples.cycleNodeA Examples.cycleNodeB) as (Hfuel & Hreturns & Hkeys).
  - apply tableWorld_range_complete.
  - apply cycleWorld_slashFreeLabels.
  - split; [discriminate|reflexivity].
  - reflexivity.
  - exact HA.
  - exact HB.
  - exists "resource", [mkReference "aws_b.b" "/p/main.tf"], (mkReference "aws_b.b" "/p/main.tf").
    split; [reflexivity|]. split; [by left|reflexivity].
  - exists "resource", [mkReference "aws_a.a" "/p/main.tf"], (mkReference "aws_a.a" "/p/main.tf").
    split; [reflexivity|]. split; [by left|reflexivity].
  - split; [exact Hfuel|].
    destruct (Hreturns cycleWorld_stringSources) as [st' E].
    exists st'. split; [exact E|]. exact (Hkeys st' E).
Defined.
